(** * Gomoku engine: board, candidate generator, pattern evaluator, search

    A shallow embedding of the C++ sources (the [Board] / [PatternEvaluator] /
    [GomokuAI] program, the array-based [Gomoku] variant with [countLine] /
    [checkWinFast], the [GomokuGame] / [AIPlayer] variant, and the [Gomoku]
    class of the program with difficulty levels), followed by the properties
    of the specification stated and proved over it.

    Conventions.  C++ [int] values are [Z]; the evaluators' sums stay inside
    the 32-bit range, as the bounds proved below show.  A [std::array] /
    [std::vector] grid is a list of
    rows; reading outside the allocated cells is [None] in [array_at].  Code
    that mutates the board through a reference takes the board and returns the
    new one. *)

From Stdlib Require Import ZArith Lia Sorted.
From stdpp Require Import base numbers option list.

Open Scope Z_scope.

(** ** Constants and core types *)

Definition BOARD_SIZE : Z := 15.
Definition WIN_LENGTH : Z := 5.
Definition MAX_DEPTH : Z := 8.
Definition INFINITY_SCORE : Z := 1000000.
Definition WIN_SCORE : Z := 100000.

Inductive Stone : Set := EMPTY | BLACK | WHITE.
Inductive GameStatus : Set := ONGOING | BLACK_WIN | WHITE_WIN | DRAW.

#[global] Instance Stone_eq_dec : EqDecision Stone.
Proof. solve_decision. Defined.
#[global] Instance GameStatus_eq_dec : EqDecision GameStatus.
Proof. solve_decision. Defined.

(** Direction vectors for checking lines.  The initialiser lists four pairs,
    but the comment that follows the third, [// Diagonal \], ends in a
    backslash: the line break after it is spliced away before comments are
    removed, so the fourth line, [{1, -1}], belongs to that comment and the
    vector holds three pairs. *)
Definition DIRECTIONS : list (Z * Z) := [(0, 1); (1, 0); (1, 1)].

Module PatternScore.
Definition FIVE : Z := 100000.
Definition OPEN_FOUR : Z := 10000.
Definition BLOCKED_FOUR : Z := 1000.
Definition OPEN_THREE : Z := 1000.
Definition BLOCKED_THREE : Z := 100.
Definition OPEN_TWO : Z := 100.
Definition BLOCKED_TWO : Z := 10.
Definition ONE : Z := 1.
End PatternScore.

Record Position : Set := mkPosition { row : Z; col : Z }.

#[global] Instance Position_eq_dec : EqDecision Position.
Proof. solve_decision. Defined.

Definition in_range (r c : Z) : bool :=
  (0 <=? r) && (r <? BOARD_SIZE) && (0 <=? c) && (c <? BOARD_SIZE).

Definition isValid (p : Position) : bool := in_range (row p) (col p).

(** ** Two-dimensional arrays *)

Abbreviation Grid A := (list (list A)).

(** [a[r][c]]; [None] stands for an access outside the array. *)
Definition array_at {A} (g : Grid A) (r c : Z) : option A :=
  if (0 <=? r) && (0 <=? c)
  then g !! Z.to_nat r ≫= (λ rw, rw !! Z.to_nat c)
  else None.

(** [a[r][c] = x]. *)
Definition array_set {A} (g : Grid A) (r c : Z) (x : A) : Grid A :=
  if (0 <=? r) && (0 <=? c)
  then alter (λ rw, <[Z.to_nat c := x]> rw) (Z.to_nat r) g
  else g.

(** A grid filled with [x], [BOARD_SIZE] rows of [BOARD_SIZE] cells. *)
Definition array_fill {A} (x : A) : Grid A :=
  replicate (Z.to_nat BOARD_SIZE) (replicate (Z.to_nat BOARD_SIZE) x).

(** The shape fixed by the type [std::array<std::array<_, 15>, 15>]. *)
Definition grid_ok {A} (g : Grid A) : Prop :=
  length g = Z.to_nat BOARD_SIZE ∧
  Forall (λ rw, length rw = Z.to_nat BOARD_SIZE) g.

(** The integers [lo, lo+1, ..., hi-1], the index range of a [for] loop. *)
Definition ints (lo hi : Z) : list Z := seqZ lo (hi - lo).

(** A [for] loop whose body may [return]: the first iteration that returns
    decides; [None] when the loop runs to its end. *)
Fixpoint for_first {A B} (l : list A) (body : A → option B) : option B :=
  match l with
  | [] => None
  | x :: l' =>
      match body x with
      | Some y => Some y
      | None => for_first l' body
      end
  end.

(** ** class Board *)

Record Board : Type := mkBoard {
  board : Grid Stone;
  moveHistory : list Position;
  moveCount : Z
}.

(** [Board::Board()] *)
Definition newBoard : Board :=
  {| board := array_fill EMPTY; moveHistory := []; moveCount := 0 |}.

(** The unchecked read [board[r][c]] of the member array. *)
Definition cell (b : Board) (r c : Z) : Stone :=
  default EMPTY (array_at (board b) r c).

(** [getStone] with the array access it performs: the read [board[row][col]]
    is [array_at], which is [None] for indices outside the array, where the
    C++ access is undefined. *)
Module Access.
Definition getStone (b : Board) (r c : Z) : option Stone :=
  if (r <? 0) || (r >=? BOARD_SIZE) || (c <? 0) || (c >=? BOARD_SIZE)
  then Some EMPTY
  else array_at (board b) r c.
End Access.

(** The stone [getStone] returns, as its callers use it. *)
Definition getStone (b : Board) (r c : Z) : Stone :=
  default EMPTY (Access.getStone b r c).

Definition isValidMove (b : Board) (r c : Z) : bool :=
  (r >=? 0) && (r <? BOARD_SIZE) && (c >=? 0) && (c <? BOARD_SIZE) &&
  bool_decide (cell b r c = EMPTY).

Definition placeStone (b : Board) (r c : Z) (stone : Stone) : bool * Board :=
  if negb (isValidMove b r c) then (false, b)
  else (true, {| board := array_set (board b) r c stone;
                 moveHistory := moveHistory b ++ [mkPosition r c];
                 moveCount := moveCount b + 1 |}).

Definition removeStone (b : Board) (r c : Z) : Board :=
  let cells := array_set (board b) r c EMPTY in
  match moveHistory b with
  | [] => {| board := cells; moveHistory := []; moveCount := moveCount b |}
  | _ :: _ => {| board := cells;
                 moveHistory := removelast (moveHistory b);
                 moveCount := moveCount b - 1 |}
  end.

Definition isFull (b : Board) : bool :=
  moveCount b >=? BOARD_SIZE * BOARD_SIZE.

Definition getEmptyPositions (b : Board) : list Position :=
  foldl (λ empty r,
    foldl (λ empty c,
      if bool_decide (cell b r c = EMPTY) then empty ++ [mkPosition r c]
      else empty)
      empty (ints 0 BOARD_SIZE))
    [] (ints 0 BOARD_SIZE).

(** One step of the neighbourhood scan of [getRelevantMoves]: the cell
    [(nr, nc)] is appended unless it is not a valid move or was considered. *)
Definition consider (b : Board) (st : list Position * Grid bool) (nr nc : Z)
  : list Position * Grid bool :=
  if isValidMove b nr nc && negb (default false (array_at st.2 nr nc))
  then (st.1 ++ [mkPosition nr nc], array_set st.2 nr nc true)
  else st.

(** The cells visited around the stone at [(r, c)], in loop order. *)
Definition around (st : list Position * Grid bool) (b : Board) (range r c : Z)
  : list Position * Grid bool :=
  foldl (λ st dr,
    foldl (λ st dc, consider b st (r + dr) (c + dc))
          st (ints (- range) (range + 1)))
    st (ints (- range) (range + 1)).

Definition getRelevantMoves (b : Board) (range : Z) : list Position :=
  if moveCount b =? 0
  then [mkPosition (BOARD_SIZE ÷ 2) (BOARD_SIZE ÷ 2)]
  else
    (foldl (λ st r,
       foldl (λ st c,
         if bool_decide (cell b r c ≠ EMPTY) then around st b range r c else st)
         st (ints 0 BOARD_SIZE))
       ([], array_fill false) (ints 0 BOARD_SIZE)).1.

(** The counting loop of [checkWin]: [ix] holds the remaining values of [i]. *)
Fixpoint count_positive (b : Board) (r c dr dc : Z) (stone : Stone)
    (ix : list Z) (count : Z) : Z :=
  match ix with
  | [] => count
  | i :: ix' =>
      if bool_decide (getStone b (r + dr * i) (c + dc * i) ≠ stone) then count
      else count_positive b r c dr dc stone ix' (count + 1)
  end.

Definition checkWin (b : Board) : GameStatus :=
  match
    for_first (ints 0 BOARD_SIZE) (λ r,
      for_first (ints 0 BOARD_SIZE) (λ c,
        let stone := cell b r c in
        if bool_decide (stone = EMPTY) then None
        else for_first DIRECTIONS (λ d,
          let count :=
            count_positive b r c d.1 d.2 stone (ints 1 WIN_LENGTH) 1 in
          if count >=? WIN_LENGTH
          then Some (if bool_decide (stone = BLACK) then BLACK_WIN else WHITE_WIN)
          else None)))
  with
  | Some status => status
  | None => if isFull b then DRAW else ONGOING
  end.

(** ** class PatternEvaluator *)

Record LinePattern : Set := mkLinePattern {
  consecutive : Z;
  openEnds : Z;
  gaps : Z
}.

(** The inner loop of [analyzeLine] for one value of [dir]; returns [count]
    and the pattern when the loop is left. *)
Fixpoint analyze_dir (b : Board) (start : Position) (dr dc : Z) (stone : Stone)
    (dir : Z) (ix : list Z) (count : Z) (blocked : bool) (gapCount : Z)
    (pattern : LinePattern) : Z * LinePattern :=
  match ix with
  | [] => (count, pattern)
  | i :: ix' =>
      let r := row start + dr * i * dir in
      let c := col start + dc * i * dir in
      let current := getStone b r c in
      if bool_decide (current = stone) then
        analyze_dir b start dr dc stone dir ix' (count + 1) blocked 0
          (if gapCount >? 0
           then mkLinePattern (consecutive pattern) (openEnds pattern)
                              (gaps pattern + 1)
           else pattern)
      else if bool_decide (current = EMPTY) then
        if (count >? 0) && (gapCount =? 0) then
          analyze_dir b start dr dc stone dir ix' count blocked (gapCount + 1)
            pattern
        else
          (count,
           if negb blocked
           then mkLinePattern (consecutive pattern) (openEnds pattern + 1)
                              (gaps pattern)
           else pattern)
      else (count, pattern)
  end.

Definition analyzeLine (b : Board) (start : Position) (dr dc : Z)
    (stone : Stone) : LinePattern :=
  foldl (λ pattern dir,
    let '(count, pattern) :=
      analyze_dir b start dr dc stone dir (ints 1 WIN_LENGTH) 0 false 0 pattern
    in mkLinePattern (consecutive pattern + count) (openEnds pattern)
                     (gaps pattern))
    (mkLinePattern 1 0 0) [-1; 1].

(** [analyzeLine] with the array accesses of its [getStone] calls: [None] as
    soon as one of them is outside the array. *)
Module LineAccess.
Fixpoint analyze_dir (b : Board) (start : Position) (dr dc : Z) (stone : Stone)
    (dir : Z) (ix : list Z) (count : Z) (blocked : bool) (gapCount : Z)
    (pattern : LinePattern) : option (Z * LinePattern) :=
  match ix with
  | [] => Some (count, pattern)
  | i :: ix' =>
      let r := row start + dr * i * dir in
      let c := col start + dc * i * dir in
      current ← Access.getStone b r c;
      if bool_decide (current = stone) then
        analyze_dir b start dr dc stone dir ix' (count + 1) blocked 0
          (if gapCount >? 0
           then mkLinePattern (consecutive pattern) (openEnds pattern)
                              (gaps pattern + 1)
           else pattern)
      else if bool_decide (current = EMPTY) then
        if (count >? 0) && (gapCount =? 0) then
          analyze_dir b start dr dc stone dir ix' count blocked (gapCount + 1)
            pattern
        else
          Some (count,
                if negb blocked
                then mkLinePattern (consecutive pattern) (openEnds pattern + 1)
                                   (gaps pattern)
                else pattern)
      else Some (count, pattern)
  end.

Definition analyzeLine (b : Board) (start : Position) (dr dc : Z)
    (stone : Stone) : option LinePattern :=
  foldl (λ pattern dir,
    pattern ← pattern;
    '(count, pattern) ←
      analyze_dir b start dr dc stone dir (ints 1 WIN_LENGTH) 0 false 0 pattern;
    Some (mkLinePattern (consecutive pattern + count) (openEnds pattern)
                        (gaps pattern)))
    (Some (mkLinePattern 1 0 0)) [-1; 1].
End LineAccess.

Definition getPatternScore (pattern : LinePattern) : Z :=
  if consecutive pattern >=? 5 then PatternScore.FIVE
  else if (consecutive pattern =? 4) && (openEnds pattern =? 2)
  then PatternScore.OPEN_FOUR
  else if (consecutive pattern =? 4) && (openEnds pattern =? 1)
  then PatternScore.BLOCKED_FOUR
  else if (consecutive pattern =? 3) && (openEnds pattern =? 2)
  then PatternScore.OPEN_THREE
  else if (consecutive pattern =? 3) && (openEnds pattern =? 1)
  then PatternScore.BLOCKED_THREE
  else if (consecutive pattern =? 2) && (openEnds pattern =? 2)
  then PatternScore.OPEN_TWO
  else if (consecutive pattern =? 2) && (openEnds pattern =? 1)
  then PatternScore.BLOCKED_TWO
  else if (consecutive pattern =? 1) && (openEnds pattern >? 0)
  then PatternScore.ONE
  else 0.

(** The body of the double loop of [evaluatePosition] at cell [(r, c)]. *)
Definition evaluate_cell (b : Board) (stone : Stone) (score r c : Z) : Z :=
  let current := getStone b r c in
  if bool_decide (current = EMPTY) then score
  else
    let pos := mkPosition r c in
    let isMyStone := bool_decide (current = stone) in
    let multiplier := if isMyStone then 1 else -1 in
    let score :=
      foldl (λ score d,
        if (d.1 =? 0) || ((d.1 =? 1) && (d.2 >=? 0))
        then score
             + multiplier * getPatternScore (analyzeLine b pos d.1 d.2 current)
        else score)
        score DIRECTIONS in
    let centerDist :=
      Z.abs (r - BOARD_SIZE ÷ 2) + Z.abs (c - BOARD_SIZE ÷ 2) in
    score + multiplier * (BOARD_SIZE - centerDist).

Definition evaluatePosition (b : Board) (stone : Stone) : Z :=
  foldl (λ score r,
    foldl (λ score c, evaluate_cell b stone score r c)
          score (ints 0 BOARD_SIZE))
    0 (ints 0 BOARD_SIZE).

(** [isThreat] works on a copy of the board, which it places the stone on. *)
Definition isThreat (b : Board) (pos : Position) (stone : Stone) : bool :=
  let tempBoard := (placeStone b (row pos) (col pos) stone).2 in
  default false
    (for_first DIRECTIONS (λ d,
       let pattern := analyzeLine tempBoard pos d.1 d.2 stone in
       if (consecutive pattern >=? 4) ||
          ((consecutive pattern =? 3) && (openEnds pattern =? 2))
       then Some true else None)).

(** ** class GomokuAI *)

(** The generator [std::mt19937 rng], seeded from the clock: the sequence of
    values its successive calls return, and how many were drawn so far. *)
Record Rng : Type := mkRng { draws : nat → Z; drawn : nat }.

Definition rng_next (g : Rng) : Z * Rng :=
  (draws g (drawn g), {| draws := draws g; drawn := S (drawn g) |}).

Record GomokuAI : Set := mkGomokuAI {
  myStone : Stone;
  opponentStone : Stone;
  maxDepth : Z
}.

(** [GomokuAI::GomokuAI(stone, depth)] *)
Definition newGomokuAI (stone : Stone) (depth : Z) : GomokuAI :=
  {| myStone := stone;
     opponentStone := if bool_decide (stone = BLACK) then WHITE else BLACK;
     maxDepth := depth |}.

Record MoveScore : Set := mkMoveScore { move : Position; score : Z }.

Section Search.
(** [std::sort] with the comparator [a.score > b.score]: the library fixes
    the result only up to the order of moves of equal score. *)
Variable std_sort : list MoveScore → list MoveScore.

(** The scoring loop of [orderMoves]. *)
Fixpoint score_moves (b : Board) (moves : list Position) (stone : Stone)
    (scoredMoves : list MoveScore) : list MoveScore * Board :=
  match moves with
  | [] => (scoredMoves, b)
  | mv :: rest =>
      let b := (placeStone b (row mv) (col mv) stone).2 in
      let score :=
        if bool_decide (checkWin b ≠ ONGOING) then INFINITY_SCORE
        else
          let score := evaluatePosition b stone in
          let opponent := if bool_decide (stone = BLACK) then WHITE else BLACK in
          if isThreat b mv opponent then score + 5000 else score in
      let b := removeStone b (row mv) (col mv) in
      score_moves b rest stone (scoredMoves ++ [mkMoveScore mv score])
  end.

(** Returns the reordered [moves], cut to the ten best, and the board. *)
Definition orderMoves (b : Board) (moves : list Position) (stone : Stone)
  : list Position * Board :=
  let '(scoredMoves, b) := score_moves b moves stone [] in
  (take 10 (move <$> std_sort scoredMoves), b).

(** The maximizing loop of [minimax]; [rec] is the recursive call. *)
Fixpoint max_loop (rec : Board → Z → Z → bool → option (Z * Board))
    (ai : GomokuAI) (moves : list Position) (b : Board)
    (alpha beta maxEval : Z) : option (Z * Board) :=
  match moves with
  | [] => Some (maxEval, b)
  | mv :: rest =>
      let b := (placeStone b (row mv) (col mv) (myStone ai)).2 in
      '(eval, b) ← rec b alpha beta false;
      let b := removeStone b (row mv) (col mv) in
      let maxEval := Z.max maxEval eval in
      let alpha := Z.max alpha eval in
      if beta <=? alpha then Some (maxEval, b)
      else max_loop rec ai rest b alpha beta maxEval
  end.

(** The minimizing loop of [minimax]. *)
Fixpoint min_loop (rec : Board → Z → Z → bool → option (Z * Board))
    (ai : GomokuAI) (moves : list Position) (b : Board)
    (alpha beta minEval : Z) : option (Z * Board) :=
  match moves with
  | [] => Some (minEval, b)
  | mv :: rest =>
      let b := (placeStone b (row mv) (col mv) (opponentStone ai)).2 in
      '(eval, b) ← rec b alpha beta true;
      let b := removeStone b (row mv) (col mv) in
      let minEval := Z.min minEval eval in
      let beta := Z.min beta eval in
      if beta <=? alpha then Some (minEval, b)
      else min_loop rec ai rest b alpha beta minEval
  end.

(** [minimax]; [fuel] bounds the nesting of recursive calls, and [None] is
    a call that needs more. *)
Fixpoint minimax (fuel : nat) (ai : GomokuAI) (b : Board)
    (depth alpha beta : Z) (isMaximizing : bool) : option (Z * Board) :=
  match fuel with
  | O => None
  | S fuel' =>
      let status := checkWin b in
      if bool_decide (status ≠ ONGOING) then
        if bool_decide (status = DRAW) then Some (0, b)
        else
          let iWon :=
            (bool_decide (status = BLACK_WIN) && bool_decide (myStone ai = BLACK))
            || (bool_decide (status = WHITE_WIN) && bool_decide (myStone ai = WHITE)) in
          Some (if iWon then WIN_SCORE - depth else - WIN_SCORE + depth, b)
      else if depth >=? maxDepth ai then
        Some (evaluatePosition b (myStone ai), b)
      else
        let moves := getRelevantMoves b 2 in
        match moves with
        | [] => Some (0, b)
        | _ :: _ =>
            let '(moves, b) :=
              orderMoves b moves
                (if isMaximizing then myStone ai else opponentStone ai) in
            let rec := λ b alpha beta isMax,
              minimax fuel' ai b (depth + 1) alpha beta isMax in
            if isMaximizing
            then max_loop rec ai moves b alpha beta (- INFINITY_SCORE)
            else min_loop rec ai moves b alpha beta INFINITY_SCORE
        end
  end.

(** The first loop of [getBestMove]: the move it returns, if any, and the
    board. *)
Fixpoint win_or_block (ai : GomokuAI) (moves : list Position) (b : Board)
  : option Position * Board :=
  match moves with
  | [] => (None, b)
  | mv :: rest =>
      let b := (placeStone b (row mv) (col mv) (myStone ai)).2 in
      if bool_decide (checkWin b ≠ ONGOING)
      then (Some mv, removeStone b (row mv) (col mv))
      else
        let b := removeStone b (row mv) (col mv) in
        let b := (placeStone b (row mv) (col mv) (opponentStone ai)).2 in
        if bool_decide (checkWin b ≠ ONGOING)
        then (Some mv, removeStone b (row mv) (col mv))
        else win_or_block ai rest (removeStone b (row mv) (col mv))
  end.

(** The second loop of [getBestMove].  In [score += (rng() % 10) - 5] the
    right-hand side is computed in the generator's unsigned result type and
    the sum is converted back to [int]; for the scores that occur the effect
    is to add [v mod 10 - 5], a bonus between -5 and 4. *)
Fixpoint best_loop (fuel : nat) (ai : GomokuAI) (moves : list Position)
    (b : Board) (rng : Rng) (bestMove : Position) (bestScore : Z)
  : option (Position * Rng * Board) :=
  match moves with
  | [] => Some (bestMove, rng, b)
  | mv :: rest =>
      let b := (placeStone b (row mv) (col mv) (myStone ai)).2 in
      '(score, b) ← minimax fuel ai b 1 (- INFINITY_SCORE) INFINITY_SCORE false;
      let b := removeStone b (row mv) (col mv) in
      let '(v, rng) := rng_next rng in
      let score := score + (v `mod` 10 - 5) in
      if score >? bestScore
      then best_loop fuel ai rest b rng mv score
      else best_loop fuel ai rest b rng bestMove bestScore
  end.

(** Returns the chosen move, the generator and the board after the call. *)
Definition getBestMove (fuel : nat) (ai : GomokuAI) (rng : Rng) (b : Board)
  : option (Position * Rng * Board) :=
  let moves := getRelevantMoves b 2 in
  match moves with
  | [] => Some (mkPosition (BOARD_SIZE ÷ 2) (BOARD_SIZE ÷ 2), rng, b)
  | first :: _ =>
      match win_or_block ai moves b with
      | (Some mv, b) => Some (mv, rng, b)
      | (None, b) =>
          let bestMove := first in
          let bestScore := - INFINITY_SCORE in
          let '(moves, b) := orderMoves b moves (myStone ai) in
          best_loop fuel ai moves b rng bestMove bestScore
      end
  end.
End Search.

(** ** class Gomoku (the array-based variant): win check through a cell *)

Module Gomoku.
Definition WIN_COUNT : Z := 5.
Definition DIRECTIONS : list (Z * Z) := [(0, 1); (1, 0); (1, 1); (1, -1)].

(** The read [board[r][c]] of the [int] grid. *)
Definition cell (board : Grid Z) (r c : Z) : Z :=
  default 0 (array_at board r c).

(** One [while] loop of [countLine], entered at [(r, c)] and advancing by
    [(sr, sc)]; [None] when [fuel] iterations did not leave the loop. *)
Fixpoint count_while (fuel : nat) (board : Grid Z) (r c sr sc player : Z)
    (count : Z) : option Z :=
  match fuel with
  | O => None
  | S fuel' =>
      if (r >=? 0) && (r <? BOARD_SIZE) && (c >=? 0) && (c <? BOARD_SIZE)
         && (cell board r c =? player)
      then count_while fuel' board (r + sr) (c + sc) sr sc player (count + 1)
      else Some count
  end.

Definition countLine (fuel : nat) (board : Grid Z) (row col dRow dCol : Z)
    (player : Z) : option Z :=
  count ← count_while fuel board (row + dRow) (col + dCol) dRow dCol player 1;
  count_while fuel board (row - dRow) (col - dCol) (- dRow) (- dCol) player
    count.

(** The loop over the directions in [checkWinFast]. *)
Fixpoint any_line (fuel : nat) (board : Grid Z) (row col player : Z)
    (dirs : list (Z * Z)) : option bool :=
  match dirs with
  | [] => Some false
  | dir :: dirs' =>
      n ← countLine fuel board row col dir.1 dir.2 player;
      if n >=? WIN_COUNT then Some true
      else any_line fuel board row col player dirs'
  end.

Definition checkWinFast (fuel : nat) (board : Grid Z) (row col : Z)
  : option bool :=
  let player := cell board row col in
  any_line fuel board row col player DIRECTIONS.

Definition MAX_MOVES : Z := BOARD_SIZE * BOARD_SIZE.
Definition WIN_SCORE : Z := 1000000.
Definition MUST_BLOCK_SCORE : Z := 999999.

(** The members of the class that [makeMove] and [reset] read or write. *)
Record t : Type := mk {
  board : Grid Z;
  occupiedPositions : list (Z * Z);
  currentPlayer : Z;
  gameOver : bool;
  winner : Z;
  moveCount : Z;
  lastMove : Z * Z;
  cacheValid : bool
}.

(** The state the constructor and [reset] establish. *)
Definition reset : t :=
  {| board := array_fill 0; occupiedPositions := []; currentPlayer := 1;
     gameOver := false; winner := 0; moveCount := 0; lastMove := (-1, -1);
     cacheValid := false |}.

Definition isValidMove (cells : Grid Z) (row col : Z) : bool :=
  (row >=? 0) && (row <? BOARD_SIZE) && (col >=? 0) && (col <? BOARD_SIZE)
  && (cell cells row col =? 0).

Definition posToHash (row col : Z) : Z := row * BOARD_SIZE + col.

Definition hashToPos (hash : Z) : Z * Z :=
  (hash ÷ BOARD_SIZE, Z.rem hash BOARD_SIZE).

(** Returns the result of the call and the state after it; [None] when the
    win check ran out of [fuel]. *)
Definition makeMove (fuel : nat) (g : t) (row col : Z) : option (bool * t) :=
  if negb (isValidMove (board g) row col) || gameOver g then Some (false, g)
  else
    let cells := array_set (board g) row col (currentPlayer g) in
    let occupied := occupiedPositions g ++ [(row, col)] in
    let count := moveCount g + 1 in
    won ← checkWinFast fuel cells row col;
    if won : bool then
      Some (true, {| board := cells; occupiedPositions := occupied;
                     currentPlayer := currentPlayer g; gameOver := true;
                     winner := currentPlayer g; moveCount := count;
                     lastMove := (row, col); cacheValid := false |})
    else if count =? MAX_MOVES then
      Some (true, {| board := cells; occupiedPositions := occupied;
                     currentPlayer := currentPlayer g; gameOver := true;
                     winner := 0; moveCount := count;
                     lastMove := (row, col); cacheValid := false |})
    else
      Some (true, {| board := cells; occupiedPositions := occupied;
                     currentPlayer := 3 - currentPlayer g;
                     gameOver := gameOver g; winner := winner g;
                     moveCount := count;
                     lastMove := (row, col); cacheValid := false |}).

(** The counters of one line of [evaluatePositionFast]. *)
Record LineCount : Set := mkLineCount {
  playerCount : Z;
  opponentCount : Z;
  openEnds : Z
}.

(** The inner [while] loop of [evaluatePositionFast]; returns the position
    at which the loop is left, the counters and [consecutive]. *)
Fixpoint walk (fuel : nat) (cells : Grid Z) (player opponent : Z)
    (r c sr sc : Z) (cnt : LineCount) (consecutive : Z)
  : option (Z * Z * LineCount * Z) :=
  match fuel with
  | O => None
  | S fuel' =>
      if (r >=? 0) && (r <? BOARD_SIZE) && (c >=? 0) && (c <? BOARD_SIZE) then
        if cell cells r c =? player then
          walk fuel' cells player opponent (r + sr) (c + sc) sr sc
            (mkLineCount (playerCount cnt + 1) (opponentCount cnt) (openEnds cnt))
            (consecutive + 1)
        else if cell cells r c =? opponent then
          Some (r, c,
                mkLineCount (playerCount cnt) (opponentCount cnt + 1)
                            (openEnds cnt),
                consecutive)
        else
          Some (r, c,
                if consecutive >? 0
                then mkLineCount (playerCount cnt) (opponentCount cnt)
                                 (openEnds cnt + 1)
                else cnt,
                consecutive)
      else Some (r, c, cnt, consecutive)
  end.

(** One iteration of the loop over [sign]. *)
Definition walk_sign (fuel : nat) (cells : Grid Z) (player opponent : Z)
    (row col : Z) (dir : Z * Z) (cnt : LineCount) (sign : Z)
  : option LineCount :=
  '(r, c, cnt, consecutive) ←
     walk fuel cells player opponent (row + sign * dir.1) (col + sign * dir.2)
       (sign * dir.1) (sign * dir.2) cnt 0;
  Some (if negb ((r >=? 0) && (r <? BOARD_SIZE) && (c >=? 0) && (c <? BOARD_SIZE))
        then if consecutive =? 0
             then mkLineCount (playerCount cnt) (opponentCount cnt)
                              (openEnds cnt + 1)
             else cnt
        else cnt).

(** The loop over the directions, with the function's early [return]. *)
Fixpoint eval_lines (fuel : nat) (cells : Grid Z) (row col player : Z)
    (dirs : list (Z * Z)) (score : Z) : option Z :=
  match dirs with
  | [] =>
      let centerDist :=
        Z.abs (row - BOARD_SIZE ÷ 2) + Z.abs (col - BOARD_SIZE ÷ 2) in
      Some (score + (BOARD_SIZE - centerDist) * 5)
  | dir :: dirs' =>
      let opponent := 3 - player in
      cnt ← walk_sign fuel cells player opponent row col dir
              (mkLineCount 0 0 0) (-1);
      cnt ← walk_sign fuel cells player opponent row col dir cnt 1;
      let lineLength := playerCount cnt + 1 in
      if lineLength >=? WIN_COUNT then Some WIN_SCORE
      else
        let score :=
          if opponentCount cnt =? 0 then
            if lineLength =? 4
            then score + (if openEnds cnt =? 2 then 50000 else 10000)
            else if lineLength =? 3
            then score + (if openEnds cnt =? 2 then 5000 else 1000)
            else if lineLength =? 2
            then score + (if openEnds cnt =? 2 then 500 else 100)
            else score
          else score in
        eval_lines fuel cells row col player dirs' score
  end.

Definition evaluatePositionFast (fuel : nat) (cells : Grid Z)
    (row col player : Z) : option Z :=
  if negb (isValidMove cells row col) then Some (-1)
  else eval_lines fuel cells row col player DIRECTIONS 0.
End Gomoku.

(** ** class GomokuGame and AIPlayer::generateMoves (the vector variant) *)

Module GomokuGame.
Inductive Cell : Set := EMPTY | BLACK | WHITE.

#[global] Instance Cell_eq_dec : EqDecision Cell.
Proof. solve_decision. Defined.

Record Move : Set := mkMove { row : Z; col : Z }.

#[global] Instance Move_eq_dec : EqDecision Move.
Proof. solve_decision. Defined.

Record t : Type := mk { board : Grid Cell; move_count : Z }.

Definition cell (board : Grid Cell) (r c : Z) : Cell :=
  default EMPTY (array_at board r c).

Definition isValidMove (g : t) (r c : Z) : bool :=
  (r >=? 0) && (r <? BOARD_SIZE) && (c >=? 0) && (c <? BOARD_SIZE)
  && bool_decide (cell (board g) r c = EMPTY).

Definition makeMove (g : t) (m : Move) (player : Cell) : t :=
  if isValidMove g (row m) (col m)
  then {| board := array_set (board g) (row m) (col m) player;
          move_count := move_count g + 1 |}
  else g.

Definition undoMove (g : t) (m : Move) : t :=
  if negb (row m =? -1) && negb (col m =? -1)
  then {| board := array_set (board g) (row m) (col m) EMPTY;
          move_count := move_count g - 1 |}
  else g.

(** One counting loop of [checkWin]; [sgn] is [1] for the first loop and
    [-1] for the loop in the opposite direction. *)
Fixpoint count_dir (board : Grid Cell) (r c dr dc sgn : Z) (player : Cell)
    (js : list Z) (count : Z) : Z :=
  match js with
  | [] => count
  | j :: js' =>
      let nr := r + sgn * j * dr in
      let nc := c + sgn * j * dc in
      if (nr >=? 0) && (nr <? BOARD_SIZE) && (nc >=? 0) && (nc <? BOARD_SIZE)
         && bool_decide (cell board nr nc = player)
      then count_dir board r c dr dc sgn player js' (count + 1)
      else count
  end.

Definition checkWin (g : t) (last_move : Move) (player : Cell) : bool :=
  if row last_move =? -1 then false
  else
    let r := row last_move in
    let c := col last_move in
    default false
      (for_first [(0, 1); (1, 0); (1, 1); (1, -1)] (λ d,
         let count :=
           count_dir (board g) r c d.1 d.2 1 player (ints 1 WIN_LENGTH) 1 in
         let count :=
           count_dir (board g) r c d.1 d.2 (-1) player (ints 1 WIN_LENGTH)
             count in
         if count >=? WIN_LENGTH then Some true else None)).

(** The body of the innermost loop of [generateMoves]. *)
Definition visit (board : Grid Cell) (st : list Move * Grid bool)
    (nr nc : Z) : list Move * Grid bool :=
  if (nr >=? 0) && (nr <? BOARD_SIZE) && (nc >=? 0) && (nc <? BOARD_SIZE)
     && bool_decide (cell board nr nc = EMPTY)
     && negb (default false (array_at st.2 nr nc))
  then (st.1 ++ [mkMove nr nc], array_set st.2 nr nc true)
  else st.

Definition generateMoves (board : Grid Cell) : list Move :=
  (foldl (λ st r,
     foldl (λ st c,
       if bool_decide (cell board r c = EMPTY) then st
       else
         foldl (λ st dr,
           foldl (λ st dc, visit board st (r + dr) (c + dc))
                 st (ints (-1) 2))
           st (ints (-1) 2))
       st (ints 0 BOARD_SIZE))
     ([], array_fill false) (ints 0 BOARD_SIZE)).1.

Definition isBoardFull (g : t) : bool :=
  move_count g =? BOARD_SIZE * BOARD_SIZE.
End GomokuGame.

(** ** class AIPlayer (the vector variant): evaluation and search *)

Module AIPlayer.
Definition INT_MIN : Z := -2147483648.
Definition INT_MAX : Z := 2147483647.

Definition SCORE_FIVE : Z := 100000000.
Definition SCORE_OPEN_FOUR : Z := 1000000.
Definition SCORE_HALF_OPEN_FOUR : Z := 10000.
Definition SCORE_OPEN_THREE : Z := 5000.
Definition SCORE_HALF_OPEN_THREE : Z := 100.
Definition SCORE_OPEN_TWO : Z := 50.
Definition SCORE_HALF_OPEN_TWO : Z := 10.
Definition SCORE_ONE : Z := 1.

Definition getOpponent (player : GomokuGame.Cell) : GomokuGame.Cell :=
  if bool_decide (player = GomokuGame.BLACK)
  then GomokuGame.WHITE else GomokuGame.BLACK.

Record t : Set := mk {
  ai_player : GomokuGame.Cell;
  opponent_player : GomokuGame.Cell;
  search_depth : Z
}.

Definition new (player_color : GomokuGame.Cell) (depth : Z) : t :=
  {| ai_player := player_color;
     opponent_player := getOpponent player_color;
     search_depth := depth |}.

(** The counting loop of [scoreWindow]; [None] is one of its two
    [return 0] exits. *)
Fixpoint window_loop (board : Grid GomokuGame.Cell) (r_start c_start dr dc : Z)
    (player : GomokuGame.Cell) (ks : list Z) (player_count empty_count : Z)
  : option (Z * Z) :=
  match ks with
  | [] => Some (player_count, empty_count)
  | k :: ks' =>
      let r := r_start + k * dr in
      let c := c_start + k * dc in
      if (r <? 0) || (r >=? BOARD_SIZE) || (c <? 0) || (c >=? BOARD_SIZE)
      then None
      else if bool_decide (GomokuGame.cell board r c = player)
      then window_loop board r_start c_start dr dc player ks'
             (player_count + 1) empty_count
      else if bool_decide (GomokuGame.cell board r c = GomokuGame.EMPTY)
      then window_loop board r_start c_start dr dc player ks'
             player_count (empty_count + 1)
      else None
  end.

Definition scoreWindow (board : Grid GomokuGame.Cell) (r_start c_start dr dc : Z)
    (player : GomokuGame.Cell) : Z :=
  match window_loop board r_start c_start dr dc player (ints 0 WIN_LENGTH) 0 0
  with
  | None => 0
  | Some (player_count, empty_count) =>
      if player_count =? 5 then SCORE_FIVE
      else if (player_count =? 4) && (empty_count =? 1)
      then SCORE_HALF_OPEN_FOUR
      else if (player_count =? 3) && (empty_count =? 2)
      then SCORE_HALF_OPEN_THREE
      else if (player_count =? 2) && (empty_count =? 3)
      then SCORE_HALF_OPEN_TWO
      else if (player_count =? 1) && (empty_count =? 4)
      then SCORE_ONE
      else 0
  end.

(** The loop of [evaluateLine]: the two running sums. *)
Definition line_sums (self : t) (board : Grid GomokuGame.Cell)
    (r_start c_start dr dc : Z) : Z * Z :=
  foldl (λ sums i,
    let r := r_start + i * dr in
    let c := c_start + i * dc in
    if (r <? 0) || (r >=? BOARD_SIZE) || (c <? 0) || (c >=? BOARD_SIZE)
    then sums
    else (sums.1 + scoreWindow board r c dr dc (ai_player self),
          sums.2 + scoreWindow board r c dr dc (opponent_player self)))
    (0, 0) (ints 0 (BOARD_SIZE - WIN_LENGTH + 1)).

Definition evaluateLine (self : t) (board : Grid GomokuGame.Cell)
    (r_start c_start dr dc : Z) : Z :=
  let sums := line_sums self board r_start c_start dr dc in
  sums.1 - sums.2.

(** The sums are taken in [Z]: they are the program's [int] sums as long as
    those stay in range, which the bound proved below gives for every board
    without a window of five; beyond that the [int] sum overflows. *)
Definition evaluateBoard (self : t) (board : Grid GomokuGame.Cell) : Z :=
  let score :=
    foldl (λ score i,
      let score := score + evaluateLine self board i 0 0 1 in
      score + evaluateLine self board 0 i 1 0)
      0 (ints 0 BOARD_SIZE) in
  foldl (λ score i,
    let score := score + evaluateLine self board i 0 1 1 in
    let score :=
      if i >? 0 then score + evaluateLine self board 0 i 1 1 else score in
    let score := score + evaluateLine self board i 0 1 (-1) in
    if i >? 0 then score + evaluateLine self board 0 i 1 (-1) else score)
    score (ints 0 BOARD_SIZE).

(** The maximizing loop of [minimax]; [rec] is the recursive call. *)
Fixpoint max_loop
    (rec : GomokuGame.t → Z → Z → GomokuGame.Move → option (Z * GomokuGame.t))
    (self : t) (moves : list GomokuGame.Move) (game : GomokuGame.t)
    (alpha beta max_eval : Z) : option (Z * GomokuGame.t) :=
  match moves with
  | [] => Some (max_eval, game)
  | move :: rest =>
      let game := GomokuGame.makeMove game move (ai_player self) in
      '(eval, game) ← rec game alpha beta move;
      let game := GomokuGame.undoMove game move in
      let max_eval := Z.max max_eval eval in
      let alpha := Z.max alpha eval in
      if beta <=? alpha then Some (max_eval, game)
      else max_loop rec self rest game alpha beta max_eval
  end.

(** The minimizing loop of [minimax]. *)
Fixpoint min_loop
    (rec : GomokuGame.t → Z → Z → GomokuGame.Move → option (Z * GomokuGame.t))
    (self : t) (moves : list GomokuGame.Move) (game : GomokuGame.t)
    (alpha beta min_eval : Z) : option (Z * GomokuGame.t) :=
  match moves with
  | [] => Some (min_eval, game)
  | move :: rest =>
      let game := GomokuGame.makeMove game move (opponent_player self) in
      '(eval, game) ← rec game alpha beta move;
      let game := GomokuGame.undoMove game move in
      let min_eval := Z.min min_eval eval in
      let beta := Z.min beta eval in
      if beta <=? alpha then Some (min_eval, game)
      else min_loop rec self rest game alpha beta min_eval
  end.

(** [minimax]; [fuel] bounds the nesting of recursive calls, and [None] is
    a call that needs more.  The result carries the game after the call. *)
Fixpoint minimax (fuel : nat) (self : t) (game : GomokuGame.t) (depth : Z)
    (is_maximizing : bool) (alpha beta : Z) (last_move : GomokuGame.Move)
  : option (Z * GomokuGame.t) :=
  match fuel with
  | O => None
  | S fuel' =>
      if GomokuGame.checkWin game last_move
           (if is_maximizing then opponent_player self else ai_player self)
      then Some (if is_maximizing then INT_MIN + 1 else INT_MAX - 1, game)
      else if GomokuGame.isBoardFull game then Some (0, game)
      else if depth =? 0
      then Some (evaluateBoard self (GomokuGame.board game), game)
      else
        let candidate_moves := GomokuGame.generateMoves (GomokuGame.board game) in
        if is_maximizing
        then max_loop (λ game alpha beta move,
                         minimax fuel' self game (depth - 1) false alpha beta move)
               self candidate_moves game alpha beta INT_MIN
        else min_loop (λ game alpha beta move,
                         minimax fuel' self game (depth - 1) true alpha beta move)
               self candidate_moves game alpha beta INT_MAX
  end.

(** The loop of [findBestMove]. *)
Fixpoint best_loop (fuel : nat) (self : t) (moves : list GomokuGame.Move)
    (game : GomokuGame.t) (best_move : GomokuGame.Move) (best_score : Z)
  : option (GomokuGame.Move * GomokuGame.t) :=
  match moves with
  | [] => Some (best_move, game)
  | move :: rest =>
      let game := GomokuGame.makeMove game move (ai_player self) in
      '(score, game) ←
        minimax fuel self game (search_depth self - 1) false INT_MIN INT_MAX move;
      let game := GomokuGame.undoMove game move in
      if score >? best_score
      then best_loop fuel self rest game move score
      else best_loop fuel self rest game best_move best_score
  end.

(** Returns the chosen move and the game after the call. *)
Definition findBestMove (fuel : nat) (self : t) (game : GomokuGame.t)
  : option (GomokuGame.Move * GomokuGame.t) :=
  let best_move := GomokuGame.mkMove (-1) (-1) in
  let best_score := INT_MIN in
  let candidate_moves := GomokuGame.generateMoves (GomokuGame.board game) in
  if GomokuGame.move_count game =? 0
  then Some (GomokuGame.mkMove (BOARD_SIZE ÷ 2) (BOARD_SIZE ÷ 2), game)
  else best_loop fuel self candidate_moves game best_move best_score.
End AIPlayer.

(** ** class Gomoku of part_000 (the program with difficulty levels) *)

(** The board is a vector of vectors of [int]; the reads go through
    [Gomoku.cell], and [countConsecutive] runs the same [while] loop as
    [countLine], modelled by [Gomoku.count_while]. *)
Module VectorGomoku.
Definition isValidMove (board : Grid Z) (row col : Z) : bool :=
  (row >=? 0) && (row <? BOARD_SIZE) && (col >=? 0) && (col <? BOARD_SIZE)
  && (Gomoku.cell board row col =? 0).

Definition countConsecutive (fuel : nat) (board : Grid Z)
    (row col dRow dCol player : Z) : option Z :=
  Gomoku.count_while fuel board (row + dRow) (col + dCol) dRow dCol player 0.

Definition checkDirection (fuel : nat) (board : Grid Z) (row col dRow dCol : Z)
  : option bool :=
  let player := Gomoku.cell board row col in
  if player =? 0 then Some false
  else
    let count := 1 in
    n ← countConsecutive fuel board row col dRow dCol player;
    let count := count + n in
    n ← countConsecutive fuel board row col (- dRow) (- dCol) player;
    let count := count + n in
    Some (count >=? WIN_LENGTH).

Definition checkWin (fuel : nat) (board : Grid Z) (row col : Z) : option bool :=
  w ← checkDirection fuel board row col 0 1;
  if (w : bool) then Some true
  else
    w ← checkDirection fuel board row col 1 0;
    if (w : bool) then Some true
    else
      w ← checkDirection fuel board row col 1 1;
      if (w : bool) then Some true
      else checkDirection fuel board row col 1 (-1).

(** One counting loop of [evaluatePosition]: the count and the cell at which
    the loop stopped. *)
Fixpoint count_to_end (fuel : nat) (board : Grid Z) (r c sr sc player : Z)
    (count : Z) : option (Z * Z * Z) :=
  match fuel with
  | O => None
  | S fuel' =>
      if (r >=? 0) && (r <? BOARD_SIZE) && (c >=? 0) && (c <? BOARD_SIZE)
         && (Gomoku.cell board r c =? player)
      then count_to_end fuel' board (r + sr) (c + sc) sr sc player (count + 1)
      else Some (count, r, c)
  end.

(** The loop over the directions in [evaluatePosition]. *)
Fixpoint eval_dirs (fuel : nat) (board : Grid Z) (row col player : Z)
    (dirs : list (Z * Z)) (score : Z) : option Z :=
  match dirs with
  | [] => Some score
  | dir :: dirs' =>
      let count := 1 in
      let openEnds := 0 in
      '(count, r, c) ←
        count_to_end fuel board (row + dir.1) (col + dir.2) dir.1 dir.2 player
          count;
      let openEnds :=
        if (r >=? 0) && (r <? BOARD_SIZE) && (c >=? 0) && (c <? BOARD_SIZE)
           && (Gomoku.cell board r c =? 0)
        then openEnds + 1 else openEnds in
      '(count, r, c) ←
        count_to_end fuel board (row - dir.1) (col - dir.2) (- dir.1) (- dir.2)
          player count;
      let openEnds :=
        if (r >=? 0) && (r <? BOARD_SIZE) && (c >=? 0) && (c <? BOARD_SIZE)
           && (Gomoku.cell board r c =? 0)
        then openEnds + 1 else openEnds in
      let score :=
        if count >=? 5 then score + 100000
        else if count =? 4 then
          if openEnds =? 2 then score + 10000
          else if openEnds =? 1 then score + 5000 else score
        else if count =? 3 then
          if openEnds =? 2 then score + 1000
          else if openEnds =? 1 then score + 500 else score
        else if count =? 2 then
          if openEnds =? 2 then score + 100
          else if openEnds =? 1 then score + 50 else score
        else score in
      eval_dirs fuel board row col player dirs' score
  end.

(** Returns the score and the board after the call: the function writes the
    piece to the cell and writes 0 back before it returns. *)
Definition evaluatePosition (fuel : nat) (board : Grid Z) (row col player : Z)
  : option (Z * Grid Z) :=
  let board := array_set board row col player in
  score ← eval_dirs fuel board row col player
            [(0, 1); (1, 0); (1, 1); (1, -1)] 0;
  let centerDistance :=
    Z.abs (row - BOARD_SIZE ÷ 2) + Z.abs (col - BOARD_SIZE ÷ 2) in
  let score := score + (BOARD_SIZE - centerDistance) in
  let board := array_set board row col 0 in
  Some (score, board).
End VectorGomoku.

(** ** Reachable boards and the board invariant *)

(** The number of non-empty cells of the grid. *)
Definition count_row (rw : list Stone) : nat :=
  length (filter (λ s, s ≠ EMPTY) rw).

Definition count_stones (g : Grid Stone) : nat :=
  sum_list_with count_row g.

(** Boards reachable from the empty board by successful [placeStone] calls
    for a side and by [removeStone] calls that name the most recently placed
    cell not yet removed. *)
Inductive reachable : Board → Prop :=
  | reachable_new : reachable newBoard
  | reachable_place b r c stone b' :
      reachable b → stone ≠ EMPTY →
      placeStone b r c stone = (true, b') → reachable b'
  | reachable_undo b r c :
      reachable b → last (moveHistory b) = Some (mkPosition r c) →
      reachable (removeStone b r c).

(** Playing a list of moves in order; [None] as soon as one of them is not a
    valid move (out of range, or its cell is not EMPTY) when its turn comes. *)
Fixpoint replay (b : Board) (ms : list (Position * Stone)) : option Board :=
  match ms with
  | [] => Some b
  | (p, stone) :: rest =>
      if isValidMove b (row p) (col p)
      then replay (placeStone b (row p) (col p) stone).2 rest
      else None
  end.

(** The invariant of the data model: counter, history length and number of
    stones agree. *)
Definition board_inv (b : Board) : Prop :=
  grid_ok (board b) ∧
  moveCount b = Z.of_nat (count_stones (board b)) ∧
  moveCount b = Z.of_nat (length (moveHistory b)).

(** ** What the candidate generator is to return *)

(** [(r, c)] lies within Chebyshev distance [range] of an occupied cell. *)
Definition near_stone (occupied : Z → Z → Prop) (range r c : Z) : Prop :=
  ∃ r0 c0, in_range r0 c0 = true ∧ occupied r0 c0 ∧
           Z.abs (r - r0) <= range ∧ Z.abs (c - c0) <= range.

Definition candidate (b : Board) (range : Z) (p : Position) : Prop :=
  in_range (row p) (col p) = true ∧
  cell b (row p) (col p) = EMPTY ∧
  near_stone (λ r c, cell b r c ≠ EMPTY) range (row p) (col p).

Definition candidate_move (board : Grid GomokuGame.Cell) (m : GomokuGame.Move)
  : Prop :=
  in_range (GomokuGame.row m) (GomokuGame.col m) = true ∧
  GomokuGame.cell board (GomokuGame.row m) (GomokuGame.col m)
    = GomokuGame.EMPTY ∧
  near_stone (λ r c, GomokuGame.cell board r c ≠ GomokuGame.EMPTY) 1
    (GomokuGame.row m) (GomokuGame.col m).

(** ** Runs of stones through a cell *)

(** [own r c] says that [(r, c)] is a cell of the board holding a stone of
    the side in question.  Walking from [(r, c)] in steps of [(sr, sc)], the
    first [n] cells are the side's and the next one is not. *)
Definition extent (own : Z → Z → Prop) (r c sr sc n : Z) : Prop :=
  0 <= n ∧
  (∀ k, 1 <= k <= n → own (r + k * sr) (c + k * sc)) ∧
  ¬ own (r + (n + 1) * sr) (c + (n + 1) * sc).

(** The contiguous run of the side's cells that extends both ways through
    [(r, c)] along the axis [(dr, dc)] has length [n]. *)
Definition run_through (own : Z → Z → Prop) (r c dr dc n : Z) : Prop :=
  own r c ∧
  ∃ a b, extent own r c (- dr) (- dc) a ∧ extent own r c dr dc b ∧
         n = a + 1 + b.

(** The four axes of the board: rows, columns and the two diagonals. *)
Definition AXES : list (Z * Z) := [(0, 1); (1, 0); (1, 1); (1, -1)].

(** Along one of the four axes the run through [(r, c)] has length five or
    more. *)
Definition five_through (own : Z → Z → Prop) (r c : Z) : Prop :=
  ∃ d n, d ∈ AXES ∧ run_through own r c d.1 d.2 n ∧ 5 <= n.

(** A step along an axis, in either sense. *)
Definition axis_step (sr sc : Z) : Prop :=
  sr = 1 ∨ sr = -1 ∨ (sr = 0 ∧ (sc = 1 ∨ sc = -1)).

(** The cells the two variants count as the player's. *)
Definition Gomoku_own (board : Grid Z) (player r c : Z) : Prop :=
  in_range r c = true ∧ Gomoku.cell board r c = player.

Definition GomokuGame_own (board : Grid GomokuGame.Cell)
    (player : GomokuGame.Cell) (r c : Z) : Prop :=
  in_range r c = true ∧ GomokuGame.cell board r c = player.

(** ** The scan of the candidate generators, as one loop *)

(** The loop body common to [getRelevantMoves] and [generateMoves], for any
    kind of move [mk r c] and validity test. *)
Definition scan_step {P} (mk : Z → Z → P) (valid : Z → Z → bool)
    (st : list P * Grid bool) (t : Z * Z) : list P * Grid bool :=
  if valid t.1 t.2 && negb (default false (array_at st.2 t.1 t.2))
  then (st.1 ++ [mk t.1 t.2], array_set st.2 t.1 t.2 true)
  else st.

(** The [considered] flags mirror the list of moves collected so far. *)
Definition scan_inv {P} (mk : Z → Z → P) (st : list P * Grid bool) : Prop :=
  grid_ok st.2 ∧ NoDup st.1 ∧
  ∀ r c, in_range r c = true →
         (default false (array_at st.2 r c) = true ↔ mk r c ∈ st.1).

(** The cells visited by the four nested loops, in loop order. *)
Definition scan_targets (occupied : Z → Z → bool) (range : Z) : list (Z * Z) :=
  r ← ints 0 BOARD_SIZE; c ← ints 0 BOARD_SIZE;
  if occupied r c
  then dr ← ints (- range) (range + 1); dc ← ints (- range) (range + 1);
       [(r + dr, c + dc)]
  else [].

(** How far a walk from [(r, c)] in steps of [(sr, sc)] can stay on the
    board. *)
Definition room (sr sc r c : Z) : Z :=
  if sr =? 1 then BOARD_SIZE - r
  else if sr =? -1 then r + 1
  else if sc =? 1 then BOARD_SIZE - c
  else c + 1.

(** ** Lines of five on the whole board *)

(** The five cells starting at [(r, c)] and advancing by [d] all hold
    [stone], a side's stone. *)
Definition line_of_five (b : Board) (stone : Stone) (r c : Z) (d : Z * Z)
  : Prop :=
  in_range r c = true ∧ stone ≠ EMPTY ∧
  ∀ i, 0 <= i < WIN_LENGTH → getStone b (r + d.1 * i) (c + d.2 * i) = stone.

(** Somewhere on the board [stone] has such a line along one of the
    directions [dirs]. *)
Definition has_five (dirs : list (Z * Z)) (b : Board) (stone : Stone) : Prop :=
  ∃ r c d, d ∈ dirs ∧ line_of_five b stone r c d.

(** The coordinates of the board in row-major order. *)
Definition all_cells : list (Z * Z) :=
  r ← ints 0 BOARD_SIZE; c ← ints 0 BOARD_SIZE; [(r, c)].

(** ** The state of a game of the array-based variant *)

(** What the members of [Gomoku] satisfy throughout a game: the list of
    occupied positions mirrors the non-zero cells of the board. *)
Definition Gomoku_inv (g : Gomoku.t) : Prop :=
  grid_ok (Gomoku.board g) ∧
  (Gomoku.currentPlayer g = 1 ∨ Gomoku.currentPlayer g = 2) ∧
  Gomoku.moveCount g = Z.of_nat (length (Gomoku.occupiedPositions g)) ∧
  NoDup (Gomoku.occupiedPositions g) ∧
  (∀ r c, in_range r c = true →
          Gomoku.cell (Gomoku.board g) r c ≠ 0 ↔
          (r, c) ∈ Gomoku.occupiedPositions g) ∧
  (∀ r c, Gomoku.cell (Gomoku.board g) r c = 0 ∨
          Gomoku.cell (Gomoku.board g) r c = 1 ∨
          Gomoku.cell (Gomoku.board g) r c = 2) ∧
  (Gomoku.gameOver g = false → Gomoku.winner g = 0) ∧
  (Gomoku.winner g = 0 ∨ Gomoku.winner g = 1 ∨ Gomoku.winner g = 2).

(** ** Windows of five cells *)

(** The five cells of the window that starts at [(r, c)] and runs along
    [(dr, dc)] are on the board and hold [player]. *)
Definition window_full (board : Grid GomokuGame.Cell)
    (player : GomokuGame.Cell) (r c dr dc : Z) : Prop :=
  ∀ k, 0 <= k < WIN_LENGTH →
       GomokuGame_own board player (r + k * dr) (c + k * dc).

(** One of the five cells is off the board, or holds a stone that is not
    [player]'s. *)
Definition window_blocked (board : Grid GomokuGame.Cell)
    (player : GomokuGame.Cell) (r c dr dc : Z) : Prop :=
  ∃ k, 0 <= k < WIN_LENGTH ∧
       (in_range (r + k * dr) (c + k * dc) = false ∨
        (GomokuGame.cell board (r + k * dr) (c + k * dc) ≠ player ∧
         GomokuGame.cell board (r + k * dr) (c + k * dc) ≠ GomokuGame.EMPTY)).

(** No window along one of the four axes holds five stones of one side. *)
Definition no_five (board : Grid GomokuGame.Cell) : Prop :=
  ∀ player r c d,
    player ≠ GomokuGame.EMPTY → d ∈ AXES →
    ¬ window_full board player r c d.1 d.2.

(** The same, as a test over the windows that start on the board. *)
Definition no_five_b (board : Grid GomokuGame.Cell) : bool :=
  forallb (λ player,
    forallb (λ r,
      forallb (λ c,
        forallb (λ d : Z * Z,
          negb (forallb (λ k,
                  in_range (r + k * d.1) (c + k * d.2)
                  && bool_decide
                       (GomokuGame.cell board (r + k * d.1) (c + k * d.2)
                        = player))
                  (ints 0 WIN_LENGTH)))
          AXES)
        (ints 0 BOARD_SIZE))
      (ints 0 BOARD_SIZE))
    [GomokuGame.BLACK; GomokuGame.WHITE].

(** ** Predicates used for the search *)

Definition valid_move (b : Board) (mv : Position) : Prop :=
  isValidMove b (row mv) (col mv) = true.

(** What the search needs of the board it is given: the counter is not
    negative, and when it is zero the centre cell is free. *)
Definition search_ok (b : Board) : Prop :=
  0 <= moveCount b ∧
  (moveCount b = 0 → isValidMove b (BOARD_SIZE ÷ 2) (BOARD_SIZE ÷ 2) = true).

(** ** Decision procedures *)

#[global] Instance Board_eq_dec : EqDecision Board.
Proof. solve_decision. Defined.

#[global] Instance GomokuGame_eq_dec : EqDecision GomokuGame.t.
Proof. solve_decision. Defined.

#[global] Instance Gomoku_own_dec board player r c :
  Decision (Gomoku_own board player r c).
Proof. unfold Gomoku_own. apply _. Defined.

#[global] Instance GomokuGame_own_dec board player r c :
  Decision (GomokuGame_own board player r c).
Proof. unfold GomokuGame_own. apply _. Defined.

(** ** Test fixtures *)

(** Whether each move of [play] is a valid move when its turn comes. *)
Fixpoint play_ok (b : Board) (stone : Stone) (moves : list (Z * Z)) : bool :=
  match moves with
  | [] => true
  | (r, c) :: rest =>
      isValidMove b r c &&
      play_ok (placeStone b r c stone).2
              (if bool_decide (stone = BLACK) then WHITE else BLACK) rest
  end.

(** A generator whose first draws are the values of [l], then zeros. *)
Definition rng_of (l : list Z) : Rng := mkRng (λ i, nth i l 0) 0.

(** What [std::sort] with the comparator [a.score > b.score] guarantees: the
    result is a rearrangement of the input in which no move precedes a move
    of higher score. *)
Definition sort_contract (std_sort : list MoveScore → list MoveScore) : Prop :=
  ∀ l, std_sort l ≡ₚ l ∧ StronglySorted (λ x y, score y <= score x) (std_sort l).

(** The move and board a call of [getBestMove] results in. *)
Definition outcome (res : option (Position * Rng * Board))
  : option (Position * Board) :=
  match res with
  | Some (mv, _, b) => Some (mv, b)
  | None => None
  end.

(** Whether placing [stone] on [mv] ends the game: [checkWin] is no longer
    ONGOING, so finds five in a line along one of the directions it scans,
    or a full board. *)
Definition ends_game (b : Board) (mv : Position) (stone : Stone) : bool :=
  bool_decide (checkWin (placeStone b (row mv) (col mv) stone).2 ≠ ONGOING).

(** A row of five stones of player 1 on row 7, columns 3 to 7. *)
Definition five_in_row : Grid Z :=
  foldl (λ g c, array_set g 7 c 1) (array_fill 0) [3; 4; 5; 6; 7].

(** Player 1 on columns 3, 4, 6, 7 of row 7, the cell between them empty. *)
Definition four_with_gap : Grid Z :=
  foldl (λ g c, array_set g 7 c 1) (array_fill 0) [3; 4; 6; 7].

(** Black on (2,2), (3,3), (4,4), (5,5), (6,6) of a [GomokuGame] board. *)
Definition diagonal_five : GomokuGame.t :=
  foldl (λ g k, GomokuGame.makeMove g (GomokuGame.mkMove k k) GomokuGame.BLACK)
        (GomokuGame.mk (array_fill GomokuGame.EMPTY) 0) [2; 3; 4; 5; 6].

(** Four black stones on the main diagonal and a white stone at its end, 5
    moves made. *)
Definition diagonal_four : GomokuGame.t :=
  GomokuGame.makeMove
    (foldl (λ g k, GomokuGame.makeMove g (GomokuGame.mkMove k k) GomokuGame.BLACK)
           (GomokuGame.mk (array_fill GomokuGame.EMPTY) 0) [2; 3; 4; 5])
    (GomokuGame.mkMove 6 6) GomokuGame.WHITE.

(** The board after the given moves, Black first, sides alternating. *)
Fixpoint play (b : Board) (stone : Stone) (moves : list (Z * Z)) : Board :=
  match moves with
  | [] => b
  | (r, c) :: rest =>
      play (placeStone b r c stone).2
           (if bool_decide (stone = BLACK) then WHITE else BLACK) rest
  end.

(** A stable insertion sort by descending score, one admissible [std::sort]. *)
Fixpoint insert_desc (x : MoveScore) (l : list MoveScore) : list MoveScore :=
  match l with
  | [] => [x]
  | y :: l' => if score x >=? score y then x :: l else y :: insert_desc x l'
  end.

Definition insertion_sort (l : list MoveScore) : list MoveScore :=
  foldr insert_desc [] l.

(* ================================================================== *)
(** * Properties *)

(** ** Array lemmas *)

Section Arrays.
Context {A : Type}.
Implicit Types (g : Grid A) (r c : Z) (x : A).

Lemma array_at_Some_bounds g r c x :
  array_at g r c = Some x →
  0 <= r ∧ 0 <= c ∧ (Z.to_nat r < length g)%nat.
Proof.
  unfold array_at. destruct (0 <=? r) eqn:Hr, (0 <=? c) eqn:Hc; simpl; try done.
  intros H. destruct (g !! Z.to_nat r) as [rw|] eqn:Hg; [|done].
  apply lookup_lt_Some in Hg. lia.
Qed.

Lemma array_at_ok g r c :
  grid_ok g → in_range r c = true → is_Some (array_at g r c).
Proof.
  intros [Hlen Hrows] Hin. unfold in_range, BOARD_SIZE in *.
  unfold array_at.
  destruct (0 <=? r) eqn:Hr, (0 <=? c) eqn:Hc; simpl in *; try done;
    try (rewrite ?andb_false_r in Hin; done).
  destruct (lookup_lt_is_Some_2 g (Z.to_nat r)) as [rw Hrw]; [lia|].
  rewrite Hrw. simpl. apply lookup_lt_is_Some_2.
  rewrite (Forall_lookup_1 _ _ _ _ Hrows Hrw). lia.
Qed.

Lemma array_set_ok g r c x : grid_ok g → grid_ok (array_set g r c x).
Proof.
  intros [Hlen Hrows]. unfold array_set.
  destruct ((0 <=? r) && (0 <=? c)); [|done]. split.
  - by rewrite length_alter.
  - apply Forall_alter; [done|]. intros rw _ Hl. by rewrite length_insert.
Qed.

Lemma array_at_set_eq g r c x :
  is_Some (array_at g r c) → array_at (array_set g r c x) r c = Some x.
Proof.
  unfold array_at, array_set.
  destruct ((0 <=? r) && (0 <=? c)); [|by intros [? ?]].
  intros [y Hy]. rewrite list_lookup_alter_eq.
  destruct (g !! Z.to_nat r) as [rw|]; [|done]. simpl in *.
  apply list_lookup_insert_eq. by eapply lookup_lt_Some.
Qed.

Lemma array_at_set_ne g r c r' c' x :
  (r, c) ≠ (r', c') →
  array_at (array_set g r c x) r' c' = array_at g r' c'.
Proof.
  intros Hne. unfold array_at, array_set.
  destruct (0 <=? r) eqn:Hr, (0 <=? c) eqn:Hc; simpl; try done.
  destruct (0 <=? r') eqn:Hr', (0 <=? c') eqn:Hc'; simpl; try done.
  destruct (decide (Z.to_nat r = Z.to_nat r')) as [Heq|Hneq].
  - rewrite <- Heq, list_lookup_alter_eq.
    destruct (g !! Z.to_nat r) as [rw|]; [|done]. simpl.
    apply list_lookup_insert_ne. intros Hc2.
    apply Hne. f_equal; lia.
  - by rewrite list_lookup_alter_ne.
Qed.

(** Writing back the value a cell held before a write undoes the write. *)
Lemma array_set_set_id g r c x y :
  array_at g r c = Some y → array_set (array_set g r c x) r c y = g.
Proof.
  unfold array_at, array_set.
  destruct ((0 <=? r) && (0 <=? c)); [|done]. intros H.
  destruct (g !! Z.to_nat r) as [rw|] eqn:Hg; [|done]. simpl in H.
  apply list_eq. intros i.
  destruct (decide (i = Z.to_nat r)) as [->|Hi].
  - rewrite !list_lookup_alter_eq, Hg. simpl. f_equal.
    rewrite list_insert_insert_eq. by apply list_insert_id.
  - by rewrite !list_lookup_alter_ne.
Qed.
End Arrays.

Section ArraysMore.
Context {A : Type}.
Implicit Types (g : Grid A) (r c : Z) (x : A).

(** A write to a cell the array does not have leaves the model unchanged. *)
Lemma array_set_None g r c x : array_at g r c = None → array_set g r c x = g.
Proof.
  unfold array_at, array_set.
  destruct ((0 <=? r) && (0 <=? c)); [|done]. intros H.
  apply list_eq. intros i.
  destruct (decide (i = Z.to_nat r)) as [->|Hi];
    [|by rewrite list_lookup_alter_ne].
  rewrite list_lookup_alter_eq.
  destruct (g !! Z.to_nat r) as [rw|]; [|done]. simpl in *. f_equal.
  apply list_insert_ge. by apply lookup_ge_None.
Qed.

Lemma array_set_set_default g r c x y :
  default y (array_at g r c) = y → array_set (array_set g r c x) r c y = g.
Proof.
  destruct (array_at g r c) as [z|] eqn:Hz.
  - simpl. intros ->. by apply array_set_set_id.
  - intros _. by rewrite (array_set_None g r c x Hz), (array_set_None g r c y Hz).
Qed.

Lemma array_fill_ok x : grid_ok (array_fill x).
Proof.
  unfold array_fill. split; [by rewrite length_replicate|].
  apply Forall_replicate. by rewrite length_replicate.
Qed.

Lemma array_at_fill r c x :
  in_range r c = true → array_at (array_fill x) r c = Some x.
Proof.
  unfold in_range, array_at, array_fill. rewrite !andb_true_iff. intros Hin.
  replace (0 <=? r) with true by lia. replace (0 <=? c) with true by lia.
  cbn [andb]. rewrite lookup_replicate_2 by lia. cbn [mbind option_bind].
  apply lookup_replicate_2. lia.
Qed.
End ArraysMore.

(** ** Board: reads, placement and removal *)

Lemma in_range_spec r c :
  in_range r c = true ↔ 0 <= r < BOARD_SIZE ∧ 0 <= c < BOARD_SIZE.
Proof. unfold in_range. rewrite !andb_true_iff. lia. Qed.

Lemma in_range_false r c :
  in_range r c = false ↔ ¬ (0 <= r < BOARD_SIZE ∧ 0 <= c < BOARD_SIZE).
Proof. rewrite <- in_range_spec. by destruct (in_range r c). Qed.

Lemma getStone_in b r c : in_range r c = true → getStone b r c = cell b r c.
Proof.
  rewrite in_range_spec. intros H. unfold getStone, Access.getStone.
  replace (r <? 0) with false by lia. replace (r >=? BOARD_SIZE) with false by lia.
  replace (c <? 0) with false by lia. by replace (c >=? BOARD_SIZE) with false by lia.
Qed.

Lemma getStone_out b r c : in_range r c = false → getStone b r c = EMPTY.
Proof.
  rewrite in_range_false. intros H. unfold getStone, Access.getStone.
  destruct (r <? 0) eqn:?, (r >=? BOARD_SIZE) eqn:?, (c <? 0) eqn:?,
    (c >=? BOARD_SIZE) eqn:?; simpl; try done. lia.
Qed.

Lemma isValidMove_spec b r c :
  isValidMove b r c = true ↔ in_range r c = true ∧ cell b r c = EMPTY.
Proof.
  unfold isValidMove. rewrite in_range_spec, !andb_true_iff, bool_decide_eq_true.
  intuition lia.
Qed.

Lemma placeStone_valid b r c stone :
  isValidMove b r c = true →
  placeStone b r c stone =
    (true, {| board := array_set (board b) r c stone;
              moveHistory := moveHistory b ++ [mkPosition r c];
              moveCount := moveCount b + 1 |}).
Proof. intros H. unfold placeStone. by rewrite H. Qed.

Lemma placeStone_invalid b r c stone :
  isValidMove b r c = false → placeStone b r c stone = (false, b).
Proof. intros H. unfold placeStone. by rewrite H. Qed.

(** Placing on a valid cell and removing that stone gives the board back. *)
Lemma place_remove b r c stone :
  isValidMove b r c = true → removeStone (placeStone b r c stone).2 r c = b.
Proof.
  intros Hv. rewrite placeStone_valid by done.
  apply isValidMove_spec in Hv as [_ Hc]. unfold cell in Hc.
  destruct b as [g h n]. unfold removeStone. simpl in *.
  rewrite array_set_set_default by done.
  destruct (h ++ [mkPosition r c]) eqn:Happ.
  - by destruct h.
  - rewrite <- Happ, removelast_last. f_equal. lia.
Qed.

Lemma GomokuGame_make_undo (g : GomokuGame.t) (m : GomokuGame.Move)
    (player : GomokuGame.Cell) :
  GomokuGame.isValidMove g (GomokuGame.row m) (GomokuGame.col m) = true →
  GomokuGame.undoMove (GomokuGame.makeMove g m player) m = g.
Proof.
  intros Hv. unfold GomokuGame.makeMove. rewrite Hv.
  unfold GomokuGame.isValidMove in Hv.
  rewrite !andb_true_iff, bool_decide_eq_true in Hv.
  destruct Hv as [[[[Hr _] Hc] _] He].
  unfold GomokuGame.undoMove.
  replace (GomokuGame.row m =? -1) with false by lia.
  replace (GomokuGame.col m =? -1) with false by lia. simpl.
  destruct g as [cells n]. simpl in *. f_equal; [|lia].
  by apply array_set_set_default.
Qed.

(** C4.  For every board and every valid move (row and column in range,
    target cell EMPTY), [placeStone] succeeds and the following [removeStone]
    of that cell restores the board exactly: cell grid, move history and move
    counter.  The same holds for [makeMove] followed by [undoMove] of the
    [GomokuGame] variant (cell grid and move counter; it keeps no history). *)
Theorem place_then_undo_restores :
  (∀ (b : Board) (r c : Z) (stone : Stone),
     isValidMove b r c = true →
     ∃ b', placeStone b r c stone = (true, b') ∧
           removeStone b' r c = b ∧
           board (removeStone b' r c) = board b ∧
           moveHistory (removeStone b' r c) = moveHistory b ∧
           moveCount (removeStone b' r c) = moveCount b) ∧
  (∀ (g : GomokuGame.t) (m : GomokuGame.Move) (player : GomokuGame.Cell),
     GomokuGame.isValidMove g (GomokuGame.row m) (GomokuGame.col m) = true →
     GomokuGame.undoMove (GomokuGame.makeMove g m player) m = g).
Proof.
  split.
  - intros b r c stone Hv. pose proof (place_remove b r c stone Hv) as Hpr.
    rewrite placeStone_valid in * by done. simpl in Hpr.
    eexists. split; [done|]. by rewrite Hpr.
  - apply GomokuGame_make_undo.
Qed.

Lemma place_then_undo_restores_witness :
  (∃ b', placeStone newBoard 7 7 BLACK = (true, b') ∧
         removeStone b' 7 7 = newBoard ∧
         board (removeStone b' 7 7) = board newBoard ∧
         moveHistory (removeStone b' 7 7) = moveHistory newBoard ∧
         moveCount (removeStone b' 7 7) = moveCount newBoard) ∧
  GomokuGame.undoMove
    (GomokuGame.makeMove (GomokuGame.mk (array_fill GomokuGame.EMPTY) 0)
       (GomokuGame.mkMove 3 4) GomokuGame.WHITE)
    (GomokuGame.mkMove 3 4)
  = GomokuGame.mk (array_fill GomokuGame.EMPTY) 0.
Proof.
  split.
  - apply (proj1 place_then_undo_restores newBoard 7 7 BLACK). reflexivity.
  - apply (proj2 place_then_undo_restores). reflexivity.
Defined.

Lemma removeStone_cell b r c r' c' :
  cell (removeStone b r c) r' c' =
    if bool_decide ((r, c) = (r', c')) then EMPTY else cell b r' c'.
Proof.
  assert (board (removeStone b r c) = array_set (board b) r c EMPTY) as Hb.
  { unfold removeStone. by destruct (moveHistory b). }
  unfold cell. rewrite Hb. case_bool_decide as Heq.
  - inversion Heq; subst.
    destruct (array_at (board b) r' c') eqn:Hat.
    + rewrite array_at_set_eq; [done|by rewrite Hat].
    + by rewrite array_set_None, Hat.
  - by rewrite array_at_set_ne.
Qed.

(** C9.  For every board with a non-empty move history and every in-range
    coordinate, [removeStone] empties that cell, pops the most recent history
    entry and decrements the move counter; every other cell keeps its value.
    No premise relates the coordinate to the history: a call that names
    another cell than the last one played is carried out all the same. *)
Theorem removeStone_unchecked (b : Board) (r c : Z) :
  moveHistory b ≠ [] →
  in_range r c = true →
  getStone (removeStone b r c) r c = EMPTY ∧
  moveHistory (removeStone b r c) = removelast (moveHistory b) ∧
  moveCount (removeStone b r c) = moveCount b - 1 ∧
  (∀ r' c', (r, c) ≠ (r', c') →
            getStone (removeStone b r c) r' c' = getStone b r' c').
Proof.
  intros Hh Hin. repeat split.
  - rewrite getStone_in, removeStone_cell by done. by rewrite bool_decide_eq_true_2.
  - unfold removeStone. by destruct (moveHistory b).
  - unfold removeStone. by destruct (moveHistory b).
  - intros r' c' Hne. destruct (in_range r' c') eqn:Hin'.
    + rewrite !getStone_in, removeStone_cell by done.
      by rewrite bool_decide_eq_false_2.
    + by rewrite !getStone_out.
Qed.

(** A board with Black on (7,7) and White on (7,8); removing (7,7) while the
    last move is (7,8) is accepted. *)
Lemma removeStone_unchecked_witness :
  let b := play newBoard BLACK [(7, 7); (7, 8)] in
  moveHistory b = [mkPosition 7 7; mkPosition 7 8] ∧
  getStone (removeStone b 7 7) 7 7 = EMPTY ∧
  moveHistory (removeStone b 7 7) = removelast (moveHistory b) ∧
  moveCount (removeStone b 7 7) = moveCount b - 1 ∧
  (∀ r' c', (7, 7) ≠ (r', c') →
            getStone (removeStone b 7 7) r' c' = getStone b r' c').
Proof.
  intros b. split; [reflexivity|].
  apply (removeStone_unchecked b 7 7); [discriminate | reflexivity].
Defined.

(** ** getStone is total and guards the array *)

Lemma cell_array_at b r c :
  grid_ok (board b) → in_range r c = true →
  array_at (board b) r c = Some (cell b r c).
Proof.
  intros Hok Hin. unfold cell.
  by destruct (array_at_ok (board b) r c Hok Hin) as [s ->].
Qed.

(** The line analysis sees the board through [getStone] only. *)
Lemma analyze_dir_getStone b b' start dr dc stone dir ix :
  (∀ r c, getStone b r c = getStone b' r c) →
  ∀ count blocked gapCount pattern,
    analyze_dir b start dr dc stone dir ix count blocked gapCount pattern =
    analyze_dir b' start dr dc stone dir ix count blocked gapCount pattern.
Proof.
  intros Hget. induction ix as [|i ix IH]; intros; simpl; [done|].
  rewrite Hget. repeat case_bool_decide; rewrite ?IH; done.
Qed.

Lemma analyzeLine_getStone b b' start dr dc stone :
  (∀ r c, getStone b r c = getStone b' r c) →
  analyzeLine b start dr dc stone = analyzeLine b' start dr dc stone.
Proof.
  intros Hget. unfold analyzeLine. cbn [foldl].
  by rewrite !(analyze_dir_getStone b b' _ _ _ _ _ _ Hget).
Qed.

(** Outside the board the array has no cell. *)
Lemma array_at_out {A} (g : Grid A) r c :
  grid_ok g → in_range r c = false → array_at g r c = None.
Proof.
  intros [Hlen Hrows] Hout. apply in_range_false in Hout.
  unfold array_at, BOARD_SIZE in *.
  destruct ((0 <=? r) && (0 <=? c)) eqn:Hpos; [|done].
  apply andb_true_iff in Hpos as [Hr Hc].
  destruct (g !! Z.to_nat r) as [rw|] eqn:Hrow; [|done].
  cbn [mbind option_bind]. apply lookup_ge_None.
  pose proof (lookup_lt_Some _ _ _ Hrow) as Hlt.
  rewrite Forall_lookup in Hrows. rewrite (Hrows _ _ Hrow). lia.
Qed.

(** The guarded read never fails, and gives the stone the callers use. *)
Lemma Access_getStone_Some b r c :
  grid_ok (board b) → Access.getStone b r c = Some (getStone b r c).
Proof.
  intros Hok. unfold getStone.
  assert (is_Some (Access.getStone b r c)) as [s ->]; [|done].
  unfold Access.getStone.
  destruct (_ || _) eqn:Hguard; [done|].
  apply array_at_ok; [done|]. apply in_range_spec.
  rewrite !orb_false_iff in Hguard. lia.
Qed.

Lemma Access_analyze_dir_Some b start dr dc stone dir ix :
  grid_ok (board b) →
  ∀ count blocked gapCount pattern,
    LineAccess.analyze_dir b start dr dc stone dir ix count blocked gapCount
      pattern
    = Some (analyze_dir b start dr dc stone dir ix count blocked gapCount
              pattern).
Proof.
  intros Hok. induction ix as [|i ix IH]; intros count blocked gapCount pattern;
    [done|].
  cbn [LineAccess.analyze_dir analyze_dir]. cbv zeta.
  rewrite Access_getStone_Some by done. cbn [mbind option_bind].
  repeat case_bool_decide; rewrite ?IH; try done.
  by destruct (_ && _).
Qed.

Lemma Access_analyzeLine_Some b start dr dc stone :
  grid_ok (board b) →
  LineAccess.analyzeLine b start dr dc stone
  = Some (analyzeLine b start dr dc stone).
Proof.
  intros Hok. unfold LineAccess.analyzeLine, analyzeLine. cbn [foldl].
  cbn [mbind option_bind]. rewrite Access_analyze_dir_Some by done.
  cbn [mbind option_bind].
  destruct (analyze_dir b start dr dc stone (-1) _ _ _ _ _) as [count1 pattern1].
  cbn [mbind option_bind]. rewrite Access_analyze_dir_Some by done.
  cbn [mbind option_bind].
  by destruct (analyze_dir b start dr dc stone 1 _ _ _ _ _) as [count2 pattern2].
Qed.

(** C10.  [getStone] is defined on all pairs of integers: on a board of the
    declared shape the call never reads outside the array and returns a
    stone.  Outside [0, 15) on either axis it answers EMPTY, where the array
    has no cell and the read it skips would be an access out of bounds;
    inside, it returns the cell the array holds.  [analyzeLine], which walks
    up to four cells past its start in both directions from any start and
    along any direction, never reads outside the array either, and it reads
    the board through [getStone] alone. *)
Theorem getStone_total_guarded (b : Board) (r c : Z) :
  grid_ok (board b) →
  Access.getStone b r c = Some (getStone b r c) ∧
  (in_range r c = false →
   getStone b r c = EMPTY ∧ array_at (board b) r c = None) ∧
  (in_range r c = true → array_at (board b) r c = Some (getStone b r c)) ∧
  (∀ start dr dc stone,
     LineAccess.analyzeLine b start dr dc stone
     = Some (analyzeLine b start dr dc stone)) ∧
  (∀ b' start dr dc stone,
     (∀ r c, getStone b r c = getStone b' r c) →
     analyzeLine b start dr dc stone = analyzeLine b' start dr dc stone).
Proof.
  intros Hok. split; [by apply Access_getStone_Some|]. split; [|split; [|split]].
  - intros Hout. split; [by apply getStone_out|by apply array_at_out].
  - intros Hin. rewrite getStone_in by done. by apply cell_array_at.
  - intros. by apply Access_analyzeLine_Some.
  - intros. by apply analyzeLine_getStone.
Qed.

Lemma getStone_total_guarded_witness :
  grid_ok (board newBoard) ∧
  Access.getStone newBoard (-1) 15 = Some EMPTY ∧
  array_at (board newBoard) (-1) 15 = None ∧
  array_at (board newBoard) 14 0 = Some (getStone newBoard 14 0) ∧
  LineAccess.analyzeLine newBoard (mkPosition 0 14) 1 1 BLACK
  = Some (analyzeLine newBoard (mkPosition 0 14) 1 1 BLACK).
Proof.
  pose proof (array_fill_ok EMPTY) as Hok.
  destruct (getStone_total_guarded newBoard (-1) 15 Hok)
    as (Hsome & Hout & _ & _ & _).
  destruct (getStone_total_guarded newBoard 14 0 Hok)
    as (_ & _ & Hin & Hline & _).
  destruct (Hout eq_refl) as [Hempty Hnone].
  split; [exact Hok|]. split; [by rewrite Hsome, Hempty|].
  split; [exact Hnone|]. split; [by apply Hin|apply Hline].
Defined.

(** ** The evaluator is zero-sum *)

Lemma evaluate_cell_zero_sum b r c s s' :
  evaluate_cell b BLACK s r c + evaluate_cell b WHITE s' r c = s + s'.
Proof.
  unfold evaluate_cell, DIRECTIONS. simpl foldl.
  destruct (getStone b r c); simpl; lia.
Qed.

Lemma evaluate_row_zero_sum b r cs : ∀ s s',
  foldl (λ score c, evaluate_cell b BLACK score r c) s cs
  + foldl (λ score c, evaluate_cell b WHITE score r c) s' cs = s + s'.
Proof.
  induction cs as [|c cs IH]; intros s s'; simpl; [done|].
  rewrite IH. apply evaluate_cell_zero_sum.
Qed.

Lemma evaluate_rows_zero_sum b cs rs : ∀ s s',
  foldl (λ score r, foldl (λ score c, evaluate_cell b BLACK score r c) score cs)
        s rs
  + foldl (λ score r, foldl (λ score c, evaluate_cell b WHITE score r c) score cs)
          s' rs
  = s + s'.
Proof.
  induction rs as [|r rs IH]; intros s s'; simpl; [done|].
  rewrite IH. apply evaluate_row_zero_sum.
Qed.

(** C6.  On every board the score for BLACK is the negation of the score
    for WHITE. *)
Theorem evaluatePosition_antisymmetric (b : Board) :
  evaluatePosition b BLACK = - evaluatePosition b WHITE.
Proof.
  pose proof (evaluate_rows_zero_sum b (ints 0 BOARD_SIZE) (ints 0 BOARD_SIZE) 0 0).
  unfold evaluatePosition. lia.
Qed.

(** ** Reachable boards satisfy the invariant *)

Lemma count_row_insert (rw : list Stone) (i : nat) (stone : Stone) :
  rw !! i = Some EMPTY → stone ≠ EMPTY →
  count_row (<[i := stone]> rw) = S (count_row rw).
Proof.
  intros Hi Hs. unfold count_row.
  rewrite insert_take_drop by (by eapply lookup_lt_Some).
  rewrite <- (take_drop_middle rw i EMPTY Hi) at 3.
  rewrite !filter_app, !filter_cons.
  destruct (decide (stone ≠ EMPTY)); [|done].
  destruct (decide (EMPTY ≠ EMPTY)); [done|].
  rewrite !length_app. simpl. lia.
Qed.

Lemma count_stones_set (g : Grid Stone) (r c : Z) (stone : Stone) :
  array_at g r c = Some EMPTY → stone ≠ EMPTY →
  count_stones (array_set g r c stone) = S (count_stones g).
Proof.
  unfold array_at, array_set, count_stones.
  destruct ((0 <=? r) && (0 <=? c)); [|done]. intros Hat Hs.
  destruct (g !! Z.to_nat r) as [rw|] eqn:Hg; [|done]. simpl in Hat.
  rewrite <- (take_drop_middle g _ rw Hg) at 2.
  assert (alter (λ rw, <[Z.to_nat c:=stone]> rw) (Z.to_nat r) g
          = take (Z.to_nat r) g ++ <[Z.to_nat c:=stone]> rw
              :: drop (S (Z.to_nat r)) g) as ->.
  { apply list_eq. intros i.
    destruct (decide (i = Z.to_nat r)) as [->|Hne].
    - rewrite list_lookup_alter_eq, Hg, list_lookup_middle; [done|].
      rewrite length_take. apply lookup_lt_Some in Hg. lia.
    - rewrite list_lookup_alter_ne by done.
      rewrite <- (take_drop_middle g _ rw Hg) at 1.
      destruct (decide (i < Z.to_nat r)%nat).
      + rewrite !lookup_app_l; [done|..]; rewrite length_take;
          apply lookup_lt_Some in Hg; lia.
      + assert (length (take (Z.to_nat r) g) = Z.to_nat r) as Hlen.
        { rewrite length_take. apply lookup_lt_Some in Hg. lia. }
        rewrite !lookup_app_r by lia. rewrite Hlen.
        destruct (i - Z.to_nat r)%nat as [|k] eqn:Hk; [lia|done]. }
  rewrite !sum_list_with_app. simpl.
  rewrite count_row_insert by done. lia.
Qed.

Lemma replay_app b ms1 ms2 :
  replay b (ms1 ++ ms2) = replay b ms1 ≫= λ b1, replay b1 ms2.
Proof.
  revert b. induction ms1 as [|[p s] ms1 IH]; intros b; simpl; [done|].
  destruct (isValidMove b (row p) (col p)); [apply IH|done].
Qed.

Lemma replay_snoc b ms p stone b' :
  replay b (ms ++ [(p, stone)]) = Some b' ↔
  ∃ b1, replay b ms = Some b1 ∧ isValidMove b1 (row p) (col p) = true ∧
        b' = (placeStone b1 (row p) (col p) stone).2.
Proof.
  rewrite replay_app. destruct (replay b ms) as [b1|]; simpl.
  - destruct (isValidMove b1 (row p) (col p)) eqn:Hv; split.
    + intros [= <-]. eauto.
    + intros (? & [= <-] & _ & ->). done.
    + done.
    + intros (? & [= <-] & ? & _). congruence.
  - split; [done|]. by intros (? & ? & _).
Qed.

(** What a successful replay from the empty board establishes. *)
Lemma replay_inv ms : ∀ b,
  replay newBoard ms = Some b →
  Forall (λ m, m.2 ≠ EMPTY) ms →
  moveHistory b = ms.*1 ∧
  board_inv b ∧
  NoDup ms.*1 ∧
  Forall (λ p, in_range (row p) (col p) = true ∧ cell b (row p) (col p) ≠ EMPTY)
         ms.*1.
Proof.
  induction ms as [|[p stone] ms IH] using rev_ind; intros b Hrep Hne.
  - injection Hrep as <-. split; [done|]. split; [|split; constructor].
    split; [apply array_fill_ok|done].
  - apply replay_snoc in Hrep as (b1 & Hrep & Hv & ->).
    apply Forall_app in Hne as [Hne1 Hne2].
    rewrite Forall_singleton in Hne2. simpl in Hne2.
    destruct (IH b1 Hrep Hne1) as (Hh & (Hok & Hcnt & Hlen) & Hnd & Hocc).
    rewrite placeStone_valid by done. simpl.
    pose proof Hv as Hv'. apply isValidMove_spec in Hv' as [Hin Hempty].
    pose proof (cell_array_at b1 _ _ Hok Hin) as Hat. rewrite Hempty in Hat.
    rewrite fmap_app. simpl. destruct p as [r c]. simpl in *.
    split; [by rewrite Hh|]. split; [|split].
    + split; [by apply array_set_ok|]. simpl.
      rewrite count_stones_set, length_app by done. simpl. lia.
    + apply NoDup_app. split; [done|]. split; [|apply NoDup_singleton].
      intros q Hq ->%list_elem_of_singleton.
      rewrite Forall_forall in Hocc. by destruct (Hocc _ Hq) as [_ Hq'].
    + apply Forall_app. split.
      * eapply Forall_impl; [exact Hocc|]. intros q [Hqin Hq]. split; [done|].
        unfold cell in *. simpl.
        destruct (decide ((r, c) = (row q, col q))) as [Heq|Hneq].
        -- inversion Heq; subst. by rewrite Hat in Hq.
        -- by rewrite array_at_set_ne.
      * apply Forall_singleton. split; [done|]. unfold cell. simpl.
        rewrite array_at_set_eq; [done|by rewrite Hat].
Qed.

(** Every reachable board is the replay of its own history. *)
Lemma reachable_replay b :
  reachable b →
  ∃ ms, replay newBoard ms = Some b ∧ Forall (λ m, m.2 ≠ EMPTY) ms.
Proof.
  induction 1 as [|b r c stone b' _ (ms & Hrep & Hne) Hs Hp
                  |b r c _ (ms & Hrep & Hne) Hlast].
  - by exists [].
  - exists (ms ++ [(mkPosition r c, stone)]). split.
    + apply replay_snoc. exists b. split; [done|]. simpl.
      unfold placeStone in Hp.
      destruct (isValidMove b r c) eqn:Hv; simpl in Hp; [|done].
      split; [done|]. rewrite placeStone_valid by done. by injection Hp.
    + apply Forall_app. split; [done|]. by apply Forall_singleton.
  - destruct (replay_inv ms b Hrep Hne) as (Hh & _).
    rewrite Hh in Hlast. clear Hh. revert Hrep Hne Hlast.
    induction ms as [|[p stone] ms _] using rev_ind; intros Hrep Hne Hlast;
      [done|].
    rewrite fmap_app in Hlast. cbn [fmap list_fmap] in Hlast.
    rewrite last_snoc in Hlast. injection Hlast as ->.
    apply replay_snoc in Hrep as (b1 & Hrep & Hv & ->).
    exists ms. simpl in Hv. rewrite place_remove by done.
    split; [done|]. by apply Forall_app in Hne as [? _].
Qed.

(** C8.  On every board reachable from the empty board by successful
    placements of a side's stone and removals of the most recent stone, the
    number of non-empty cells, the move counter and the length of the move
    history are equal, the history holds no coordinate twice, and the history
    replays from the empty board: each of its coordinates was in range and
    EMPTY when its turn came. *)
Theorem reachable_invariant (b : Board) :
  reachable b →
  Z.of_nat (count_stones (board b)) = moveCount b ∧
  moveCount b = Z.of_nat (length (moveHistory b)) ∧
  NoDup (moveHistory b) ∧
  ∃ stones, length stones = length (moveHistory b) ∧
            replay newBoard (zip (moveHistory b) stones) = Some b.
Proof.
  intros (ms & Hrep & Hne)%reachable_replay.
  destruct (replay_inv ms b Hrep Hne) as (Hh & (_ & Hcnt & Hlen) & Hnd & _).
  rewrite Hh in *. repeat split; [lia|done|done|].
  exists ms.*2. split; [by rewrite !length_fmap|].
  by rewrite zip_fst_snd.
Qed.

Lemma reachable_invariant_witness :
  let b := play newBoard BLACK [(7, 7); (7, 8); (8, 8)] in
  Z.of_nat (count_stones (board b)) = moveCount b ∧
  moveCount b = Z.of_nat (length (moveHistory b)) ∧
  NoDup (moveHistory b) ∧
  ∃ stones, length stones = length (moveHistory b) ∧
            replay newBoard (zip (moveHistory b) stones) = Some b.
Proof.
  intros b. apply (reachable_invariant b).
  apply (reachable_place (play newBoard BLACK [(7, 7); (7, 8)]) 8 8 BLACK);
    [|done|reflexivity].
  apply (reachable_place (play newBoard BLACK [(7, 7)]) 7 8 WHITE);
    [|done|reflexivity].
  apply (reachable_place newBoard 7 7 BLACK); [|done|reflexivity].
  apply reachable_new.
Defined.

(** ** The candidate generator *)

Lemma foldl_bind {A B C} (f : A → C → A) (g : B → list C) (l : list B) : ∀ a,
  foldl f a (l ≫= g) = foldl (λ a x, foldl f a (g x)) a l.
Proof.
  induction l as [|x l IH]; intros a; [done|].
  cbn [mbind list_bind]. rewrite foldl_app. apply IH.
Qed.

Lemma foldl_fun_ext {A B} (f g : A → B → A) (l : list B) :
  (∀ a x, f a x = g a x) → ∀ a, foldl f a l = foldl g a l.
Proof.
  intros Hfg. induction l as [|x l IH]; intros a; simpl; [done|].
  by rewrite Hfg, IH.
Qed.

Lemma elem_of_ints k lo hi : k ∈ ints lo hi ↔ lo <= k < hi.
Proof. unfold ints. rewrite elem_of_seqZ. lia. Qed.

(** The scan with de-duplication, for any kind of move and validity test. *)
Section Scan.
Context {P : Type} (mk : Z → Z → P) (valid : Z → Z → bool).
Hypothesis mk_inj : ∀ r c r' c', mk r c = mk r' c' → r = r' ∧ c = c'.
Hypothesis valid_in_range : ∀ r c, valid r c = true → in_range r c = true.

Local Abbreviation scan_step := (scan_step mk valid).
Local Abbreviation scan_inv := (scan_inv mk).

Lemma scan_step_inv st t :
  scan_inv st →
  scan_inv (scan_step st t) ∧
  ∀ p, p ∈ (scan_step st t).1 ↔
       p ∈ st.1 ∨ (p = mk t.1 t.2 ∧ valid t.1 t.2 = true).
Proof.
  destruct st as [moves considered], t as [nr nc].
  intros (Hok & Hnd & Hflag). unfold scan_step. simpl in *.
  destruct (valid nr nc) eqn:Hv; simpl.
  2: { split; [done|]. intros p. split; [auto|]. by intros [?|[_ ?]]. }
  pose proof (valid_in_range _ _ Hv) as Hin.
  destruct (default false (array_at considered nr nc)) eqn:Hc; simpl.
  { split; [done|]. intros p. split; [auto|].
    intros [?|[-> _]]; [done|]. by apply Hflag. }
  assert (mk nr nc ∉ moves) as Hfresh.
  { intros Hm. apply Hflag in Hm; [|done]. congruence. }
  split; [split; [|split]|]; simpl.
  - by apply array_set_ok.
  - apply NoDup_app. split; [done|]. split; [|apply NoDup_singleton].
    by intros q Hq ->%list_elem_of_singleton.
  - intros r c Hrc. rewrite elem_of_app, list_elem_of_singleton.
    destruct (decide ((nr, nc) = (r, c))) as [Heq|Hne].
    + inversion Heq; subst.
      rewrite array_at_set_eq by (by apply array_at_ok). simpl.
      split; [by right|done].
    + rewrite array_at_set_ne by done. rewrite Hflag by done.
      split; [auto|]. intros [?|Heq]; [done|].
      apply mk_inj in Heq as [-> ->]. done.
  - intros p. rewrite elem_of_app, list_elem_of_singleton.
    split; [intros [?|?]; auto|]. intros [?|[? _]]; auto.
Qed.

Lemma scan_inv_foldl ts : ∀ st,
  scan_inv st →
  scan_inv (foldl scan_step st ts) ∧
  ∀ p, p ∈ (foldl scan_step st ts).1 ↔
       p ∈ st.1 ∨ ∃ t, t ∈ ts ∧ p = mk t.1 t.2 ∧ valid t.1 t.2 = true.
Proof.
  induction ts as [|t ts IH]; intros st Hst; simpl.
  - split; [done|]. intros p. split; [auto|]. intros [?|(t & Ht & _)]; [done|].
    by apply elem_of_nil in Ht.
  - destruct (scan_step_inv st t Hst) as [Hst' Hmem].
    destruct (IH _ Hst') as [Hfin Hmem']. split; [done|].
    intros p. rewrite Hmem', Hmem. split.
    + intros [[?|[-> Hv]]|(t' & Ht' & Hp)]; [by left| |].
      * right. exists t. split; [apply elem_of_cons; by left|done].
      * right. exists t'. split; [apply elem_of_cons; by right|done].
    + intros [?|(t' & Ht' & Hp & Hv)]; [by left; left|].
      apply elem_of_cons in Ht' as [->|Ht']; [by left; right|].
      right. by exists t'.
Qed.

Lemma scan_from_empty ts :
  let moves := (foldl scan_step ([], array_fill false) ts).1 in
  NoDup moves ∧
  ∀ p, p ∈ moves ↔ ∃ t, t ∈ ts ∧ p = mk t.1 t.2 ∧ valid t.1 t.2 = true.
Proof.
  assert (scan_inv ([], array_fill false)) as Hinit.
  { split; [apply array_fill_ok|]. split; [constructor|].
    intros r c Hrc. simpl. rewrite array_at_fill by done. simpl.
    split; [done|]. by intros ?%elem_of_nil. }
  destruct (scan_inv_foldl ts _ Hinit) as [(_ & Hnd & _) Hmem].
  split; [done|]. intros p. rewrite Hmem. simpl.
  split; [|auto]. intros [?%elem_of_nil|?]; done.
Qed.
End Scan.

Lemma elem_of_scan_targets occupied range nr nc :
  (nr, nc) ∈ scan_targets occupied range ↔
  near_stone (λ r c, occupied r c = true) range nr nc.
Proof.
  unfold scan_targets, near_stone. rewrite list_elem_of_bind. split.
  - intros (r & (c & Hc & Hcin)%list_elem_of_bind & Hrin).
    destruct (occupied r c) eqn:Hocc; [|by apply elem_of_nil in Hc].
    apply list_elem_of_bind in Hc as (dr & (dc & Hd & Hdc)%list_elem_of_bind & Hdr).
    apply list_elem_of_singleton in Hd. injection Hd as -> ->.
    rewrite elem_of_ints in *. exists r, c.
    split; [apply in_range_spec; lia|]. split; [done|]. lia.
  - intros (r & c & Hin & Hocc & Hr & Hc). apply in_range_spec in Hin.
    exists r. split; [|apply elem_of_ints; lia].
    apply list_elem_of_bind. exists c. split; [|apply elem_of_ints; lia].
    rewrite Hocc. apply list_elem_of_bind. exists (nr - r).
    split; [|apply elem_of_ints; lia].
    apply list_elem_of_bind. exists (nc - c).
    split; [|apply elem_of_ints; lia].
    apply list_elem_of_singleton. f_equal; lia.
Qed.

Lemma nested_scan {S} (step : S → Z * Z → S) (occupied : Z → Z → bool)
    (range : Z) (st : S) :
  foldl (λ st r,
    foldl (λ st c,
      if occupied r c
      then foldl (λ st dr,
             foldl (λ st dc, step st (r + dr, c + dc)) st
                   (ints (- range) (range + 1)))
             st (ints (- range) (range + 1))
      else st) st (ints 0 BOARD_SIZE)) st (ints 0 BOARD_SIZE)
  = foldl step st (scan_targets occupied range).
Proof.
  unfold scan_targets. rewrite foldl_bind. apply foldl_fun_ext. intros a r.
  rewrite foldl_bind. apply foldl_fun_ext. intros a' c.
  destruct (occupied r c); [|done].
  rewrite foldl_bind. apply foldl_fun_ext. intros a'' dr.
  rewrite foldl_bind. by apply foldl_fun_ext.
Qed.

Lemma getRelevantMoves_scan b range :
  moveCount b ≠ 0 →
  getRelevantMoves b range =
    (foldl (scan_step mkPosition (isValidMove b)) ([], array_fill false)
       (scan_targets (λ r c, bool_decide (cell b r c ≠ EMPTY)) range)).1.
Proof.
  intros Hn. unfold getRelevantMoves.
  replace (moveCount b =? 0) with false by lia.
  by rewrite <- nested_scan.
Qed.

Lemma generateMoves_scan board :
  GomokuGame.generateMoves board =
    (foldl (scan_step GomokuGame.mkMove
              (λ r c, (r >=? 0) && (r <? BOARD_SIZE) && (c >=? 0)
                      && (c <? BOARD_SIZE)
                      && bool_decide (GomokuGame.cell board r c = GomokuGame.EMPTY)))
       ([], array_fill false)
       (scan_targets
          (λ r c, bool_decide (GomokuGame.cell board r c ≠ GomokuGame.EMPTY)) 1)).1.
Proof.
  unfold GomokuGame.generateMoves. rewrite <- nested_scan. f_equal.
  apply foldl_fun_ext. intros st r. apply foldl_fun_ext. intros st' c.
  by destruct (decide (GomokuGame.cell board r c = GomokuGame.EMPTY));
    [rewrite bool_decide_eq_true_2, bool_decide_eq_false_2 by auto
    |rewrite bool_decide_eq_false_2, bool_decide_eq_true_2 by auto].
Qed.

Lemma near_stone_ext (occ occ' : Z → Z → Prop) range r c :
  (∀ r c, occ r c ↔ occ' r c) →
  near_stone occ range r c ↔ near_stone occ' range r c.
Proof.
  intros Hocc. unfold near_stone.
  split; intros (r0 & c0 & ? & ?%Hocc & ?); eauto 6.
Qed.

Lemma getRelevantMoves_nonzero b range :
  moveCount b ≠ 0 →
  NoDup (getRelevantMoves b range) ∧
  ∀ p, p ∈ getRelevantMoves b range ↔ candidate b range p.
Proof.
  intros Hn. rewrite getRelevantMoves_scan by done.
  destruct (scan_from_empty mkPosition (isValidMove b))
    with (ts := scan_targets (λ r c, bool_decide (cell b r c ≠ EMPTY)) range)
    as [Hnd Hmem].
  { by intros r c r' c' [= -> ->]. }
  { by intros r c [? _]%isValidMove_spec. }
  split; [done|]. intros p. rewrite Hmem. unfold candidate. split.
  - intros ([nr nc] & Ht & -> & [Hin He]%isValidMove_spec). simpl in *.
    split; [done|]. split; [done|]. apply elem_of_scan_targets in Ht.
    eapply near_stone_ext; [|exact Ht]. intros r c. simpl.
    by rewrite bool_decide_eq_true.
  - intros (Hin & He & Hnear). exists (row p, col p). simpl.
    split; [|split; [by destruct p|by apply isValidMove_spec]].
    apply elem_of_scan_targets. eapply near_stone_ext; [|exact Hnear].
    intros r c. simpl. by rewrite bool_decide_eq_true.
Qed.

Lemma generateMoves_candidates board :
  NoDup (GomokuGame.generateMoves board) ∧
  ∀ m, m ∈ GomokuGame.generateMoves board ↔ candidate_move board m.
Proof.
  rewrite generateMoves_scan.
  match goal with |- context [scan_step _ ?v] => set (valid := v) end.
  assert (∀ r c, valid r c = true ↔
                 in_range r c = true ∧
                 GomokuGame.cell board r c = GomokuGame.EMPTY) as Hvalid.
  { intros r c. unfold valid.
    rewrite in_range_spec, !andb_true_iff, bool_decide_eq_true. intuition lia. }
  destruct (scan_from_empty GomokuGame.mkMove valid)
    with (ts := scan_targets
            (λ r c, bool_decide (GomokuGame.cell board r c ≠ GomokuGame.EMPTY)) 1)
    as [Hnd Hmem].
  { by intros r c r' c' [= -> ->]. }
  { by intros r c [? _]%Hvalid. }
  split; [done|]. intros m. rewrite Hmem. unfold candidate_move. split.
  - intros ([nr nc] & Ht & -> & [Hin He]%Hvalid). simpl in *.
    split; [done|]. split; [done|]. apply elem_of_scan_targets in Ht.
    eapply near_stone_ext; [|exact Ht]. intros r c. simpl.
    by rewrite bool_decide_eq_true.
  - intros (Hin & He & Hnear).
    exists (GomokuGame.row m, GomokuGame.col m). simpl.
    split; [|split; [by destruct m|by apply Hvalid]].
    apply elem_of_scan_targets. eapply near_stone_ext; [|exact Hnear].
    intros r c. simpl. by rewrite bool_decide_eq_true.
Qed.

(** C5.  [getRelevantMoves], for any radius: when no move has been played
    (move counter zero) it returns the centre cell (7, 7) and nothing else;
    otherwise it returns, without repetition, exactly the in-range EMPTY
    cells within Chebyshev distance [range] of an occupied cell.  The
    neighbourhood scan [generateMoves] of the [GomokuGame] variant returns,
    without repetition, exactly those cells for radius 1. *)
Theorem candidate_generator_exact :
  (∀ (b : Board) (range : Z),
     (moveCount b = 0 →
      getRelevantMoves b range = [mkPosition (BOARD_SIZE ÷ 2) (BOARD_SIZE ÷ 2)] ∧
      getRelevantMoves b range = [mkPosition 7 7]) ∧
     (moveCount b ≠ 0 →
      NoDup (getRelevantMoves b range) ∧
      ∀ p, p ∈ getRelevantMoves b range ↔ candidate b range p)) ∧
  (∀ board : Grid GomokuGame.Cell,
     NoDup (GomokuGame.generateMoves board) ∧
     ∀ m, m ∈ GomokuGame.generateMoves board ↔ candidate_move board m).
Proof.
  split; [|apply generateMoves_candidates].
  intros b range. split; [|apply getRelevantMoves_nonzero].
  intros Hz. unfold getRelevantMoves. by rewrite Hz.
Qed.

Lemma candidate_generator_exact_witness :
  getRelevantMoves newBoard 2 = [mkPosition 7 7] ∧
  (let b := play newBoard BLACK [(0, 0)] in
   NoDup (getRelevantMoves b 1) ∧
   ∀ p, p ∈ getRelevantMoves b 1 ↔ candidate b 1 p).
Proof.
  split.
  - apply (proj1 (proj1 candidate_generator_exact newBoard 2)). reflexivity.
  - apply (proj2 (proj1 candidate_generator_exact
                    (play newBoard BLACK [(0, 0)]) 1)). discriminate.
Defined.

(** ** Win detection through a cell *)

Section Runs.
Context (own : Z → Z → Prop) `{own_dec : ∀ r c, Decision (own r c)}.
Hypothesis own_in_range : ∀ r c, own r c → in_range r c = true.

Lemma extent_unique r c sr sc n m :
  extent own r c sr sc n → extent own r c sr sc m → n = m.
Proof.
  intros (Hn & Hown & Hstop) (Hm & Hown' & Hstop').
  destruct (Z.lt_trichotomy n m) as [Hlt|[?|Hlt]]; [|done|].
  - destruct Hstop. apply Hown'. lia.
  - destruct Hstop'. apply Hown. lia.
Qed.

Lemma room_step sr sc r c :
  axis_step sr sc → room sr sc (r + sr) (c + sc) = room sr sc r c - 1.
Proof.
  unfold axis_step, room. intros [-> | [-> | [-> [-> | ->]]]]; simpl; lia.
Qed.

Lemma room_in_range sr sc r c :
  axis_step sr sc → in_range r c = true → 1 <= room sr sc r c <= BOARD_SIZE.
Proof.
  rewrite in_range_spec. unfold axis_step, room.
  intros [-> | [-> | [-> [-> | ->]]]]; simpl; lia.
Qed.

Lemma extent_from r0 c0 sr sc (f : nat) : ∀ j,
  axis_step sr sc → 1 <= j →
  (∀ k, 1 <= k < j → own (r0 + k * sr) (c0 + k * sc)) →
  room sr sc (r0 + j * sr) (c0 + j * sc) <= Z.of_nat f →
  ∃ n, extent own r0 c0 sr sc n ∧ j - 1 <= n <= j - 1 + Z.of_nat f.
Proof.
  induction f as [|f IH]; intros j Hax Hj Hbefore Hroom.
  - exists (j - 1). split; [|lia]. split; [lia|]. split.
    + intros k Hk. apply Hbefore. lia.
    + replace (j - 1 + 1) with j by lia. intros Hown%own_in_range.
      pose proof (room_in_range sr sc _ _ Hax Hown). lia.
  - destruct (decide (own (r0 + j * sr) (c0 + j * sc))) as [Hown|Hown].
    + destruct (IH (j + 1)) as (n & Hn & Hbound); [done|lia| | |].
      * intros k Hk. destruct (decide (k = j)) as [->|]; [done|].
        apply Hbefore. lia.
      * replace (r0 + (j + 1) * sr) with (r0 + j * sr + sr) by lia.
        replace (c0 + (j + 1) * sc) with (c0 + j * sc + sc) by lia.
        rewrite room_step by done. lia.
      * exists n. split; [done|lia].
    + exists (j - 1). split; [|lia]. split; [lia|]. split.
      * intros k Hk. apply Hbefore. lia.
      * by replace (j - 1 + 1) with j by lia.
Qed.

(** On the board every walk along an axis ends within [BOARD_SIZE - 1]
    cells. *)
Lemma extent_exists r c sr sc :
  axis_step sr sc → in_range r c = true →
  ∃ n, extent own r c sr sc n ∧ n < BOARD_SIZE.
Proof.
  intros Hax Hin.
  destruct (extent_from r c sr sc (Z.to_nat (BOARD_SIZE - 1)) 1)
    as (n & Hn & Hb); [done|lia|intros; lia| |].
  - rewrite !Z.mul_1_l, room_step by done.
    pose proof (room_in_range sr sc r c Hax Hin). unfold BOARD_SIZE in *. lia.
  - exists n. split; [done|]. unfold BOARD_SIZE in *. lia.
Qed.

Lemma run_through_unique r c dr dc n m :
  run_through own r c dr dc n → run_through own r c dr dc m → n = m.
Proof.
  intros (_ & a & b & Ha & Hb & ->) (_ & a' & b' & Ha' & Hb' & ->).
  by rewrite (extent_unique _ _ _ _ _ _ Ha Ha'),
             (extent_unique _ _ _ _ _ _ Hb Hb').
Qed.
End Runs.

Lemma axis_step_AXES d :
  d ∈ AXES → axis_step d.1 d.2 ∧ axis_step (- d.1) (- d.2).
Proof.
  unfold AXES, axis_step. rewrite !elem_of_cons, elem_of_nil.
  intros [-> | [-> | [-> | [-> | ?]]]]; simpl; lia.
Qed.

Lemma Gomoku_own_test board player r c :
  (r >=? 0) && (r <? BOARD_SIZE) && (c >=? 0) && (c <? BOARD_SIZE)
  && (Gomoku.cell board r c =? player) = true
  ↔ Gomoku_own board player r c.
Proof.
  unfold Gomoku_own. rewrite in_range_spec, !andb_true_iff. intuition lia.
Qed.

Lemma GomokuGame_own_test board player r c :
  (r >=? 0) && (r <? BOARD_SIZE) && (c >=? 0) && (c <? BOARD_SIZE)
  && bool_decide (GomokuGame.cell board r c = player) = true
  ↔ GomokuGame_own board player r c.
Proof.
  unfold GomokuGame_own.
  rewrite in_range_spec, !andb_true_iff, bool_decide_eq_true. intuition lia.
Qed.

(** A [while] loop of [countLine] entered [j] steps from [(r0, c0)] leaves
    after counting the rest of the extent, given that much fuel. *)
Lemma count_while_extent board player r0 c0 sr sc n :
  extent (Gomoku_own board player) r0 c0 sr sc n →
  ∀ (fuel : nat) j count,
    1 <= j <= n + 1 → n + 1 - j < Z.of_nat fuel →
    Gomoku.count_while fuel board (r0 + j * sr) (c0 + j * sc) sr sc player count
    = Some (count + (n + 1 - j)).
Proof.
  intros (Hn & Hown & Hstop). induction fuel as [|fuel IH]; intros j count Hj Hf;
    [lia|].
  cbn [Gomoku.count_while].
  destruct (decide (j = n + 1)) as [->|Hne].
  - destruct (_ && _) eqn:Htest.
    + by apply Gomoku_own_test in Htest.
    + f_equal. lia.
  - assert (Gomoku_own board player (r0 + j * sr) (c0 + j * sc)) as Hj'
      by (apply Hown; lia).
    apply Gomoku_own_test in Hj'. rewrite Hj'.
    replace (r0 + j * sr + sr) with (r0 + (j + 1) * sr) by lia.
    replace (c0 + j * sc + sc) with (c0 + (j + 1) * sc) by lia.
    rewrite IH by lia. f_equal. lia.
Qed.

Lemma Gomoku_own_in_range board player r c :
  Gomoku_own board player r c → in_range r c = true.
Proof. by intros [? _]. Qed.

Lemma GomokuGame_own_in_range board player r c :
  GomokuGame_own board player r c → in_range r c = true.
Proof. by intros [? _]. Qed.

(** [countLine] returns the length of the run through the cell. *)
Lemma countLine_run board row col d (fuel : nat) :
  in_range row col = true → d ∈ AXES → (15 ≤ fuel)%nat →
  ∃ n, Gomoku.countLine fuel board row col d.1 d.2 (Gomoku.cell board row col)
       = Some n ∧
       run_through (Gomoku_own board (Gomoku.cell board row col))
         row col d.1 d.2 n.
Proof.
  intros Hin [Hfwd Hbwd]%axis_step_AXES Hfuel.
  set (player := Gomoku.cell board row col).
  destruct (extent_exists (Gomoku_own board player)
              (Gomoku_own_in_range board player) row col _ _ Hfwd Hin)
    as (b & Hb & Hb15).
  destruct (extent_exists (Gomoku_own board player)
              (Gomoku_own_in_range board player) row col _ _ Hbwd Hin)
    as (a & Ha & Ha15).
  pose proof Ha as [Ha0 _]. pose proof Hb as [Hb0 _].
  unfold BOARD_SIZE in *. exists (a + 1 + b). split.
  - unfold Gomoku.countLine.
    replace (row + d.1) with (row + 1 * d.1) by lia.
    replace (col + d.2) with (col + 1 * d.2) by lia.
    rewrite (count_while_extent _ _ _ _ _ _ _ Hb) by lia. simpl.
    replace (row - d.1) with (row + 1 * - d.1) by lia.
    replace (col - d.2) with (col + 1 * - d.2) by lia.
    rewrite (count_while_extent _ _ _ _ _ _ _ Ha) by lia. f_equal. lia.
  - split; [by split|]. by exists a, b.
Qed.

Lemma any_line_run board row col (fuel : nat) dirs :
  in_range row col = true → (15 ≤ fuel)%nat → dirs ⊆ AXES →
  ∃ res, Gomoku.any_line fuel board row col (Gomoku.cell board row col) dirs
         = Some res ∧
         (res = true ↔
          ∃ d n, d ∈ dirs ∧
                 run_through (Gomoku_own board (Gomoku.cell board row col))
                   row col d.1 d.2 n ∧ 5 <= n).
Proof.
  intros Hin Hfuel. induction dirs as [|d dirs IH]; intros Hsub.
  - exists false. split; [done|]. split; [done|].
    by intros (d & n & ?%elem_of_nil & _).
  - destruct (countLine_run board row col d fuel) as (n & Hn & Hrun);
      [done|apply Hsub, elem_of_cons; by left|done|].
    cbn [Gomoku.any_line]. rewrite Hn. simpl.
    destruct (n >=? Gomoku.WIN_COUNT) eqn:Hwin.
    + exists true. split; [done|]. split; [|done]. intros _.
      exists d, n. split; [apply elem_of_cons; by left|].
      unfold Gomoku.WIN_COUNT in Hwin. split; [done|lia].
    + destruct IH as (res & Hres & Hiff).
      { intros x Hx. apply Hsub, elem_of_cons. by right. }
      exists res. split; [done|]. rewrite Hiff. split.
      * intros (d' & n' & Hd' & ?). exists d', n'.
        split; [apply elem_of_cons; by right|done].
      * intros (d' & n' & [->|Hd']%elem_of_cons & Hrun' & Hn'); [|eauto].
        rewrite (run_through_unique _ _ _ _ _ _ _ Hrun' Hrun) in Hn'.
        unfold Gomoku.WIN_COUNT in Hwin. lia.
Qed.

(** A counting loop of [GomokuGame::checkWin] over [j, j+1, ...] ([len]
    values) counts the extent up to the last index of the loop. *)
Lemma count_dir_extent board player r c dr dc sgn n :
  extent (GomokuGame_own board player) r c (sgn * dr) (sgn * dc) n →
  ∀ (len : nat) j count,
    1 <= j <= n + 1 →
    GomokuGame.count_dir board r c dr dc sgn player (seqZ j (Z.of_nat len)) count
    = count + (Z.min n (j + Z.of_nat len - 1) + 1 - j).
Proof.
  intros (Hn & Hown & Hstop). induction len as [|len IH]; intros j count Hj.
  - simpl. lia.
  - rewrite seqZ_cons by lia.
    replace (Z.pred (Z.of_nat (S len))) with (Z.of_nat len) by lia.
    replace (Z.succ j) with (j + 1) by lia.
    cbn [GomokuGame.count_dir].
    replace (r + sgn * j * dr) with (r + j * (sgn * dr)) by lia.
    replace (c + sgn * j * dc) with (c + j * (sgn * dc)) by lia.
    destruct (decide (j = n + 1)) as [->|Hne].
    + destruct (_ && _) eqn:Htest.
      * by apply GomokuGame_own_test in Htest.
      * lia.
    + assert (GomokuGame_own board player (r + j * (sgn * dr))
                (c + j * (sgn * dc))) as Hj' by (apply Hown; lia).
      apply GomokuGame_own_test in Hj'. rewrite Hj', IH by lia. lia.
Qed.

Lemma for_first_flag {A} (p : A → bool) (l : list A) :
  default false (for_first l (λ x, if p x then Some true else None)) = true
  ↔ ∃ x, x ∈ l ∧ p x = true.
Proof.
  induction l as [|x l IH]; simpl.
  - split; [done|]. by intros (x & ?%elem_of_nil & _).
  - destruct (p x) eqn:Hp; simpl.
    + split; [|done]. intros _. exists x. split; [apply elem_of_cons; by left|done].
    + rewrite IH. split.
      * intros (y & Hy & Hpy). exists y. split; [apply elem_of_cons; by right|done].
      * intros (y & [->|Hy]%elem_of_cons & Hpy); [congruence|eauto].
Qed.

Lemma GomokuGame_checkWin_run (g : GomokuGame.t) (m : GomokuGame.Move)
    (player : GomokuGame.Cell) :
  in_range (GomokuGame.row m) (GomokuGame.col m) = true →
  GomokuGame.cell (GomokuGame.board g) (GomokuGame.row m) (GomokuGame.col m)
    = player →
  GomokuGame.checkWin g m player = true ↔
  five_through (GomokuGame_own (GomokuGame.board g) player)
    (GomokuGame.row m) (GomokuGame.col m).
Proof.
  intros Hin Hcell. unfold GomokuGame.checkWin.
  pose proof Hin as Hin'. apply in_range_spec in Hin'.
  replace (GomokuGame.row m =? -1) with false by lia.
  set (own := GomokuGame_own (GomokuGame.board g) player).
  rewrite for_first_flag. unfold five_through.
  assert (∀ d, d ∈ AXES →
    ∃ a b, extent own (GomokuGame.row m) (GomokuGame.col m) (- d.1) (- d.2) a ∧
           extent own (GomokuGame.row m) (GomokuGame.col m) d.1 d.2 b ∧
           GomokuGame.count_dir (GomokuGame.board g) (GomokuGame.row m)
             (GomokuGame.col m) d.1 d.2 (-1) player (ints 1 WIN_LENGTH)
             (GomokuGame.count_dir (GomokuGame.board g) (GomokuGame.row m)
                (GomokuGame.col m) d.1 d.2 1 player (ints 1 WIN_LENGTH) 1)
           = 1 + Z.min b 4 + Z.min a 4) as Hcount.
  { intros d [Hfwd Hbwd]%axis_step_AXES.
    destruct (extent_exists own (GomokuGame_own_in_range _ player)
                (GomokuGame.row m) (GomokuGame.col m) _ _ Hfwd Hin)
      as (b & Hb & _).
    destruct (extent_exists own (GomokuGame_own_in_range _ player)
                (GomokuGame.row m) (GomokuGame.col m) _ _ Hbwd Hin)
      as (a & Ha & _).
    exists a, b. split; [done|]. split; [done|].
    pose proof Ha as [Ha0 _]. pose proof Hb as [Hb0 _].
    change (ints 1 WIN_LENGTH) with (seqZ 1 (Z.of_nat 4)).
    rewrite (count_dir_extent _ player _ _ d.1 d.2 1 b);
      [|by rewrite !Z.mul_1_l|lia].
    rewrite (count_dir_extent _ player _ _ d.1 d.2 (-1) a); [|  |lia].
    - lia.
    - by replace (-1 * d.1) with (- d.1) by lia;
        replace (-1 * d.2) with (- d.2) by lia. }
  split.
  - intros (d & Hd & Hge). destruct (Hcount d Hd) as (a & b & Ha & Hb & Heq).
    rewrite Heq in Hge. exists d, (a + 1 + b). split; [done|].
    split; [|unfold WIN_LENGTH in Hge; lia].
    split; [by split|]. by exists a, b.
  - intros (d & n & Hd & Hrun & Hn). exists d. split; [done|].
    destruct (Hcount d Hd) as (a & b & Ha & Hb & Heq). rewrite Heq.
    assert (n = a + 1 + b) as ->.
    { eapply (run_through_unique own); [exact Hrun|].
      split; [by split|]. by exists a, b. }
    pose proof Ha as [Ha0 _]. pose proof Hb as [Hb0 _].
    unfold WIN_LENGTH. lia.
Qed.

(** C3.  For every board and every occupied in-range cell, [checkWinFast]
    (built on [countLine]) returns, and returns true exactly when along one
    of the four axes the contiguous run of the cell's side extending both
    ways through the cell has length at least five.  [GomokuGame::checkWin],
    called on a cell holding [player], is true under the same condition. *)
Theorem check_win_through_iff_run :
  (∀ (board : Grid Z) (row col : Z) (fuel : nat),
     in_range row col = true → Gomoku.cell board row col ≠ 0 →
     (15 ≤ fuel)%nat →
     ∃ res, Gomoku.checkWinFast fuel board row col = Some res ∧
            (res = true ↔
             five_through (Gomoku_own board (Gomoku.cell board row col))
               row col)) ∧
  (∀ (g : GomokuGame.t) (m : GomokuGame.Move) (player : GomokuGame.Cell),
     in_range (GomokuGame.row m) (GomokuGame.col m) = true →
     player ≠ GomokuGame.EMPTY →
     GomokuGame.cell (GomokuGame.board g) (GomokuGame.row m) (GomokuGame.col m)
       = player →
     GomokuGame.checkWin g m player = true ↔
     five_through (GomokuGame_own (GomokuGame.board g) player)
       (GomokuGame.row m) (GomokuGame.col m)).
Proof.
  split.
  - intros board row col fuel Hin _ Hfuel. unfold Gomoku.checkWinFast.
    destruct (any_line_run board row col fuel AXES) as (res & Hres & Hiff);
      [done..|].
    exists res. split; [exact Hres|]. by rewrite Hiff.
  - intros g m player Hin _ Hcell. by apply GomokuGame_checkWin_run.
Qed.

Lemma check_win_through_iff_run_witness :
  (∃ res, Gomoku.checkWinFast 15 five_in_row 7 5 = Some res ∧
          (res = true ↔
           five_through (Gomoku_own five_in_row (Gomoku.cell five_in_row 7 5))
             7 5)) ∧
  (GomokuGame.checkWin diagonal_five (GomokuGame.mkMove 4 4) GomokuGame.BLACK
     = true ↔
   five_through (GomokuGame_own (GomokuGame.board diagonal_five) GomokuGame.BLACK)
     4 4).
Proof.
  split.
  - apply (proj1 check_win_through_iff_run five_in_row 7 5 15%nat);
      [reflexivity | by vm_compute | lia].
  - apply (proj2 check_win_through_iff_run diagonal_five
             (GomokuGame.mkMove 4 4) GomokuGame.BLACK);
      [reflexivity | done | reflexivity].
Defined.

(** A run of exactly five is detected through each of its five cells, in
    both variants; a run broken by an empty cell is not reported. *)
Example five_detected_through_each_cell :
  Forall (λ c, Gomoku.checkWinFast 15 five_in_row 7 c = Some true)
         [3; 4; 5; 6; 7] ∧
  Forall (λ k, GomokuGame.checkWin diagonal_five (GomokuGame.mkMove k k)
                 GomokuGame.BLACK = true)
         [2; 3; 4; 5; 6].
Proof. split; repeat constructor. Qed.

Example gap_not_reported :
  Forall (λ c, Gomoku.checkWinFast 15 four_with_gap 7 c = Some false)
         [3; 4; 6; 7].
Proof. repeat constructor. Qed.

(** ** The search leaves the board as it found it *)

Lemma place_remove_move b mv stone :
  valid_move b mv →
  removeStone (placeStone b (row mv) (col mv) stone).2 (row mv) (col mv) = b.
Proof. apply place_remove. Qed.

Lemma search_ok_place b mv stone :
  valid_move b mv → 0 <= moveCount b →
  search_ok (placeStone b (row mv) (col mv) stone).2.
Proof.
  intros Hv Hn. unfold valid_move in Hv. rewrite placeStone_valid by done.
  unfold search_ok. simpl. lia.
Qed.

Lemma getRelevantMoves_valid b range :
  search_ok b → Forall (valid_move b) (getRelevantMoves b range).
Proof.
  intros [Hn Hcentre]. destruct (decide (moveCount b = 0)) as [Hz|Hnz].
  - unfold getRelevantMoves. rewrite Hz. simpl. apply Forall_singleton.
    by apply Hcentre.
  - apply Forall_forall. intros p Hp.
    apply (getRelevantMoves_nonzero b range Hnz) in Hp as (Hin & He & _).
    by apply isValidMove_spec.
Qed.

Lemma count_stones_zero (g : Grid Stone) r c s :
  count_stones g = 0%nat → array_at g r c = Some s → s = EMPTY.
Proof.
  unfold count_stones, array_at.
  destruct ((0 <=? r) && (0 <=? c)); [|done]. intros Hz Hat.
  destruct (g !! Z.to_nat r) as [rw|] eqn:Hg; [|done]. simpl in Hat.
  rewrite <- (take_drop_middle g _ rw Hg), sum_list_with_app in Hz.
  simpl in Hz. assert (count_row rw = 0%nat) as Hrow by lia.
  unfold count_row in Hrow. apply nil_length_inv in Hrow.
  destruct (decide (s = EMPTY)) as [|Hs]; [done|].
  assert (s ∈ filter (λ s, s ≠ EMPTY) rw) as Hin.
  { apply list_elem_of_filter. split; [done|]. by eapply list_elem_of_lookup_2. }
  rewrite Hrow in Hin. by apply elem_of_nil in Hin.
Qed.

(** The invariant of the data model gives the search what it needs. *)
Lemma board_inv_search_ok b : board_inv b → search_ok b.
Proof.
  intros (Hok & Hcnt & _). split; [lia|]. intros Hz.
  apply isValidMove_spec. split; [done|].
  assert (in_range (BOARD_SIZE ÷ 2) (BOARD_SIZE ÷ 2) = true) as Hin by done.
  pose proof (cell_array_at b _ _ Hok Hin) as Hat.
  eapply count_stones_zero; [|exact Hat]. lia.
Qed.

Lemma reachable_board_inv b : reachable b → board_inv b.
Proof.
  intros (ms & Hrep & Hne)%reachable_replay.
  by destruct (replay_inv ms b Hrep Hne) as (_ & ? & _).
Qed.

Lemma win_or_block_frame ai moves b :
  Forall (valid_move b) moves → (win_or_block ai moves b).2 = b.
Proof.
  induction 1 as [|mv moves Hv _ IH]; [done|].
  cbn [win_or_block]. rewrite !place_remove_move by done.
  repeat case_bool_decide; simpl; by rewrite ?place_remove_move.
Qed.

Section SearchFrame.
Variable std_sort : list MoveScore → list MoveScore.
Hypothesis std_sort_perm : ∀ l, std_sort l ≡ₚ l.

Lemma score_moves_frame b stone moves :
  Forall (valid_move b) moves →
  ∀ acc, ∃ acc', score_moves b moves stone acc = (acc', b) ∧
                 move <$> acc' = (move <$> acc) ++ moves.
Proof.
  induction 1 as [|mv moves Hv _ IH]; intros acc.
  - exists acc. by rewrite app_nil_r.
  - cbn [score_moves]. rewrite place_remove_move by done.
    destruct (IH (acc ++ [mkMoveScore mv
      (if bool_decide (checkWin (placeStone b (row mv) (col mv) stone).2 ≠ ONGOING)
       then INFINITY_SCORE
       else if isThreat (placeStone b (row mv) (col mv) stone).2 mv
                 (if bool_decide (stone = BLACK) then WHITE else BLACK)
            then evaluatePosition (placeStone b (row mv) (col mv) stone).2 stone
                 + 5000
            else evaluatePosition (placeStone b (row mv) (col mv) stone).2 stone)]))
      as (acc' & Heq & Hmoves).
    exists acc'. split; [exact Heq|].
    rewrite Hmoves, fmap_app. simpl. by rewrite <- app_assoc.
Qed.

Lemma orderMoves_frame b moves stone :
  Forall (valid_move b) moves →
  ∃ moves', orderMoves std_sort b moves stone = (moves', b) ∧
            Forall (valid_move b) moves'.
Proof.
  intros Hv. unfold orderMoves.
  destruct (score_moves_frame b stone moves Hv []) as (acc' & -> & Hmoves).
  eexists. split; [done|]. apply Forall_take.
  by rewrite std_sort_perm, Hmoves.
Qed.

Section Loops.
Variables (rec : Board → Z → Z → bool → option (Z * Board)) (ai : GomokuAI).
Hypothesis rec_frame : ∀ b alpha beta isMax,
  search_ok b → ∃ v, rec b alpha beta isMax = Some (v, b).

Lemma max_loop_frame moves : ∀ b alpha beta maxEval,
  0 <= moveCount b → Forall (valid_move b) moves →
  ∃ v, max_loop rec ai moves b alpha beta maxEval = Some (v, b).
Proof.
  induction moves as [|mv moves IH]; intros b alpha beta maxEval Hn Hv.
  - by eexists.
  - apply Forall_cons in Hv as [Hmv Hv]. cbn [max_loop].
    destruct (rec_frame (placeStone b (row mv) (col mv) (myStone ai)).2
                alpha beta false) as (v & ->); [by apply search_ok_place|].
    simpl. rewrite place_remove_move by done.
    destruct (beta <=? Z.max alpha v); [by eexists|by apply IH].
Qed.

Lemma min_loop_frame moves : ∀ b alpha beta minEval,
  0 <= moveCount b → Forall (valid_move b) moves →
  ∃ v, min_loop rec ai moves b alpha beta minEval = Some (v, b).
Proof.
  induction moves as [|mv moves IH]; intros b alpha beta minEval Hn Hv.
  - by eexists.
  - apply Forall_cons in Hv as [Hmv Hv]. cbn [min_loop].
    destruct (rec_frame (placeStone b (row mv) (col mv) (opponentStone ai)).2
                alpha beta true) as (v & ->); [by apply search_ok_place|].
    simpl. rewrite place_remove_move by done.
    destruct (Z.min beta v <=? alpha); [by eexists|by apply IH].
Qed.
End Loops.

(** [minimax] returns, with the board it was given, as soon as the fuel
    exceeds the number of plies left to [maxDepth]. *)
Lemma minimax_frame ai (fuel : nat) : ∀ b depth alpha beta isMaximizing,
  search_ok b → (1 ≤ fuel)%nat → maxDepth ai - depth < Z.of_nat fuel →
  ∃ v, minimax std_sort fuel ai b depth alpha beta isMaximizing = Some (v, b).
Proof.
  induction fuel as [|fuel IH]; intros b depth alpha beta isMax Hok Hf Hd; [lia|].
  cbn [minimax]. case_bool_decide as Hstatus.
  { case_bool_decide; by eexists. }
  destruct (depth >=? maxDepth ai) eqn:Hdepth; [by eexists|].
  pose proof (getRelevantMoves_valid b 2 Hok) as Hvalid.
  destruct (getRelevantMoves b 2) as [|first rest] eqn:Hmoves; [by eexists|].
  destruct (orderMoves_frame b (first :: rest)
              (if isMax then myStone ai else opponentStone ai) Hvalid)
    as (moves' & -> & Hvalid').
  destruct Hok as [Hn _].
  destruct isMax.
  - apply max_loop_frame; [|done..]. intros. apply IH; [done|lia..].
  - apply min_loop_frame; [|done..]. intros. apply IH; [done|lia..].
Qed.

Lemma best_loop_frame ai (fuel : nat) moves : ∀ b rng bestMove bestScore,
  0 <= moveCount b → Forall (valid_move b) moves →
  (1 ≤ fuel)%nat → maxDepth ai - 1 < Z.of_nat fuel →
  ∃ mv rng',
    best_loop std_sort fuel ai moves b rng bestMove bestScore
    = Some (mv, rng', b).
Proof.
  induction moves as [|mv moves IH]; intros b rng bestMove bestScore Hn Hv Hf Hd.
  - by do 2 eexists.
  - apply Forall_cons in Hv as [Hmv Hv]. cbn [best_loop].
    destruct (minimax_frame ai fuel
                (placeStone b (row mv) (col mv) (myStone ai)).2 1
                (- INFINITY_SCORE) INFINITY_SCORE false) as (v & ->);
      [by apply search_ok_place|done..|].
    simpl. rewrite place_remove_move by done.
    destruct (_ >? bestScore); by apply IH.
Qed.

Lemma getBestMove_frame ai (fuel : nat) rng b :
  search_ok b → (1 ≤ fuel)%nat → maxDepth ai - 1 < Z.of_nat fuel →
  ∃ mv rng', getBestMove std_sort fuel ai rng b = Some (mv, rng', b).
Proof.
  intros Hok Hf Hd. unfold getBestMove.
  pose proof (getRelevantMoves_valid b 2 Hok) as Hvalid.
  destruct (getRelevantMoves b 2) as [|first rest] eqn:Hmoves;
    [by do 2 eexists|].
  pose proof (win_or_block_frame ai (first :: rest) b Hvalid) as Hwb.
  destruct (win_or_block ai (first :: rest) b) as [[mv|] b'];
    simpl in Hwb; subst b'; [by do 2 eexists|].
  destruct (orderMoves_frame b (first :: rest) (myStone ai) Hvalid)
    as (moves' & -> & Hvalid').
  destruct Hok as [Hn _]. by apply best_loop_frame.
Qed.
End SearchFrame.

Lemma reachable_play moves : ∀ b stone,
  reachable b → stone ≠ EMPTY → play_ok b stone moves = true →
  reachable (play b stone moves).
Proof.
  induction moves as [|[r c] moves IH]; intros b stone Hb Hs Hok; [done|].
  simpl in *. apply andb_true_iff in Hok as [Hv Hok].
  apply IH; [|by case_bool_decide|done].
  apply (reachable_place b r c stone); [done|done|].
  by rewrite placeStone_valid.
Qed.

Lemma insert_desc_perm x l : insert_desc x l ≡ₚ x :: l.
Proof.
  induction l as [|y l IH]; simpl; [done|].
  destruct (score x >=? score y); [done|]. by rewrite IH, Permutation_swap.
Qed.

Lemma insertion_sort_perm l : insertion_sort l ≡ₚ l.
Proof.
  unfold insertion_sort. induction l as [|x l IH]; simpl; [done|].
  by rewrite insert_desc_perm, IH.
Qed.

(** C2.  For every board that satisfies the invariant of the data model
    (counter = number of stones = history length) and every side and depth,
    a call of [getBestMove] returns, given fuel for [maxDepth] nested calls,
    and the board after the call is the board before it: cell grid, move
    history and move counter.  The same holds for every call of [minimax]
    on such a board.  All exits are covered: the early returns of the
    win-or-block loop, the pruning breaks and the terminal returns. *)
Theorem getBestMove_restores_board
    (std_sort : list MoveScore → list MoveScore) (ai : GomokuAI) (fuel : nat)
    (rng : Rng) (b : Board) :
  (∀ l, std_sort l ≡ₚ l) →
  board_inv b →
  (1 ≤ fuel)%nat → maxDepth ai - 1 < Z.of_nat fuel →
  (∃ mv rng' b',
     getBestMove std_sort fuel ai rng b = Some (mv, rng', b') ∧
     b' = b ∧ board b' = board b ∧ moveHistory b' = moveHistory b ∧
     moveCount b' = moveCount b) ∧
  (∀ depth alpha beta isMaximizing,
     maxDepth ai - depth < Z.of_nat fuel →
     ∃ v, minimax std_sort fuel ai b depth alpha beta isMaximizing
          = Some (v, b)).
Proof.
  intros Hsort Hinv%board_inv_search_ok Hf Hd. split.
  - destruct (getBestMove_frame std_sort Hsort ai fuel rng b Hinv Hf Hd)
      as (mv & rng' & Heq).
    by exists mv, rng', b.
  - intros depth alpha beta isMax Hdepth. by apply minimax_frame.
Qed.

Lemma getBestMove_restores_board_witness :
  let b := play newBoard BLACK [(7, 7); (6, 8); (8, 8)] in
  let ai := newGomokuAI WHITE 2 in
  (∃ mv rng' b',
     getBestMove insertion_sort 2 ai (rng_of [3; 1; 4; 1; 5]) b
       = Some (mv, rng', b') ∧
     b' = b ∧ board b' = board b ∧ moveHistory b' = moveHistory b ∧
     moveCount b' = moveCount b) ∧
  (∀ depth alpha beta isMaximizing,
     maxDepth ai - depth < Z.of_nat 2 →
     ∃ v, minimax insertion_sort 2 ai b depth alpha beta isMaximizing
          = Some (v, b)).
Proof.
  intros b ai.
  apply (getBestMove_restores_board insertion_sort ai 2 (rng_of [3; 1; 4; 1; 5]) b).
  - apply insertion_sort_perm.
  - apply reachable_board_inv, reachable_play;
      [apply reachable_new | done | reflexivity].
  - lia.
  - simpl. lia.
Defined.

(** ** The win-or-block loop *)

(** On valid candidates the first loop of [getBestMove] returns the first
    candidate, in candidate order, at which a stone of either side ends the
    game. *)
Lemma win_or_block_first ai moves b :
  Forall (valid_move b) moves →
  (win_or_block ai moves b).1 =
    List.find (λ mv, ends_game b mv (myStone ai)
                     || ends_game b mv (opponentStone ai)) moves.
Proof.
  induction 1 as [|mv moves Hv _ IH]; [done|].
  cbn [win_or_block List.find]. unfold ends_game at 1 2.
  rewrite !place_remove_move by done.
  repeat case_bool_decide; simpl; done.
Qed.

(** C1, at the failing input.  After B(9,3) W(7,3) B(9,4) W(7,4) B(9,5)
    W(7,5) B(9,6) W(7,6) it is Black's turn and the game is open.  Black
    completes five at the candidate (9,2); [getBestMove] for Black, at any
    depth, returns (7,2), where Black's stone does not win: White's stone
    there would, and (7,2) comes before (9,2) in candidate order. *)
Lemma getBestMove_blocks_before_winning :
  let b := play newBoard BLACK
             [(9, 3); (7, 3); (9, 4); (7, 4); (9, 5); (7, 5); (9, 6); (7, 6)] in
  reachable b ∧
  checkWin b = ONGOING ∧
  mkPosition 9 2 ∈ getRelevantMoves b 2 ∧
  checkWin (placeStone b 9 2 BLACK).2 = BLACK_WIN ∧
  checkWin (placeStone b 7 2 BLACK).2 = ONGOING ∧
  checkWin (placeStone b 7 2 WHITE).2 = WHITE_WIN ∧
  ∀ std_sort fuel depth rng,
    getBestMove std_sort fuel (newGomokuAI BLACK depth) rng b
    = Some (mkPosition 7 2, rng, b).
Proof.
  intros b. split.
  { apply reachable_play; [apply reachable_new | done | reflexivity]. }
  split; [reflexivity|]. split.
  { apply list_elem_of_In. vm_compute. tauto. }
  split; [reflexivity|]. split; [reflexivity|]. split; [reflexivity|].
  intros std_sort fuel depth rng. reflexivity.
Qed.

(** When some candidate ends the game for either side, the call returns the
    first such candidate whatever the depth, the ordering and the draws. *)
Lemma getBestMove_win_or_block std_sort (fuel : nat) ai rng b mv :
  search_ok b →
  List.find (λ mv, ends_game b mv (myStone ai)
                   || ends_game b mv (opponentStone ai))
            (getRelevantMoves b 2) = Some mv →
  getBestMove std_sort fuel ai rng b = Some (mv, rng, b).
Proof.
  intros Hok Hfind. unfold getBestMove.
  pose proof (getRelevantMoves_valid b 2 Hok) as Hvalid.
  destruct (getRelevantMoves b 2) as [|first rest] eqn:Hmoves; [done|].
  pose proof (win_or_block_frame ai (first :: rest) b Hvalid) as Hb.
  pose proof (win_or_block_first ai (first :: rest) b Hvalid) as Hmv.
  destruct (win_or_block ai (first :: rest) b) as [o b']. simpl in *.
  by rewrite Hb, Hmv, Hfind.
Qed.

(** The blocking half of C1 holds: when no candidate wins at once for the
    side to move and some candidate would for the opponent, the call returns
    a candidate on which the opponent's stone would end the game. *)
Lemma getBestMove_blocks std_sort (fuel : nat) ai rng b :
  search_ok b →
  (∀ mv, mv ∈ getRelevantMoves b 2 → ends_game b mv (myStone ai) = false) →
  (∃ mv, mv ∈ getRelevantMoves b 2 ∧ ends_game b mv (opponentStone ai) = true) →
  ∃ mv, getBestMove std_sort fuel ai rng b = Some (mv, rng, b) ∧
        mv ∈ getRelevantMoves b 2 ∧
        ends_game b mv (opponentStone ai) = true.
Proof.
  intros Hok Hnowin (mv0 & Hmv0 & Hblock).
  destruct (List.find (λ mv, ends_game b mv (myStone ai)
                             || ends_game b mv (opponentStone ai))
                      (getRelevantMoves b 2)) as [mv|] eqn:Hfind.
  - exists mv. split; [by apply getBestMove_win_or_block|].
    apply List.find_some in Hfind as [Hin Hends].
    apply list_elem_of_In in Hin. split; [done|].
    by rewrite (Hnowin mv Hin) in Hends.
  - apply list_elem_of_In in Hmv0.
    pose proof (List.find_none _ _ Hfind mv0 Hmv0) as Hnone. simpl in Hnone.
    rewrite Hblock, orb_true_r in Hnone. done.
Qed.

(** ** The chosen move and the random draws *)

(** C7 as stated fails.  With Black on (0,0), White on (0,1), Black to move
    and depth 1, the two best root candidates score 203 at (1,1) and 202 at
    (1,0), every other candidate at most 8.  When all draws are 0 each score
    loses 5 and (1,1) is returned; when the second draw is 9 the score of
    (1,0) becomes 206 and (1,0) is returned. *)
Lemma getBestMove_varies_with_draws :
  let b := play newBoard BLACK [(0, 0); (0, 1)] in
  let ai := newGomokuAI BLACK 1 in
  outcome (getBestMove insertion_sort 1 ai (rng_of []) b)
    = Some (mkPosition 1 1, b) ∧
  outcome (getBestMove insertion_sort 1 ai (rng_of [0; 9]) b)
    = Some (mkPosition 1 0, b).
Proof. split; vm_compute; reflexivity. Qed.

Lemma best_loop_draws std_sort (fuel : nat) ai moves :
  ∀ b rng1 rng2 bestMove bestScore,
    (∀ i, draws rng1 (drawn rng1 + i) `mod` 10
          = draws rng2 (drawn rng2 + i) `mod` 10) →
    outcome (best_loop std_sort fuel ai moves b rng1 bestMove bestScore)
    = outcome (best_loop std_sort fuel ai moves b rng2 bestMove bestScore).
Proof.
  induction moves as [|mv moves IH]; intros b rng1 rng2 bestMove bestScore Hd;
    [done|].
  cbn [best_loop].
  destruct (minimax std_sort fuel ai _ 1 _ _ false) as [[v b']|]; [|done].
  simpl. pose proof (Hd 0%nat) as H0. rewrite !Nat.add_0_r in H0. rewrite H0.
  assert (∀ i, draws rng1 (S (drawn rng1) + i) `mod` 10
               = draws rng2 (S (drawn rng2) + i) `mod` 10) as Hd'.
  { intros i. specialize (Hd (S i)). by rewrite !Nat.add_succ_r in Hd. }
  destruct (_ >? bestScore); by apply IH.
Qed.

(** C7, amended.  The move (and the board) a call of [getBestMove] results
    in is a function of the board, the side, the depth and the residues
    modulo 10 of the values the generator yields during the call: two calls
    on the same board whose draws agree modulo 10 choose the same move. *)
Theorem getBestMove_deterministic_in_draws
    (std_sort : list MoveScore → list MoveScore) (fuel : nat) (ai : GomokuAI)
    (b : Board) (rng1 rng2 : Rng) :
  (∀ i, draws rng1 (drawn rng1 + i) `mod` 10
        = draws rng2 (drawn rng2 + i) `mod` 10) →
  outcome (getBestMove std_sort fuel ai rng1 b)
  = outcome (getBestMove std_sort fuel ai rng2 b).
Proof.
  intros Hd. unfold getBestMove.
  destruct (getRelevantMoves b 2) as [|first rest]; [done|].
  destruct (win_or_block ai (first :: rest) b) as [[mv|] b']; [done|].
  destruct (orderMoves std_sort b' (first :: rest) (myStone ai)) as [moves b''].
  by apply best_loop_draws.
Qed.

Lemma getBestMove_deterministic_in_draws_witness :
  let b := play newBoard BLACK [(0, 0); (0, 1)] in
  let ai := newGomokuAI BLACK 1 in
  outcome (getBestMove insertion_sort 1 ai (rng_of [3; 14; 25]) b)
  = outcome (getBestMove insertion_sort 1 ai (rng_of [13; 4; 35]) b).
Proof.
  intros b ai.
  apply (getBestMove_deterministic_in_draws insertion_sort 1 ai b
           (rng_of [3; 14; 25]) (rng_of [13; 4; 35])).
  intros [|[|[|[|i]]]]; reflexivity.
Defined.

(** *** The counterexample does not hinge on how ties are sorted *)

(** A sorted rearrangement of [x :: l] starts with [x] when [x] scores
    strictly above every element of [l]. *)
Lemma sorted_perm_head (x : MoveScore) (l L : list MoveScore) :
  L ≡ₚ x :: l →
  StronglySorted (λ x y, score y <= score x) L →
  Forall (λ y, score y < score x) l →
  ∃ L', L = x :: L' ∧ L' ≡ₚ l ∧
        StronglySorted (λ x y, score y <= score x) L'.
Proof.
  intros Hperm Hsorted Hlow. destruct L as [|h T].
  { by apply Permutation_nil_cons in Hperm. }
  apply StronglySorted_inv in Hsorted as [HT Hh].
  rewrite Forall_forall in Hlow, Hh.
  assert (h ∈ x :: l) as Hhin by (rewrite <- Hperm; apply elem_of_cons; by left).
  apply elem_of_cons in Hhin as [->|Hhl].
  - exists T. split; [done|]. split; [|done]. by apply Permutation_cons_inv in Hperm.
  - assert (x ∈ h :: T) as Hx by (rewrite Hperm; apply elem_of_cons; by left).
    pose proof (Hlow h Hhl) as Hlt.
    apply elem_of_cons in Hx as [->|HxT]; [lia|].
    pose proof (Hh x HxT). simpl in *. lia.
Qed.

(** Root candidates whose value, with the largest bonus 4, stays below the
    best score so far do not change the choice. *)
Lemma best_loop_low std_sort (fuel : nat) ai moves :
  ∀ b rng bestMove bestScore,
    Forall (λ mv, valid_move b mv ∧
                  ∃ v, minimax std_sort fuel ai
                         (placeStone b (row mv) (col mv) (myStone ai)).2 1
                         (- INFINITY_SCORE) INFINITY_SCORE false
                       = Some (v, (placeStone b (row mv) (col mv) (myStone ai)).2)
                       ∧ v + 4 <= bestScore) moves →
    outcome (best_loop std_sort fuel ai moves b rng bestMove bestScore)
    = Some (bestMove, b).
Proof.
  induction moves as [|mv moves IH]; intros b rng bestMove bestScore Hlow;
    [done|].
  apply Forall_cons in Hlow as [(Hv & v & Hmm & Hle) Hlow].
  cbn [best_loop]. rewrite Hmm. simpl. rewrite place_remove_move by done.
  pose proof (Z.mod_pos_bound (draws rng (drawn rng)) 10 ltac:(lia)).
  replace (_ >? bestScore) with false by lia. by apply IH.
Qed.

(** For every sorting routine that meets the contract of [std::sort], the
    two calls of the counterexample return (1,1) and (1,0): the two leading
    scores 203 and 202 are strictly apart and every other candidate, even
    with the largest bonus, stays far below. *)
Lemma getBestMove_varies_for_any_sort std_sort :
  sort_contract std_sort →
  let b := play newBoard BLACK [(0, 0); (0, 1)] in
  let ai := newGomokuAI BLACK 1 in
  outcome (getBestMove std_sort 1 ai (rng_of []) b) = Some (mkPosition 1 1, b) ∧
  outcome (getBestMove std_sort 1 ai (rng_of [0; 9]) b) = Some (mkPosition 1 0, b).
Proof.
  intros Hsort b ai.
  set (first := mkMoveScore (mkPosition 1 1) 203).
  set (second := mkMoveScore (mkPosition 1 0) 202).
  set (tail := [mkMoveScore (mkPosition 1 2) 6; mkMoveScore (mkPosition 2 0) 5;
                mkMoveScore (mkPosition 2 1) 6; mkMoveScore (mkPosition 2 2) 7;
                mkMoveScore (mkPosition 0 3) 6; mkMoveScore (mkPosition 1 3) 7;
                mkMoveScore (mkPosition 2 3) 8]).
  set (low := mkMoveScore (mkPosition 0 2) 6).
  set (scored := [low; second; first] ++ tail).
  assert (score_moves b (getRelevantMoves b 2) BLACK [] = (scored, b)) as Hscored
    by (vm_compute; reflexivity).
  destruct (Hsort scored) as [Hperm Hsorted].
  destruct (sorted_perm_head first (second :: low :: tail) (std_sort scored))
    as (L1 & HL & Hperm1 & Hsorted1); [|done|by repeat constructor|].
  { rewrite Hperm. unfold scored.
    rewrite <- (Permutation_middle [low; second] tail first). simpl.
    apply Permutation_skip, Permutation_swap. }
  destruct (sorted_perm_head second (low :: tail) L1)
    as (L2 & -> & Hperm2 & _); [done|done|by repeat constructor|].
  assert (Forall (λ mv, valid_move b mv ∧
            ∃ v, minimax std_sort 1 ai
                   (placeStone b (row mv) (col mv) (myStone ai)).2 1
                   (- INFINITY_SCORE) INFINITY_SCORE false
                 = Some (v, (placeStone b (row mv) (col mv) (myStone ai)).2)
                 ∧ v + 4 <= 198)
            (move <$> L2)) as Hlow.
  { rewrite Hperm2.
    repeat constructor; (eexists; split; [vm_compute; reflexivity|done]). }
  assert (take 10 (move <$> std_sort scored)
          = mkPosition 1 1 :: mkPosition 1 0 :: (move <$> L2)) as Htake.
  { rewrite HL. apply take_ge. simpl. rewrite length_fmap.
    apply Permutation_length in Hperm2. rewrite Hperm2. simpl. lia. }
  assert (∀ rng, getBestMove std_sort 1 ai rng b
                 = best_loop std_sort 1 ai
                     (mkPosition 1 1 :: mkPosition 1 0 :: (move <$> L2)) b rng
                     (mkPosition 0 2) (- INFINITY_SCORE)) as Hcall.
  { intros rng. unfold getBestMove.
    replace (getRelevantMoves b 2) with
      (mkPosition 0 2 :: List.tl (getRelevantMoves b 2)) by (vm_compute; reflexivity).
    replace (win_or_block ai _ b) with (@None Position, b) by (vm_compute; reflexivity).
    unfold orderMoves.
    replace (mkPosition 0 2 :: List.tl (getRelevantMoves b 2))
      with (getRelevantMoves b 2) by (vm_compute; reflexivity).
    change (myStone ai) with BLACK. rewrite Hscored. by rewrite Htake. }
  assert (∀ r c v, isValidMove b r c = true →
            minimax std_sort 1 ai (placeStone b r c BLACK).2 1
              (- INFINITY_SCORE) INFINITY_SCORE false
            = Some (v, (placeStone b r c BLACK).2) →
            ∀ moves rng bestMove bestScore,
              best_loop std_sort 1 ai (mkPosition r c :: moves) b rng bestMove
                bestScore
              = let '(d, rng) := rng_next rng in
                let s := v + (d `mod` 10 - 5) in
                if s >? bestScore
                then best_loop std_sort 1 ai moves b rng (mkPosition r c) s
                else best_loop std_sort 1 ai moves b rng bestMove bestScore)
    as Hstep.
  { intros r c v Hv Hmm moves rng bestMove bestScore. cbn [best_loop].
    change (myStone ai) with BLACK. cbn [row col]. rewrite Hmm. simpl.
    by rewrite (place_remove b r c BLACK Hv). }
  rewrite !Hcall.
  rewrite !(Hstep 1 1 203) by (vm_compute; reflexivity).
  cbn [rng_next rng_of draws drawn nth]. 
  split.
  - change (203 + (0 `mod` 10 - 5) >? - INFINITY_SCORE) with true. cbv iota.
    rewrite (Hstep 1 0 202) by (vm_compute; reflexivity).
    cbn [rng_next draws drawn nth].
    change (202 + (0 `mod` 10 - 5) >? 203 + (0 `mod` 10 - 5)) with false. cbv iota.
    by apply best_loop_low.
  - change (203 + (0 `mod` 10 - 5) >? - INFINITY_SCORE) with true. cbv iota.
    rewrite (Hstep 1 0 202) by (vm_compute; reflexivity).
    cbn [rng_next draws drawn nth].
    change (202 + (9 `mod` 10 - 5) >? 203 + (0 `mod` 10 - 5)) with true. cbv iota.
    apply best_loop_low. eapply Forall_impl; [exact Hlow|].
    intros mv (Hv & v & Hmm & Hle). split; [done|]. exists v. split; [done|].
    change (202 + (9 `mod` 10 - 5)) with 206. lia.
Qed.

(** The insertion sort used in the examples meets that contract. *)
Lemma insert_desc_sorted x l :
  StronglySorted (λ x y, score y <= score x) l →
  StronglySorted (λ x y, score y <= score x) (insert_desc x l).
Proof.
  induction 1 as [|y l Hl IH Hy]; simpl; [by repeat constructor|].
  destruct (score x >=? score y) eqn:Hxy.
  - constructor; [by constructor|]. constructor; [lia|].
    eapply Forall_impl; [exact Hy|]. simpl. intros z Hz. lia.
  - constructor; [done|]. rewrite insert_desc_perm. constructor; [lia|done].
Qed.

Lemma insertion_sort_contract : sort_contract insertion_sort.
Proof.
  intros l. split; [apply insertion_sort_perm|].
  unfold insertion_sort. induction l as [|x l IH]; simpl; [constructor|].
  by apply insert_desc_sorted.
Qed.

(** ** The evaluator stays within 32-bit integers *)

Lemma getPatternScore_bounds pattern :
  0 <= getPatternScore pattern <= PatternScore.FIVE.
Proof.
  unfold getPatternScore.
  repeat match goal with |- context [if ?c then _ else _] => destruct c end;
    vm_compute; split; discriminate.
Qed.

Lemma foldl_drift {A} (f : Z → A → Z) (k : Z) (l : list A) :
  (∀ s x, x ∈ l → Z.abs (f s x - s) <= k) →
  ∀ s, Z.abs (foldl f s l - s) <= k * Z.of_nat (length l).
Proof.
  induction l as [|x l IH]; intros Hstep s; simpl foldl.
  - simpl. lia.
  - pose proof (Hstep s x ltac:(apply elem_of_cons; by left)).
    pose proof (IH (λ s y Hy, Hstep s y ltac:(apply elem_of_cons; by right))
                   (f s x)).
    rewrite length_cons. lia.
Qed.

Lemma evaluate_cell_drift b stone s r c :
  0 <= r < BOARD_SIZE → 0 <= c < BOARD_SIZE →
  Z.abs (evaluate_cell b stone s r c - s) <= 300015.
Proof.
  intros Hr Hc. unfold evaluate_cell, DIRECTIONS. simpl foldl.
  case_bool_decide; [lia|].
  pose proof (getPatternScore_bounds
                (analyzeLine b (mkPosition r c) 0 1 (getStone b r c))).
  pose proof (getPatternScore_bounds
                (analyzeLine b (mkPosition r c) 1 0 (getStone b r c))).
  pose proof (getPatternScore_bounds
                (analyzeLine b (mkPosition r c) 1 1 (getStone b r c))).
  unfold PatternScore.FIVE, BOARD_SIZE in *.
  change (15 ÷ 2) with 7. case_bool_decide; lia.
Qed.

(** X11.  No partial or final sum of [evaluatePosition] exceeds 225 * 300015
    in absolute value, well inside the range of a 32-bit [int]. *)
Lemma evaluatePosition_bounds b stone :
  Z.abs (evaluatePosition b stone) <= 67503375 ∧ 67503375 < 2 ^ 31.
Proof.
  split; [|done]. unfold evaluatePosition.
  pose proof (foldl_drift
    (λ score r, foldl (λ score c, evaluate_cell b stone score r c) score
                      (ints 0 BOARD_SIZE))
    (300015 * 15) (ints 0 BOARD_SIZE)) as Hrows.
  specialize (Hrows ltac:(
    intros s r Hr%elem_of_ints;
    pose proof (foldl_drift (λ score c, evaluate_cell b stone score r c)
                  300015 (ints 0 BOARD_SIZE)) as Hcols;
    specialize (Hcols ltac:(intros s' c Hc%elem_of_ints;
                            by apply evaluate_cell_drift) s);
    exact Hcols) 0).
  change (Z.of_nat (length (ints 0 BOARD_SIZE))) with 15 in Hrows.
  rewrite Z.sub_0_r in Hrows. lia.
Qed.

(* ================================================================== *)
(** * Further properties of the code *)

(** ** Board::checkWin, the scan of the whole board *)

Lemma for_first_None {A B} (l : list A) (body : A → option B) :
  for_first l body = None ↔ ∀ x, x ∈ l → body x = None.
Proof.
  induction l as [|x l IH]; simpl.
  - split; [|done]. by intros _ x ?%elem_of_nil.
  - destruct (body x) eqn:Hx.
    + split; [done|]. intros H. specialize (H x ltac:(apply elem_of_cons; by left)).
      congruence.
    + rewrite IH. split.
      * intros H y [->|Hy]%elem_of_cons; auto.
      * intros H y Hy. apply H, elem_of_cons. by right.
Qed.

Lemma for_first_Some {A B} (l : list A) (body : A → option B) y :
  for_first l body = Some y → ∃ x, x ∈ l ∧ body x = Some y.
Proof.
  induction l as [|x l IH]; simpl; [done|].
  destruct (body x) eqn:Hx.
  - intros [= ->]. exists x. split; [apply elem_of_cons; by left|done].
  - intros (x' & Hin & Hy)%IH. exists x'. split; [apply elem_of_cons; by right|done].
Qed.

(** The counting loop of [checkWin] reaches [count + length ix] exactly when
    every cell it visits holds [stone]. *)
Lemma count_positive_full b r c dr dc stone ix : ∀ count,
  count_positive b r c dr dc stone ix count <= count + Z.of_nat (length ix) ∧
  (count_positive b r c dr dc stone ix count = count + Z.of_nat (length ix) ↔
   ∀ i, i ∈ ix → getStone b (r + dr * i) (c + dc * i) = stone).
Proof.
  induction ix as [|i ix IH]; intros count; cbn [count_positive].
  - simpl. split; [lia|]. split; [by intros _ i ?%elem_of_nil|lia].
  - rewrite length_cons, Nat2Z.inj_succ. case_bool_decide as Hi.
    + split; [lia|]. split; [lia|]. intros H. destruct Hi. apply H.
      apply elem_of_cons. by left.
    + destruct (IH (count + 1)) as [Hle Hiff]. split; [lia|].
      replace (count + Z.succ (Z.of_nat (length ix)))
        with (count + 1 + Z.of_nat (length ix)) by lia.
      rewrite Hiff. split.
      * intros H j [->|Hj]%elem_of_cons; auto.
      * intros H j Hj. apply H, elem_of_cons. by right.
Qed.

Lemma count_positive_five b r c d stone :
  in_range r c = true → cell b r c = stone →
  (count_positive b r c d.1 d.2 stone (ints 1 WIN_LENGTH) 1 >=? WIN_LENGTH) = true
  ↔ ∀ i, 0 <= i < WIN_LENGTH → getStone b (r + d.1 * i) (c + d.2 * i) = stone.
Proof.
  intros Hin Hcell.
  destruct (count_positive_full b r c d.1 d.2 stone (ints 1 WIN_LENGTH) 1)
    as [Hle Hiff].
  change (Z.of_nat (length (ints 1 WIN_LENGTH))) with 4 in *.
  unfold WIN_LENGTH in *. split.
  - intros Hge. assert (count_positive b r c d.1 d.2 stone (ints 1 5) 1 = 1 + 4)
      as Heq by lia.
    rewrite Hiff in Heq. intros i Hi. destruct (decide (i = 0)) as [->|].
    + rewrite !Z.mul_0_r, !Z.add_0_r. by rewrite getStone_in.
    + apply Heq, elem_of_ints. lia.
  - intros Hall. assert (count_positive b r c d.1 d.2 stone (ints 1 5) 1 = 1 + 4)
      as Heq; [|lia].
    apply Hiff. intros i Hi%elem_of_ints. apply Hall. lia.
Qed.

(** The body of the scan at one cell and direction fires exactly on a line
    of five of the cell's stone. *)
Lemma checkWin_scan b :
  for_first (ints 0 BOARD_SIZE) (λ r,
    for_first (ints 0 BOARD_SIZE) (λ c,
      let stone := cell b r c in
      if bool_decide (stone = EMPTY) then None
      else for_first DIRECTIONS (λ d,
        let count := count_positive b r c d.1 d.2 stone (ints 1 WIN_LENGTH) 1 in
        if count >=? WIN_LENGTH
        then Some (if bool_decide (stone = BLACK) then BLACK_WIN else WHITE_WIN)
        else None)))
  = None ↔ ¬ has_five DIRECTIONS b BLACK ∧ ¬ has_five DIRECTIONS b WHITE.
Proof.
  rewrite for_first_None. split.
  - intros Hnone.
    assert (∀ stone, ¬ has_five DIRECTIONS b stone) as Hno; [|by split].
    intros stone (r & c & d & Hd & Hin & Hne & Hline).
    pose proof Hin as Hin'. apply in_range_spec in Hin'.
    specialize (Hnone r ltac:(apply elem_of_ints; lia)). cbv beta in Hnone.
    rewrite for_first_None in Hnone.
    specialize (Hnone c ltac:(apply elem_of_ints; lia)). cbv beta zeta in Hnone.
    assert (cell b r c = stone) as Hcell.
    { specialize (Hline 0 ltac:(unfold WIN_LENGTH; lia)).
      rewrite !Z.mul_0_r, !Z.add_0_r in Hline. by rewrite getStone_in in Hline. }
    rewrite Hcell, bool_decide_eq_false_2 in Hnone by done.
    rewrite for_first_None in Hnone. specialize (Hnone d Hd).
    cbv beta zeta in Hnone.
    apply (proj2 (count_positive_five b r c d stone Hin Hcell)) in Hline.
    by rewrite Hline in Hnone.
  - intros [HnoB HnoW] r Hr%elem_of_ints. apply for_first_None.
    intros c Hc%elem_of_ints. cbv beta zeta. case_bool_decide as Hne; [done|].
    apply for_first_None. intros d Hd. cbv beta zeta.
    destruct (_ >=? WIN_LENGTH) eqn:Hcount; [|done]. exfalso.
    assert (in_range r c = true) as Hin by (apply in_range_spec; lia).
    pose proof (proj1 (count_positive_five b r c d _ Hin eq_refl) Hcount)
      as Hline. clear Hcount.
    destruct (cell b r c) eqn:Hcell; [done| |].
    + apply HnoB. by exists r, c, d.
    + apply HnoW. by exists r, c, d.
Qed.

(** The three outcomes of the scan. *)
Lemma checkWin_cases (b : Board) :
  (checkWin b = BLACK_WIN ∧ has_five DIRECTIONS b BLACK) ∨
  (checkWin b = WHITE_WIN ∧ has_five DIRECTIONS b WHITE) ∨
  (¬ has_five DIRECTIONS b BLACK ∧ ¬ has_five DIRECTIONS b WHITE ∧
   checkWin b = if isFull b then DRAW else ONGOING).
Proof.
  pose proof (checkWin_scan b) as Hscan. unfold checkWin.
  destruct (for_first (ints 0 BOARD_SIZE) _) as [status|] eqn:Hfirst.
  - apply for_first_Some in Hfirst as (r & Hr%elem_of_ints & Hfirst).
    apply for_first_Some in Hfirst as (c & Hc%elem_of_ints & Hfirst).
    cbv beta zeta in Hfirst. case_bool_decide as Hne; [done|].
    apply for_first_Some in Hfirst as (d & Hd & Hfirst).
    cbv beta zeta in Hfirst.
    destruct (_ >=? WIN_LENGTH) eqn:Hcount; [|done].
    assert (in_range r c = true) as Hin by (apply in_range_spec; lia).
    pose proof (proj1 (count_positive_five b r c d _ Hin eq_refl) Hcount)
      as Hline. clear Hcount.
    assert (has_five DIRECTIONS b (cell b r c)) as Hfive by (by exists r, c, d).
    clear Hline. injection Hfirst as <-.
    destruct (cell b r c) eqn:Hcell; [done| |]; simpl; auto.
  - destruct (proj1 Hscan eq_refl) as [HnoB HnoW]. auto.
Qed.

(** X1.  [checkWin] reports a win exactly when five stones of one side lie in
    a line along a row, a column or the diagonal direction (1, 1), the three
    directions the table holds; it names a side that has such a line, and
    otherwise answers DRAW when the move counter has reached 225 and ONGOING
    when it has not.  Five stones on an anti-diagonal are not seen: there is
    a board reached in play on which White has five in a line along (1, -1)
    and the answer is ONGOING. *)
Theorem checkWin_characterised :
  (∀ b : Board,
     let seen := has_five [(0, 1); (1, 0); (1, 1)] b in
     (checkWin b = BLACK_WIN → seen BLACK) ∧
     (checkWin b = WHITE_WIN → seen WHITE) ∧
     (seen BLACK ∨ seen WHITE →
      checkWin b = BLACK_WIN ∨ checkWin b = WHITE_WIN) ∧
     (¬ seen BLACK ∧ ¬ seen WHITE →
      checkWin b = if isFull b then DRAW else ONGOING)) ∧
  (∃ b : Board,
     reachable b ∧ has_five AXES b WHITE ∧ checkWin b = ONGOING).
Proof.
  split.
  - intros b seen. unfold seen. change [(0, 1); (1, 0); (1, 1)] with DIRECTIONS.
    destruct (checkWin_cases b) as [[-> HB]|[[-> HW]|(HnB & HnW & ->)]].
    + split; [done|]. split; [done|]. split; [by left|]. by intros [? _].
    + split; [done|]. split; [done|]. split; [by right|]. by intros [_ ?].
    + split; [by destruct (isFull b)|]. split; [by destruct (isFull b)|].
      split; [tauto|done].
  - exists (play newBoard BLACK
              [(0, 0); (3, 11); (0, 2); (4, 10); (0, 4); (5, 9); (0, 6); (6, 8);
               (0, 8); (7, 7)]).
    split; [|split].
    + apply reachable_play; [constructor|done|by vm_compute].
    + exists 3, 11, (1, -1). split; [unfold AXES; repeat constructor|].
      split; [done|]. split; [done|]. intros i Hi. unfold WIN_LENGTH in Hi.
      assert (i = 0 ∨ i = 1 ∨ i = 2 ∨ i = 3 ∨ i = 4) as Hcases by lia.
      destruct Hcases as [-> | [-> | [-> | [-> | ->]]]]; by vm_compute.
    + by vm_compute.
Qed.

Lemma checkWin_characterised_witness :
  let b := play newBoard BLACK
             [(9, 3); (7, 3); (9, 4); (7, 4); (9, 5); (7, 5); (9, 6); (7, 6);
              (9, 7)] in
  has_five [(0, 1); (1, 0); (1, 1)] b BLACK.
Proof.
  intros b. apply (proj1 (proj1 checkWin_characterised b)). reflexivity.
Defined.

Lemma checkWin_ONGOING_not_full (b : Board) :
  checkWin b = ONGOING → isFull b = false.
Proof.
  destruct (checkWin_cases b) as [[-> _]|[[-> _]|(_ & _ & ->)]]; try done.
  by destruct (isFull b).
Qed.

(** ** Board::getEmptyPositions and Board::isFull *)

Lemma elem_of_all_cells r c : (r, c) ∈ all_cells ↔ in_range r c = true.
Proof.
  unfold all_cells. rewrite in_range_spec, list_elem_of_bind. split.
  - intros (r' & (c' & Hrc & Hc%elem_of_ints)%list_elem_of_bind & Hr%elem_of_ints).
    apply list_elem_of_singleton in Hrc. injection Hrc as -> ->. lia.
  - intros [Hr Hc]. exists r. split; [|by apply elem_of_ints].
    apply list_elem_of_bind. exists c. split; [|by apply elem_of_ints].
    by apply list_elem_of_singleton.
Qed.

Lemma NoDup_ints lo hi : NoDup (ints lo hi).
Proof. apply NoDup_seqZ. Qed.

Lemma NoDup_all_cells : NoDup all_cells.
Proof.
  unfold all_cells. apply NoDup_bind; [| |apply NoDup_ints].
  - intros r1 r2 t _ _ (c1 & Ht1 & _)%list_elem_of_bind
      (c2 & Ht2 & _)%list_elem_of_bind.
    apply list_elem_of_singleton in Ht1, Ht2. congruence.
  - intros r _. apply NoDup_bind; [| |apply NoDup_ints].
    + intros c1 c2 t _ _ Ht1%list_elem_of_singleton Ht2%list_elem_of_singleton.
      congruence.
    + intros c _. apply NoDup_singleton.
Qed.

Lemma foldl_collect {A B} (p : A → bool) (g : A → B) (l : list A) : ∀ acc,
  foldl (λ acc x, if p x then acc ++ [g x] else acc) acc l
  = acc ++ (g <$> filter (λ x, p x = true) l).
Proof.
  induction l as [|x l IH]; intros acc; simpl.
  - by rewrite app_nil_r.
  - rewrite IH, filter_cons. destruct (p x) eqn:Hp.
    + rewrite decide_True by done. by rewrite fmap_cons, <- app_assoc.
    + by rewrite decide_False by done.
Qed.

Lemma getEmptyPositions_filter b :
  getEmptyPositions b =
    (λ t, mkPosition t.1 t.2)
    <$> filter (λ t, bool_decide (cell b t.1 t.2 = EMPTY) = true) all_cells.
Proof.
  rewrite <- (app_nil_l (_ <$> _)), <- foldl_collect.
  unfold getEmptyPositions, all_cells.
  rewrite foldl_bind. apply foldl_fun_ext. intros acc r.
  rewrite foldl_bind. by apply foldl_fun_ext.
Qed.

Lemma getEmptyPositions_NoDup b : NoDup (getEmptyPositions b).
Proof.
  rewrite getEmptyPositions_filter.
  apply NoDup_fmap_2_strong; [|apply NoDup_filter, NoDup_all_cells].
  intros [r c] [r' c'] _ _ [= -> ->]. done.
Qed.

Lemma getEmptyPositions_elem b p :
  p ∈ getEmptyPositions b ↔
  in_range (row p) (col p) = true ∧ cell b (row p) (col p) = EMPTY.
Proof.
  rewrite getEmptyPositions_filter, list_elem_of_fmap. split.
  - intros ([r c] & -> & [He Hin]%list_elem_of_filter). simpl in *.
    apply bool_decide_eq_true in He. by apply elem_of_all_cells in Hin.
  - intros [Hin He]. exists (row p, col p). split; [by destruct p|].
    apply list_elem_of_filter. simpl. split; [by apply bool_decide_eq_true|].
    by apply elem_of_all_cells.
Qed.

(** X2.  [getEmptyPositions] lists, without repetition, exactly the valid
    moves of the board: the in-range cells that are EMPTY. *)
Theorem getEmptyPositions_exact (b : Board) :
  NoDup (getEmptyPositions b) ∧
  ∀ p, p ∈ getEmptyPositions b ↔ isValidMove b (row p) (col p) = true.
Proof.
  split; [apply getEmptyPositions_NoDup|].
  intros p. by rewrite getEmptyPositions_elem, isValidMove_spec.
Qed.

Lemma count_row_le (rw : list Stone) :
  (count_row rw ≤ length rw)%nat ∧
  (count_row rw = length rw ↔ Forall (λ s, s ≠ EMPTY) rw).
Proof.
  unfold count_row. induction rw as [|s rw [IHle IHeq]]; simpl.
  - split; [done|]. split; [constructor|done].
  - rewrite filter_cons. destruct (decide (s ≠ EMPTY)) as [Hs|Hs]; simpl.
    + split; [lia|]. rewrite Forall_cons. split.
      * intros Heq. split; [done|]. apply IHeq. lia.
      * intros [_ Hall]. apply IHeq in Hall. lia.
    + split; [lia|]. rewrite Forall_cons. split; [lia|]. by intros [? _].
Qed.

Lemma count_stones_le (g : Grid Stone) (n : nat) :
  Forall (λ rw, length rw = n) g →
  (count_stones g ≤ n * length g)%nat ∧
  (count_stones g = (n * length g)%nat ↔ Forall (Forall (λ s, s ≠ EMPTY)) g).
Proof.
  unfold count_stones.
  induction 1 as [|rw g Hrw _ [IHle IHeq]]; cbn [sum_list_with length].
  - rewrite Nat.mul_0_r. split; [lia|]. split; [constructor|lia].
  - destruct (count_row_le rw) as [Hle Heq]. rewrite Hrw in *.
    rewrite Nat.mul_succ_r.
    split; [lia|]. rewrite Forall_cons. split.
    + intros Hsum. split; [apply Heq|apply IHeq]; lia.
    + intros [Hfull Hall]. apply Heq in Hfull. apply IHeq in Hall. lia.
Qed.

Lemma rows_full_cells b :
  grid_ok (board b) →
  Forall (Forall (λ s, s ≠ EMPTY)) (board b) ↔
  ∀ r c, in_range r c = true → cell b r c ≠ EMPTY.
Proof.
  intros Hok. split.
  - intros Hall r c Hin. pose proof (cell_array_at b r c Hok Hin) as Hat.
    unfold array_at in Hat. apply in_range_spec in Hin.
    replace ((0 <=? r) && (0 <=? c)) with true in Hat by lia.
    destruct (board b !! Z.to_nat r) as [rw|] eqn:Hrw; [|done]. simpl in Hat.
    eapply Forall_lookup_1 in Hall; [|exact Hrw].
    by eapply Forall_lookup_1 in Hall; [|exact Hat].
  - intros Hcells. destruct Hok as [Hlen Hrows].
    apply Forall_lookup. intros i rw Hrw. apply Forall_lookup. intros j s Hs.
    pose proof (lookup_lt_Some _ _ _ Hrw) as Hi.
    pose proof (lookup_lt_Some _ _ _ Hs) as Hj.
    rewrite (Forall_lookup_1 _ _ _ _ Hrows Hrw) in Hj. unfold BOARD_SIZE in *.
    specialize (Hcells (Z.of_nat i) (Z.of_nat j)
                  ltac:(apply in_range_spec; unfold BOARD_SIZE; lia)).
    unfold cell, array_at in Hcells.
    replace ((0 <=? Z.of_nat i) && (0 <=? Z.of_nat j)) with true in Hcells by lia.
    rewrite !Nat2Z.id, Hrw in Hcells. simpl in Hcells. by rewrite Hs in Hcells.
Qed.

Lemma isFull_cells b :
  board_inv b →
  isFull b = true ↔ ∀ r c, in_range r c = true → cell b r c ≠ EMPTY.
Proof.
  intros (Hok & Hcnt & _). rewrite <- rows_full_cells by done.
  destruct Hok as [Hlen Hrows].
  destruct (count_stones_le (board b) _ Hrows) as [Hle Heq].
  rewrite <- Heq. unfold isFull. rewrite Hlen in *. unfold BOARD_SIZE in *. lia.
Qed.

Lemma isFull_empty_positions (b : Board) :
  board_inv b → isFull b = true ↔ getEmptyPositions b = [].
Proof.
  intros Hinv. rewrite (isFull_cells b Hinv). split.
  - intros Hcells. apply elem_of_nil_inv. intros p [Hin He]%getEmptyPositions_elem.
    by apply (Hcells _ _ Hin).
  - intros Hnil r c Hin He.
    assert (mkPosition r c ∈ getEmptyPositions b) as Hp
      by (by apply getEmptyPositions_elem).
    rewrite Hnil in Hp. by apply elem_of_nil in Hp.
Qed.

(** X3.  On a board that satisfies the invariant of the data model, [isFull]
    is true exactly when no cell is EMPTY, that is when [getEmptyPositions]
    returns the empty list. *)
Theorem isFull_iff_no_empty_position (b : Board) :
  board_inv b →
  (isFull b = true ↔ getEmptyPositions b = []) ∧
  (isFull b = true ↔ ∀ r c, in_range r c = true → getStone b r c ≠ EMPTY).
Proof.
  intros Hinv. split; [by apply isFull_empty_positions|].
  rewrite (isFull_cells b Hinv). split.
  - intros H r c Hin. rewrite getStone_in by done. by apply H.
  - intros H r c Hin. rewrite <- getStone_in by done. by apply H.
Qed.

Lemma isFull_iff_no_empty_position_witness :
  let b := play newBoard BLACK [(7, 7); (7, 8)] in
  (isFull b = true ↔ getEmptyPositions b = []) ∧
  (isFull b = true ↔ ∀ r c, in_range r c = true → getStone b r c ≠ EMPTY).
Proof.
  intros b. apply (isFull_iff_no_empty_position b).
  apply reachable_board_inv, reachable_play;
    [apply reachable_new | done | reflexivity].
Defined.

(** ** The candidate list is empty only on a full board *)

(** Between an index where [f] holds and one where it does not, [f] changes
    from true to false at two neighbouring indices. *)
Lemma flip_between (f : Z → bool) (n : nat) : ∀ a b,
  Z.abs (b - a) = Z.of_nat n → f a = true → f b = false →
  ∃ k k', Z.abs (k' - k) = 1 ∧ f k = true ∧ f k' = false ∧
          Z.min a b <= k <= Z.max a b ∧ Z.min a b <= k' <= Z.max a b.
Proof.
  induction n as [|n IH]; intros a b Hn Ha Hb.
  - assert (a = b) as -> by lia. congruence.
  - set (a' := if a <? b then a + 1 else a - 1).
    assert (Z.abs (b - a') = Z.of_nat n) as Hn' by (unfold a'; destruct (a <? b) eqn:?; lia).
    destruct (f a') eqn:Ha'.
    + destruct (IH a' b Hn' Ha' Hb) as (k & k' & ? & ? & ? & ? & ?).
      exists k, k'. unfold a' in *. destruct (a <? b) eqn:?; repeat split; try done; lia.
    + exists a, a'. unfold a' in *. destruct (a <? b) eqn:?; repeat split; try done; lia.
Qed.

Lemma count_row_pos (rw : list Stone) :
  (0 < count_row rw)%nat → ∃ j s, rw !! j = Some s ∧ s ≠ EMPTY.
Proof.
  unfold count_row. destruct (filter _ rw) as [|s l] eqn:Hf; simpl; [lia|].
  intros _. assert (s ∈ filter (λ s, s ≠ EMPTY) rw) as Hs
    by (rewrite Hf; apply elem_of_cons; by left).
  apply list_elem_of_filter in Hs as [Hne (j & Hj)%list_elem_of_lookup].
  by exists j, s.
Qed.

Lemma count_stones_pos (g : Grid Stone) :
  (0 < count_stones g)%nat →
  ∃ i rw j s, g !! i = Some rw ∧ rw !! j = Some s ∧ s ≠ EMPTY.
Proof.
  unfold count_stones. induction g as [|rw g IH]; simpl; [lia|]. intros Hpos.
  destruct (decide (0 < count_row rw)%nat) as [Hrow|Hrow].
  - destruct (count_row_pos rw Hrow) as (j & s & Hj & Hs). by exists 0%nat, rw, j, s.
  - destruct IH as (i & rw' & j & s & Hi & Hj & Hs); [lia|].
    by exists (S i), rw', j, s.
Qed.

Lemma occupied_cell_exists b :
  board_inv b → moveCount b ≠ 0 →
  ∃ r c, in_range r c = true ∧ cell b r c ≠ EMPTY.
Proof.
  intros ([Hlen Hrows] & Hcnt & _) Hnz.
  destruct (count_stones_pos (board b)) as (i & rw & j & s & Hi & Hj & Hs); [lia|].
  pose proof (lookup_lt_Some _ _ _ Hi) as Hi'.
  pose proof (lookup_lt_Some _ _ _ Hj) as Hj'.
  rewrite (Forall_lookup_1 _ _ _ _ Hrows Hi) in Hj'. unfold BOARD_SIZE in *.
  exists (Z.of_nat i), (Z.of_nat j).
  split; [apply in_range_spec; unfold BOARD_SIZE; lia|].
  unfold cell, array_at.
  replace ((0 <=? Z.of_nat i) && (0 <=? Z.of_nat j)) with true by lia.
  rewrite !Nat2Z.id, Hi. simpl. by rewrite Hj.
Qed.

(** A board with an occupied and an empty cell has an empty cell next to an
    occupied one. *)
Lemma empty_next_to_stone b r0 c0 r1 c1 :
  in_range r0 c0 = true → cell b r0 c0 ≠ EMPTY →
  in_range r1 c1 = true → cell b r1 c1 = EMPTY →
  ∃ p, candidate b 1 p.
Proof.
  intros Hin0 Hocc Hin1 Hemp. apply in_range_spec in Hin0, Hin1.
  destruct (decide (cell b r1 c0 = EMPTY)) as [Hmid|Hmid].
  - destruct (flip_between (λ r, bool_decide (cell b r c0 ≠ EMPTY))
                (Z.to_nat (Z.abs (r1 - r0))) r0 r1)
      as (k & k' & Hadj & Hk & Hk' & Hkr & Hkr');
      [lia|by apply bool_decide_eq_true|by apply bool_decide_eq_false; auto|].
    apply bool_decide_eq_true in Hk. apply bool_decide_eq_false in Hk'.
    exists (mkPosition k' c0). split; [apply in_range_spec; simpl; lia|].
    split; [simpl; by destruct (decide (cell b k' c0 = EMPTY)); [|destruct Hk']|].
    exists k, c0. simpl. split; [apply in_range_spec; lia|]. split; [done|lia].
  - destruct (flip_between (λ c, bool_decide (cell b r1 c ≠ EMPTY))
                (Z.to_nat (Z.abs (c1 - c0))) c0 c1)
      as (k & k' & Hadj & Hk & Hk' & Hkr & Hkr');
      [lia|by apply bool_decide_eq_true|by apply bool_decide_eq_false; auto|].
    apply bool_decide_eq_true in Hk. apply bool_decide_eq_false in Hk'.
    exists (mkPosition r1 k'). split; [apply in_range_spec; simpl; lia|].
    split; [simpl; by destruct (decide (cell b r1 k' = EMPTY)); [|destruct Hk']|].
    exists r1, k. simpl. split; [apply in_range_spec; lia|]. split; [done|lia].
Qed.

Lemma candidate_radius b range range' p :
  range <= range' → candidate b range p → candidate b range' p.
Proof.
  intros Hle (Hin & He & r & c & Hrc & Hocc & Hr & Hc).
  split; [done|]. split; [done|]. exists r, c. split; [done|]. split; [done|lia].
Qed.

(** X4.  On a board that satisfies the invariant and is not full,
    [getRelevantMoves] with a radius of at least 1 returns at least one
    candidate; in particular where [minimax] has found the game ONGOING its
    fallback for an empty candidate list is never taken. *)
Theorem getRelevantMoves_nonempty (b : Board) (range : Z) :
  board_inv b → isFull b = false → 1 <= range →
  getRelevantMoves b range ≠ [] ∧
  (checkWin b = ONGOING → getRelevantMoves b 2 ≠ []).
Proof.
  assert (∀ range, board_inv b → isFull b = false → 1 <= range →
                   getRelevantMoves b range ≠ []) as Hmain.
  { clear range. intros range Hinv Hfull Hrange.
    destruct (decide (moveCount b = 0)) as [Hz|Hnz].
    { unfold getRelevantMoves. by rewrite Hz. }
    assert (∃ r1 c1, in_range r1 c1 = true ∧ cell b r1 c1 = EMPTY)
      as (r1 & c1 & Hin1 & Hemp).
    { destruct (getEmptyPositions b) as [|p l] eqn:Hl.
      - apply (isFull_empty_positions b Hinv) in Hl. congruence.
      - assert (p ∈ getEmptyPositions b) as Hp
          by (rewrite Hl; apply elem_of_cons; by left).
        apply getEmptyPositions_elem in Hp. by exists (row p), (col p). }
    destruct (occupied_cell_exists b Hinv Hnz) as (r0 & c0 & Hin0 & Hocc).
    destruct (empty_next_to_stone b r0 c0 r1 c1) as (p & Hp); [done..|].
    apply (candidate_radius b 1 range p Hrange) in Hp.
    apply (getRelevantMoves_nonzero b range Hnz) in Hp.
    intros Hnil. rewrite Hnil in Hp. by apply elem_of_nil in Hp. }
  intros Hinv Hfull Hrange. split; [by apply Hmain|].
  intros _. by apply Hmain.
Qed.

Lemma getRelevantMoves_nonempty_witness :
  let b := play newBoard BLACK [(0, 0); (14, 14)] in
  getRelevantMoves b 1 ≠ [] ∧ (checkWin b = ONGOING → getRelevantMoves b 2 ≠ []).
Proof.
  intros b. apply (getRelevantMoves_nonempty b 1); [|reflexivity|lia].
  apply reachable_board_inv, reachable_play;
    [apply reachable_new | done | reflexivity].
Defined.

(** ** PatternEvaluator: the line analysis and the score table *)

Lemma analyze_dir_bounds b start dr dc stone dir ix :
  ∀ count blocked gapCount pattern,
    let res := analyze_dir b start dr dc stone dir ix count blocked gapCount
                 pattern in
    count <= res.1 <= count + Z.of_nat (length ix) ∧
    consecutive res.2 = consecutive pattern ∧
    openEnds pattern <= openEnds res.2 <= openEnds pattern + 1.
Proof.
  induction ix as [|i ix IH]; intros count blocked gapCount pattern;
    cbn [analyze_dir].
  - simpl. lia.
  - rewrite length_cons, Nat2Z.inj_succ.
    repeat case_bool_decide.
    + specialize (IH (count + 1) blocked 0
        (if gapCount >? 0
         then mkLinePattern (consecutive pattern) (openEnds pattern)
                (gaps pattern + 1)
         else pattern)).
      cbv zeta in IH. destruct (gapCount >? 0); simpl in *; lia.
    + destruct ((count >? 0) && (gapCount =? 0)).
      * specialize (IH count blocked (gapCount + 1) pattern). cbv zeta in IH. lia.
      * destruct blocked; simpl; lia.
    + simpl. lia.
Qed.

(** X5.  Whatever the board, start and direction, [analyzeLine] reports
    between 1 and 9 consecutive stones and between 0 and 2 open ends: the
    domain over which [getPatternScore] is tabulated. *)
Theorem analyzeLine_bounds (b : Board) (start : Position) (dr dc : Z)
    (stone : Stone) :
  1 <= consecutive (analyzeLine b start dr dc stone) <= 9 ∧
  0 <= openEnds (analyzeLine b start dr dc stone) <= 2.
Proof.
  unfold analyzeLine. cbn [foldl].
  pose proof (analyze_dir_bounds b start dr dc stone (-1) (ints 1 WIN_LENGTH)
                0 false 0 (mkLinePattern 1 0 0)) as H1.
  cbv zeta in H1.
  destruct (analyze_dir b start dr dc stone (-1) (ints 1 WIN_LENGTH) 0 false 0
              (mkLinePattern 1 0 0)) as [count1 pattern1].
  pose proof (analyze_dir_bounds b start dr dc stone 1 (ints 1 WIN_LENGTH)
                0 false 0
                (mkLinePattern (consecutive pattern1 + count1)
                   (openEnds pattern1) (gaps pattern1))) as H2.
  cbv zeta in H2.
  destruct (analyze_dir b start dr dc stone 1 (ints 1 WIN_LENGTH) 0 false 0 _)
    as [count2 pattern2].
  change (Z.of_nat (length (ints 1 WIN_LENGTH))) with 4 in *.
  simpl in *. lia.
Qed.

(** X6.  [getPatternScore] lies between 0 and FIVE, equals FIVE exactly for
    five or more consecutive stones, and over the domain of the line analysis
    never decreases when the run gets longer or gains an open end. *)
Theorem getPatternScore_monotone (p q : LinePattern) :
  (0 <= getPatternScore p <= PatternScore.FIVE) ∧
  (getPatternScore p = PatternScore.FIVE ↔ 5 <= consecutive p) ∧
  (1 <= consecutive p <= consecutive q →
   0 <= openEnds p <= openEnds q → openEnds q <= 2 →
   getPatternScore p <= getPatternScore q).
Proof.
  split; [apply getPatternScore_bounds|].
  unfold getPatternScore, PatternScore.FIVE, PatternScore.OPEN_FOUR,
    PatternScore.BLOCKED_FOUR, PatternScore.OPEN_THREE,
    PatternScore.BLOCKED_THREE, PatternScore.OPEN_TWO,
    PatternScore.BLOCKED_TWO, PatternScore.ONE.
  split.
  - repeat match goal with
           | |- context [if ?c then _ else _] => destruct c eqn:?
           end; lia.
  - intros Hc Ho Ho2.
    repeat match goal with
           | |- context [if ?c then _ else _] => destruct c eqn:?
           end; lia.
Qed.

Lemma getPatternScore_monotone_witness :
  getPatternScore (mkLinePattern 3 1 0) <= getPatternScore (mkLinePattern 4 2 0).
Proof.
  apply (getPatternScore_monotone (mkLinePattern 3 1 0) (mkLinePattern 4 2 0));
    simpl; lia.
Defined.

(** ** GomokuAI: move ordering and the move returned *)

Section SearchMoves.
Variable std_sort : list MoveScore → list MoveScore.
Hypothesis std_sort_perm : ∀ l, std_sort l ≡ₚ l.

Lemma orderMoves_moves b moves stone :
  Forall (valid_move b) moves →
  ∃ sorted, orderMoves std_sort b moves stone = (take 10 sorted, b) ∧
            sorted ≡ₚ moves.
Proof.
  intros Hv. unfold orderMoves.
  destruct (score_moves_frame b stone moves Hv []) as (acc' & -> & Hmoves).
  exists (move <$> std_sort acc'). split; [done|].
  by rewrite std_sort_perm, Hmoves.
Qed.

Lemma best_loop_elem (fuel : nat) ai moves :
  ∀ b rng bestMove bestScore mv rng' b',
    best_loop std_sort fuel ai moves b rng bestMove bestScore
      = Some (mv, rng', b') →
    mv = bestMove ∨ mv ∈ moves.
Proof.
  induction moves as [|m moves IH];
    intros b rng bestMove bestScore mv rng' b' Hres.
  - injection Hres as <- _ _. by left.
  - cbn [best_loop] in Hres.
    destruct (minimax std_sort fuel ai _ 1 _ _ false) as [[v b1]|]; [|done].
    simpl in Hres. destruct (_ >? bestScore).
    + apply IH in Hres as [->|?]; right; apply elem_of_cons; auto.
    + apply IH in Hres as [->|?]; [by left|]. right. apply elem_of_cons. auto.
Qed.

Lemma getBestMove_candidate ai (fuel : nat) rng b :
  search_ok b → (1 ≤ fuel)%nat → maxDepth ai - 1 < Z.of_nat fuel →
  getRelevantMoves b 2 ≠ [] →
  ∃ mv rng', getBestMove std_sort fuel ai rng b = Some (mv, rng', b) ∧
             mv ∈ getRelevantMoves b 2.
Proof.
  intros Hok Hf Hd Hne.
  destruct (getBestMove_frame std_sort std_sort_perm ai fuel rng b Hok Hf Hd)
    as (mv & rng' & Hres).
  exists mv, rng'. split; [done|].
  pose proof (getRelevantMoves_valid b 2 Hok) as Hvalid.
  unfold getBestMove in Hres.
  destruct (getRelevantMoves b 2) as [|first rest] eqn:Hmoves; [done|].
  pose proof (win_or_block_frame ai (first :: rest) b Hvalid) as Hwb.
  pose proof (win_or_block_first ai (first :: rest) b Hvalid) as Hfirst.
  destruct (win_or_block ai (first :: rest) b) as [[mv'|] b'];
    cbn [fst snd] in Hwb, Hfirst; subst b'.
  - injection Hres as <- _. symmetry in Hfirst.
    apply List.find_some in Hfirst as [Hin _]. by apply list_elem_of_In.
  - destruct (orderMoves_moves b (first :: rest) (myStone ai) Hvalid)
      as (sorted & Hom & Hperm).
    rewrite Hom in Hres. apply best_loop_elem in Hres as [->|Hin].
    + apply elem_of_cons. by left.
    + rewrite <- Hperm. by eapply sublist_subseteq; [apply sublist_take|].
Qed.
End SearchMoves.

(** X7.  [orderMoves] called with valid moves leaves the board as it was and
    returns at most ten of the given moves: the first ten of a rearrangement
    of them, hence all of them when there are ten or fewer, and none twice
    when none was given twice. *)
Theorem orderMoves_keeps_ten
    (std_sort : list MoveScore → list MoveScore) (b : Board)
    (moves : list Position) (stone : Stone) :
  (∀ l, std_sort l ≡ₚ l) →
  Forall (valid_move b) moves →
  ∃ moves', orderMoves std_sort b moves stone = (moves', b) ∧
            length moves' = Nat.min 10 (length moves) ∧
            moves' ⊆ moves ∧
            (NoDup moves → NoDup moves') ∧
            ((length moves ≤ 10)%nat → moves' ≡ₚ moves).
Proof.
  intros Hsort Hv.
  destruct (orderMoves_moves std_sort Hsort b moves stone Hv)
    as (sorted & -> & Hperm).
  exists (take 10 sorted). split; [done|]. split; [|split; [|split]].
  - by rewrite length_take, Hperm.
  - rewrite <- Hperm. apply sublist_subseteq, sublist_take.
  - intros Hnd. eapply sublist_NoDup; [|apply sublist_take]. by rewrite Hperm.
  - intros Hlen. rewrite take_ge; [done|]. by rewrite Hperm.
Qed.

Lemma orderMoves_keeps_ten_witness :
  let b := play newBoard BLACK [(7, 7)] in
  ∃ moves', orderMoves insertion_sort b (getRelevantMoves b 2) WHITE = (moves', b) ∧
            length moves' = Nat.min 10 (length (getRelevantMoves b 2)) ∧
            moves' ⊆ getRelevantMoves b 2 ∧
            (NoDup (getRelevantMoves b 2) → NoDup moves') ∧
            ((length (getRelevantMoves b 2) ≤ 10)%nat →
             moves' ≡ₚ getRelevantMoves b 2).
Proof.
  intros b.
  apply (orderMoves_keeps_ten insertion_sort b (getRelevantMoves b 2) WHITE).
  - apply insertion_sort_perm.
  - apply getRelevantMoves_valid, board_inv_search_ok, reachable_board_inv,
      reachable_play; [apply reachable_new | done | reflexivity].
Defined.

(** X8.  On a board that satisfies the invariant and is not full,
    [getBestMove] returns one of the candidates of [getRelevantMoves], so a
    cell that is in range and EMPTY: the caller's [placeStone] of the
    returned move succeeds. *)
Theorem getBestMove_returns_valid_move
    (std_sort : list MoveScore → list MoveScore) (ai : GomokuAI) (fuel : nat)
    (rng : Rng) (b : Board) (stone : Stone) :
  (∀ l, std_sort l ≡ₚ l) →
  board_inv b → isFull b = false →
  (1 ≤ fuel)%nat → maxDepth ai - 1 < Z.of_nat fuel →
  ∃ mv rng', getBestMove std_sort fuel ai rng b = Some (mv, rng', b) ∧
             mv ∈ getRelevantMoves b 2 ∧
             isValidMove b (row mv) (col mv) = true ∧
             (placeStone b (row mv) (col mv) stone).1 = true.
Proof.
  intros Hsort Hinv Hfull Hf Hd.
  pose proof (board_inv_search_ok b Hinv) as Hok.
  assert (getRelevantMoves b 2 ≠ []) as Hne.
  { destruct (decide (moveCount b = 0)) as [Hz|Hnz].
    - unfold getRelevantMoves. by rewrite Hz.
    - intros Hnil.
      assert (∃ p, p ∈ getEmptyPositions b) as (p & [Hin1 Hemp]%getEmptyPositions_elem).
      { destruct (getEmptyPositions b) as [|p l] eqn:Hl.
        - apply (isFull_empty_positions b Hinv) in Hl. congruence.
        - exists p. apply elem_of_cons. by left. }
      destruct (occupied_cell_exists b Hinv Hnz) as (r0 & c0 & Hin0 & Hocc).
      destruct (empty_next_to_stone b r0 c0 _ _ Hin0 Hocc Hin1 Hemp) as (q & Hq).
      apply (candidate_radius b 1 2 q ltac:(lia)) in Hq.
      apply (getRelevantMoves_nonzero b 2 Hnz) in Hq.
      rewrite Hnil in Hq. by apply elem_of_nil in Hq. }
  destruct (getBestMove_candidate std_sort Hsort ai fuel rng b Hok Hf Hd Hne)
    as (mv & rng' & Hres & Hin).
  exists mv, rng'. split; [done|]. split; [done|].
  pose proof (getRelevantMoves_valid b 2 Hok) as Hvalid.
  rewrite Forall_forall in Hvalid. specialize (Hvalid mv Hin).
  split; [done|]. unfold valid_move in Hvalid. by rewrite placeStone_valid.
Qed.

Lemma getBestMove_returns_valid_move_witness :
  let b := play newBoard BLACK [(7, 7); (6, 8); (8, 8)] in
  let ai := newGomokuAI WHITE 2 in
  ∃ mv rng', getBestMove insertion_sort 2 ai (rng_of [2; 7]) b
               = Some (mv, rng', b) ∧
             mv ∈ getRelevantMoves b 2 ∧
             isValidMove b (row mv) (col mv) = true ∧
             (placeStone b (row mv) (col mv) WHITE).1 = true.
Proof.
  intros b ai.
  apply (getBestMove_returns_valid_move insertion_sort ai 2 (rng_of [2; 7]) b WHITE).
  - apply insertion_sort_perm.
  - apply reachable_board_inv, reachable_play;
      [apply reachable_new | done | reflexivity].
  - reflexivity.
  - lia.
  - simpl. lia.
Defined.

Lemma find_first_decisive {A} (f : A → bool) (before after : list A) (x : A) :
  Forall (λ y, f y = false) before → f x = true →
  List.find f (before ++ x :: after) = Some x.
Proof.
  induction 1 as [|y before Hy _ IH]; intros Hx; simpl.
  - by rewrite Hx.
  - rewrite Hy. by apply IH.
Qed.

Lemma Forall_false_forallb {A} (f : A → bool) (l : list A) :
  forallb (λ x, negb (f x)) l = true → Forall (λ x, f x = false) l.
Proof.
  induction l as [|x l IH]; simpl; [constructor|].
  intros [Hx Hl]%andb_true_iff. constructor; [by destruct (f x)|by apply IH].
Qed.

(** X9.  When some candidate ends the game for one of the two sides
    ([checkWin] no longer ONGOING after placing that side's stone),
    [getBestMove] returns the first such candidate in the order of
    [getRelevantMoves], whatever the depth, the sorting and the random draws,
    and whether that candidate wins for the side to move or only blocks. *)
Theorem getBestMove_first_decisive
    (std_sort : list MoveScore → list MoveScore) (fuel : nat) (ai : GomokuAI)
    (rng : Rng) (b : Board) (before after : list Position) (mv : Position) :
  board_inv b →
  getRelevantMoves b 2 = before ++ mv :: after →
  Forall (λ m, ends_game b m (myStone ai) || ends_game b m (opponentStone ai)
               = false) before →
  ends_game b mv (myStone ai) || ends_game b mv (opponentStone ai) = true →
  getBestMove std_sort fuel ai rng b = Some (mv, rng, b).
Proof.
  intros Hinv Hmoves Hbefore Hmv.
  apply getBestMove_win_or_block; [by apply board_inv_search_ok|].
  rewrite Hmoves. by apply find_first_decisive.
Qed.

Lemma getBestMove_first_decisive_witness :
  let b := play newBoard BLACK
             [(9, 3); (7, 3); (9, 4); (7, 4); (9, 5); (7, 5); (9, 6); (7, 6)] in
  getBestMove insertion_sort 3 (newGomokuAI WHITE 3) (rng_of [4; 2]) b
  = Some (mkPosition 7 2, rng_of [4; 2], b).
Proof.
  intros b.
  apply (getBestMove_first_decisive insertion_sort 3 (newGomokuAI WHITE 3)
           (rng_of [4; 2]) b
           (take 11 (getRelevantMoves b 2)) (drop 12 (getRelevantMoves b 2))
           (mkPosition 7 2)).
  - apply reachable_board_inv, reachable_play;
      [apply reachable_new | done | reflexivity].
  - vm_compute. reflexivity.
  - apply Forall_false_forallb. vm_compute. reflexivity.
  - vm_compute. reflexivity.
Defined.

(** X10.  When no candidate ends the game for the side to move and some
    candidate would for the opponent, [getBestMove] returns a candidate on
    which the opponent's stone would end the game, again whatever the depth,
    the sorting and the random draws. *)
Theorem getBestMove_blocks_opponent
    (std_sort : list MoveScore → list MoveScore) (fuel : nat) (ai : GomokuAI)
    (rng : Rng) (b : Board) :
  board_inv b →
  (∀ mv, mv ∈ getRelevantMoves b 2 → ends_game b mv (myStone ai) = false) →
  (∃ mv, mv ∈ getRelevantMoves b 2 ∧ ends_game b mv (opponentStone ai) = true) →
  ∃ mv, getBestMove std_sort fuel ai rng b = Some (mv, rng, b) ∧
        mv ∈ getRelevantMoves b 2 ∧
        ends_game b mv (opponentStone ai) = true.
Proof.
  intros Hinv. apply getBestMove_blocks. by apply board_inv_search_ok.
Qed.

Lemma getBestMove_blocks_opponent_witness :
  let b := play newBoard BLACK
             [(7, 3); (0, 0); (7, 4); (0, 14); (7, 5); (14, 0); (7, 6)] in
  let ai := newGomokuAI WHITE 2 in
  ∃ mv, getBestMove insertion_sort 2 ai (rng_of []) b = Some (mv, rng_of [], b) ∧
        mv ∈ getRelevantMoves b 2 ∧
        ends_game b mv (opponentStone ai) = true.
Proof.
  intros b ai. apply (getBestMove_blocks_opponent insertion_sort 2 ai (rng_of []) b).
  - apply reachable_board_inv, reachable_play;
      [apply reachable_new | done | reflexivity].
  - apply Forall_forall, Forall_false_forallb. vm_compute. reflexivity.
  - exists (mkPosition 7 2). split; [|vm_compute; reflexivity].
    apply list_elem_of_In. vm_compute. tauto.
Defined.

Lemma run_span (own : Z → Z → Prop) r c dr dc a b :
  (∀ r c, own r c → in_range r c = true) →
  in_range r c = true → axis_step dr dc →
  extent own r c (- dr) (- dc) a → extent own r c dr dc b →
  a + 1 + b <= BOARD_SIZE.
Proof.
  intros Hrange Hin Hax (Ha0 & Ha & _) (Hb0 & Hb & _).
  assert (in_range (r + a * - dr) (c + a * - dc) = true) as Hlo.
  { destruct (decide (a = 0)) as [->|]; [by rewrite !Z.add_0_r|].
    apply Hrange, Ha. lia. }
  assert (in_range (r + b * dr) (c + b * dc) = true) as Hhi.
  { destruct (decide (b = 0)) as [->|]; [by rewrite !Z.add_0_r|].
    apply Hrange, Hb. lia. }
  apply in_range_spec in Hlo, Hhi. unfold axis_step, BOARD_SIZE in *.
  destruct Hax as [-> | [-> | [-> [-> | ->]]]]; lia.
Qed.

(** X12.  Given fuel for 15 iterations of each loop, [countLine] called on an
    in-range cell with the cell's own value and one of the four directions
    returns the length of the contiguous run through the cell along that
    axis, which is the only length such a run has and lies between 1 and 15. *)
Theorem countLine_is_run_length (board : Grid Z) (row col : Z) (d : Z * Z)
    (fuel : nat) :
  in_range row col = true → d ∈ AXES → (15 ≤ fuel)%nat →
  ∃ n, Gomoku.countLine fuel board row col d.1 d.2 (Gomoku.cell board row col)
       = Some n ∧
       1 <= n <= BOARD_SIZE ∧
       ∀ m, run_through (Gomoku_own board (Gomoku.cell board row col))
              row col d.1 d.2 m ↔ m = n.
Proof.
  intros Hin Hd Hfuel.
  destruct (countLine_run board row col d fuel Hin Hd Hfuel) as (n & Hn & Hrun).
  exists n. split; [done|]. split.
  - destruct Hrun as (Hown & a & b & Ha & Hb & ->).
    pose proof Ha as [Ha0 _]. pose proof Hb as [Hb0 _]. split; [lia|].
    apply axis_step_AXES in Hd as [Hfwd Hbwd].
    by apply (run_span (Gomoku_own board (Gomoku.cell board row col))
                row col d.1 d.2 a b (Gomoku_own_in_range board _)).
  - intros m. split; [|by intros ->].
    intros Hm. by eapply (run_through_unique (Gomoku_own board _)).
Qed.

Lemma countLine_is_run_length_witness :
  ∃ n, Gomoku.countLine 15 five_in_row 7 4 0 1 (Gomoku.cell five_in_row 7 4)
       = Some n ∧
       1 <= n <= BOARD_SIZE ∧
       ∀ m, run_through (Gomoku_own five_in_row (Gomoku.cell five_in_row 7 4))
              7 4 0 1 m ↔ m = n.
Proof.
  apply (countLine_is_run_length five_in_row 7 4 (0, 1) 15);
    [reflexivity | | lia].
  apply elem_of_cons. by left.
Defined.

(** ** class Gomoku (array-based): hashing of positions and makeMove *)

(** X13.  [posToHash] and [hashToPos] are inverse to each other between the
    in-range positions and the hashes 0 .. 224; in particular distinct cells
    of the board get distinct hashes. *)
Theorem posToHash_roundtrip :
  (∀ row col, in_range row col = true →
     0 <= Gomoku.posToHash row col < Gomoku.MAX_MOVES ∧
     Gomoku.hashToPos (Gomoku.posToHash row col) = (row, col)) ∧
  (∀ hash, 0 <= hash < Gomoku.MAX_MOVES →
     in_range (Gomoku.hashToPos hash).1 (Gomoku.hashToPos hash).2 = true ∧
     Gomoku.posToHash (Gomoku.hashToPos hash).1 (Gomoku.hashToPos hash).2 = hash).
Proof.
  unfold Gomoku.posToHash, Gomoku.hashToPos, Gomoku.MAX_MOVES, BOARD_SIZE. split.
  - intros row col [Hr Hc]%in_range_spec. unfold BOARD_SIZE in *.
    split; [lia|].
    rewrite Z.quot_div_nonneg, Z.rem_mod_nonneg by lia.
    rewrite Z.div_add_l, Z.div_small by lia.
    replace (row * 15 + col) with (col + row * 15) by lia.
    rewrite Z_mod_plus_full, Z.mod_small by lia.
    f_equal. lia.
  - intros hash Hh. simpl.
    rewrite Z.quot_div_nonneg, Z.rem_mod_nonneg by lia.
    pose proof (Z.div_mod hash 15 ltac:(lia)).
    pose proof (Z.mod_pos_bound hash 15 ltac:(lia)).
    split; [|lia]. apply in_range_spec. unfold BOARD_SIZE.
    assert (0 <= hash / 15 < 15); [|lia].
    split; [apply Z.div_pos; lia|apply Z.div_lt_upper_bound; lia].
Qed.

Lemma posToHash_roundtrip_witness :
  Gomoku.hashToPos (Gomoku.posToHash 14 3) = (14, 3) ∧
  Gomoku.posToHash (Gomoku.hashToPos 224).1 (Gomoku.hashToPos 224).2 = 224.
Proof.
  split.
  - apply (proj1 posToHash_roundtrip 14 3). reflexivity.
  - apply (proj2 posToHash_roundtrip 224). unfold Gomoku.MAX_MOVES, BOARD_SIZE. lia.
Defined.

Lemma Gomoku_isValidMove_spec cells row col :
  Gomoku.isValidMove cells row col = true ↔
  in_range row col = true ∧ Gomoku.cell cells row col = 0.
Proof.
  unfold Gomoku.isValidMove. rewrite in_range_spec, !andb_true_iff.
  intuition lia.
Qed.

Lemma Gomoku_cell_set_eq cells row col v :
  grid_ok cells → in_range row col = true →
  Gomoku.cell (array_set cells row col v) row col = v.
Proof.
  intros Hok Hin. unfold Gomoku.cell.
  by rewrite array_at_set_eq by (by apply array_at_ok).
Qed.

Lemma Gomoku_cell_set_ne cells row col v r c :
  (row, col) ≠ (r, c) →
  Gomoku.cell (array_set cells row col v) r c = Gomoku.cell cells r c.
Proof. intros Hne. unfold Gomoku.cell. by rewrite array_at_set_ne. Qed.

(** The three ways a successful [makeMove] ends, with what the win check
    has established. *)
Lemma makeMove_success (fuel : nat) (g : Gomoku.t) (row col : Z) :
  grid_ok (Gomoku.board g) →
  Gomoku.isValidMove (Gomoku.board g) row col = true →
  Gomoku.gameOver g = false → (15 ≤ fuel)%nat →
  let cells := array_set (Gomoku.board g) row col (Gomoku.currentPlayer g) in
  let five := five_through (Gomoku_own cells (Gomoku.currentPlayer g)) row col in
  ∃ g', Gomoku.makeMove fuel g row col = Some (true, g') ∧
        Gomoku.board g' = cells ∧
        Gomoku.occupiedPositions g' = Gomoku.occupiedPositions g ++ [(row, col)] ∧
        Gomoku.moveCount g' = Gomoku.moveCount g + 1 ∧
        Gomoku.lastMove g' = (row, col) ∧
        ((five ∧ Gomoku.gameOver g' = true ∧
          Gomoku.winner g' = Gomoku.currentPlayer g ∧
          Gomoku.currentPlayer g' = Gomoku.currentPlayer g) ∨
         (¬ five ∧ Gomoku.moveCount g + 1 = Gomoku.MAX_MOVES ∧
          Gomoku.gameOver g' = true ∧ Gomoku.winner g' = 0 ∧
          Gomoku.currentPlayer g' = Gomoku.currentPlayer g) ∨
         (¬ five ∧ Gomoku.moveCount g + 1 ≠ Gomoku.MAX_MOVES ∧
          Gomoku.gameOver g' = false ∧ Gomoku.winner g' = Gomoku.winner g ∧
          Gomoku.currentPlayer g' = 3 - Gomoku.currentPlayer g)).
Proof.
  intros Hok Hv Hover Hfuel cells five. unfold Gomoku.makeMove.
  rewrite Hv, Hover. cbn [negb orb]. cbv zeta. fold cells.
  apply Gomoku_isValidMove_spec in Hv as [Hin Hzero].
  pose proof (Gomoku_cell_set_eq (Gomoku.board g) row col
                (Gomoku.currentPlayer g) Hok Hin) as Hcell.
  fold cells in Hcell.
  destruct (any_line_run cells row col fuel AXES Hin Hfuel)
    as (res & Hres & Hiff); [done|].
  rewrite Hcell in Hres, Hiff.
  assert (Gomoku.checkWinFast fuel cells row col = Some res) as ->.
  { unfold Gomoku.checkWinFast. rewrite Hcell. exact Hres. }
  cbn [mbind option_bind].
  fold (five_through (Gomoku_own cells (Gomoku.currentPlayer g)) row col) in Hiff.
  fold five in Hiff.
  destruct res.
  - eexists. split; [done|]. cbn. repeat split; try done. left.
    split; [by apply Hiff|done].
  - assert (¬ five) as Hno by (intros Hf; by apply Hiff in Hf).
    destruct (Gomoku.moveCount g + 1 =? Gomoku.MAX_MOVES) eqn:Hfull.
    + eexists. split; [done|]. cbn. repeat split; try done. right. left.
      split; [done|]. split; [lia|done].
    + eexists. split; [done|]. cbn. repeat split; try done. right. right.
      split; [done|]. split; [lia|done].
Qed.

(** X14.  [makeMove] refuses, changing nothing, a move that is out of range
    or on an occupied cell and any move once the game is over.  Otherwise it
    places the current player's stone, records the position, and then: the
    game ends with that player as winner exactly when the stone lies in a
    run of five or more; else it ends as a draw when this was move 225; else
    the other player is to move. *)
Theorem makeMove_outcome (fuel : nat) (g : Gomoku.t) (row col : Z) :
  grid_ok (Gomoku.board g) → (15 ≤ fuel)%nat →
  (Gomoku.isValidMove (Gomoku.board g) row col = false ∨
   Gomoku.gameOver g = true →
   Gomoku.makeMove fuel g row col = Some (false, g)) ∧
  (Gomoku.isValidMove (Gomoku.board g) row col = true →
   Gomoku.gameOver g = false →
   let cells := array_set (Gomoku.board g) row col (Gomoku.currentPlayer g) in
   let five := five_through (Gomoku_own cells (Gomoku.currentPlayer g)) row col in
   ∃ g', Gomoku.makeMove fuel g row col = Some (true, g') ∧
         Gomoku.board g' = cells ∧
         Gomoku.occupiedPositions g' = Gomoku.occupiedPositions g ++ [(row, col)] ∧
         Gomoku.moveCount g' = Gomoku.moveCount g + 1 ∧
         Gomoku.lastMove g' = (row, col) ∧
         ((five ∧ Gomoku.gameOver g' = true ∧
           Gomoku.winner g' = Gomoku.currentPlayer g ∧
           Gomoku.currentPlayer g' = Gomoku.currentPlayer g) ∨
          (¬ five ∧ Gomoku.moveCount g + 1 = Gomoku.MAX_MOVES ∧
           Gomoku.gameOver g' = true ∧ Gomoku.winner g' = 0 ∧
           Gomoku.currentPlayer g' = Gomoku.currentPlayer g) ∨
          (¬ five ∧ Gomoku.moveCount g + 1 ≠ Gomoku.MAX_MOVES ∧
           Gomoku.gameOver g' = false ∧ Gomoku.winner g' = Gomoku.winner g ∧
           Gomoku.currentPlayer g' = 3 - Gomoku.currentPlayer g))).
Proof.
  intros Hok Hfuel. split.
  - intros Hrej. unfold Gomoku.makeMove.
    destruct Hrej as [-> | ->]; [done|]. by rewrite orb_true_r.
  - intros Hv Hover. by apply makeMove_success.
Qed.

Lemma makeMove_outcome_witness :
  Gomoku.makeMove 15 Gomoku.reset 15 0 = Some (false, Gomoku.reset) ∧
  ∃ g', Gomoku.makeMove 15 Gomoku.reset 7 7 = Some (true, g') ∧
        Gomoku.board g' = array_set (array_fill 0) 7 7 1.
Proof.
  pose proof (makeMove_outcome 15 Gomoku.reset 15 0 (array_fill_ok 0)
                ltac:(lia)) as [Hrej _].
  pose proof (makeMove_outcome 15 Gomoku.reset 7 7 (array_fill_ok 0)
                ltac:(lia)) as [_ Hacc].
  split; [apply Hrej; by left|].
  destruct (Hacc eq_refl eq_refl) as (g' & Hg' & Hb & _). by exists g'.
Defined.

Lemma Gomoku_inv_place (g : Gomoku.t) (row col player : Z) (over : bool)
    (won : Z) :
  Gomoku_inv g →
  Gomoku.isValidMove (Gomoku.board g) row col = true →
  (player = 1 ∨ player = 2) →
  (over = false → won = 0) → (won = 0 ∨ won = 1 ∨ won = 2) →
  Gomoku_inv
    {| Gomoku.board := array_set (Gomoku.board g) row col (Gomoku.currentPlayer g);
       Gomoku.occupiedPositions := Gomoku.occupiedPositions g ++ [(row, col)];
       Gomoku.currentPlayer := player; Gomoku.gameOver := over;
       Gomoku.winner := won; Gomoku.moveCount := Gomoku.moveCount g + 1;
       Gomoku.lastMove := (row, col); Gomoku.cacheValid := false |}.
Proof.
  intros (Hok & Hcp & Hcnt & Hnd & Hocc & Hval & Hover & Hwin)
    [Hin Hzero]%Gomoku_isValidMove_spec Hp Ho Hw.
  assert (∀ r c, Gomoku.cell (array_set (Gomoku.board g) row col
                                 (Gomoku.currentPlayer g)) r c
                 = if bool_decide ((row, col) = (r, c))
                   then Gomoku.currentPlayer g
                   else Gomoku.cell (Gomoku.board g) r c) as Hcell.
  { intros r c. case_bool_decide as Heq.
    - injection Heq as <- <-. by apply Gomoku_cell_set_eq.
    - by apply Gomoku_cell_set_ne. }
  unfold Gomoku_inv. cbn.
  split; [by apply array_set_ok|]. split; [done|].
  split; [rewrite length_app; simpl; lia|]. split.
  { apply NoDup_app. split; [done|]. split; [|apply NoDup_singleton].
    intros t Ht ->%list_elem_of_singleton. apply Hocc in Ht; [|done]. done. }
  split.
  { intros r c Hrc. rewrite Hcell, elem_of_app, list_elem_of_singleton.
    case_bool_decide as Heq.
    - injection Heq as <- <-. split; [by right|]. intros _. lia.
    - rewrite Hocc by done. split; [by left|]. intros [?|Heq']; [done|].
      by destruct Heq. }
  split.
  { intros r c. rewrite Hcell. case_bool_decide; [lia|apply Hval]. }
  done.
Qed.

Lemma Gomoku_inv_reset : Gomoku_inv Gomoku.reset.
Proof.
  unfold Gomoku_inv, Gomoku.reset. cbn.
  split; [apply array_fill_ok|]. split; [by left|]. split; [done|].
  split; [constructor|].
  assert (∀ r c, Gomoku.cell (array_fill 0) r c = 0) as Hzero.
  { intros r c. unfold Gomoku.cell.
    destruct (array_at (array_fill 0) r c) as [v|] eqn:Hat; [|done]. simpl.
    unfold array_at, array_fill in Hat.
    destruct ((0 <=? r) && (0 <=? c)); [|done].
    destruct (replicate _ _ !! Z.to_nat r) as [rw|] eqn:Hrw; [|done].
    apply lookup_replicate in Hrw as [-> _]. cbn [mbind option_bind] in Hat.
    by apply lookup_replicate in Hat as [-> _]. }
  split.
  { intros r c _. rewrite Hzero. split; [done|]. by intros ?%elem_of_nil. }
  split; [intros r c; left; apply Hzero|]. split; [done|by left].
Qed.

(** X15.  The state the constructor and [reset] establish satisfies the
    game invariant, and every call of [makeMove], accepted or refused, keeps
    it: [occupiedPositions] lists without repetition exactly the non-zero
    cells, [moveCount] is its length, cells hold 0, 1 or 2, the current
    player is 1 or 2, and a game that is not over has no winner. *)
Theorem makeMove_keeps_invariant :
  Gomoku_inv Gomoku.reset ∧
  ∀ (fuel : nat) (g : Gomoku.t) (row col : Z) (res : bool) (g' : Gomoku.t),
    Gomoku_inv g →
    Gomoku.makeMove fuel g row col = Some (res, g') →
    Gomoku_inv g'.
Proof.
  split; [apply Gomoku_inv_reset|].
  intros fuel g row col res g' Hinv Hmove. unfold Gomoku.makeMove in Hmove.
  destruct (Gomoku.isValidMove (Gomoku.board g) row col) eqn:Hv;
    [|by injection Hmove as _ <-].
  destruct (Gomoku.gameOver g) eqn:Hover; [by injection Hmove as _ <-|].
  cbn [negb orb] in Hmove. cbv zeta in Hmove.
  destruct (Gomoku.checkWinFast fuel _ row col) as [won|]; [|done].
  cbn [mbind option_bind] in Hmove.
  pose proof Hinv as (_ & Hcp & _ & _ & _ & _ & Hnow & Hwin).
  destruct won; [|destruct (_ =? Gomoku.MAX_MOVES)]; injection Hmove as _ <-.
  - apply Gomoku_inv_place; [done..| |lia]. done.
  - apply Gomoku_inv_place; [done..| |by left]. done.
  - apply Gomoku_inv_place; [done|done|lia| |done]. intros _. by apply Hnow.
Qed.

Lemma makeMove_keeps_invariant_witness :
  ∃ g', Gomoku.makeMove 15 Gomoku.reset 7 7 = Some (true, g') ∧ Gomoku_inv g'.
Proof.
  eexists. split; [vm_compute; reflexivity|].
  apply (proj2 makeMove_keeps_invariant 15%nat Gomoku.reset 7 7 true);
    [apply (proj1 makeMove_keeps_invariant)|vm_compute; reflexivity].
Defined.

(** ** class Gomoku (array-based): evaluatePositionFast *)

Lemma extent_ext (own own' : Z → Z → Prop) r c sr sc n :
  (∀ k, 1 <= k → own (r + k * sr) (c + k * sc) ↔ own' (r + k * sr) (c + k * sc)) →
  extent own r c sr sc n → extent own' r c sr sc n.
Proof.
  intros Hext (Hn & Hown & Hstop). split; [done|]. split.
  - intros k Hk. apply Hext; [lia|]. by apply Hown.
  - intros H. apply Hstop, Hext; [lia|done].
Qed.

Lemma axis_step_moves sr sc k r c :
  axis_step sr sc → 1 <= k → (r, c) ≠ (r + k * sr, c + k * sc).
Proof.
  unfold axis_step. intros Hax Hk [= Hr Hc].
  destruct Hax as [-> | [-> | [-> [-> | ->]]]]; lia.
Qed.

(** The inner loop, entered [j] steps from the cell, counts the rest of the
    extent of the player's stones. *)
Lemma walk_extent cells player opponent r0 c0 sr sc n :
  extent (Gomoku_own cells player) r0 c0 sr sc n →
  ∀ (fuel : nat) j cnt consecutive,
    1 <= j <= n + 1 → n + 1 - j < Z.of_nat fuel →
    ∃ r c cnt',
      Gomoku.walk fuel cells player opponent (r0 + j * sr) (c0 + j * sc) sr sc
        cnt consecutive
      = Some (r, c, cnt', consecutive + (n + 1 - j)) ∧
      Gomoku.playerCount cnt' = Gomoku.playerCount cnt + (n + 1 - j).
Proof.
  intros (Hn & Hown & Hstop).
  induction fuel as [|fuel IH]; intros j cnt consecutive Hj Hf; [lia|].
  cbn [Gomoku.walk].
  destruct (decide (j = n + 1)) as [->|Hne].
  - replace (n + 1 - (n + 1)) with 0 by lia. rewrite !Z.add_0_r.
    destruct ((_ >=? 0) && _ && _ && _) eqn:Hin; [|by eauto].
    destruct (_ =? player) eqn:Hcell.
    { destruct Hstop. apply Gomoku_own_test. by rewrite Hin, Hcell. }
    destruct (_ =? opponent); [by eauto|].
    destruct (consecutive >? 0); by eauto.
  - assert (Gomoku_own cells player (r0 + j * sr) (c0 + j * sc)) as Hj'
      by (apply Hown; lia).
    apply Gomoku_own_test, andb_true_iff in Hj' as [-> ->].
    replace (r0 + j * sr + sr) with (r0 + (j + 1) * sr) by lia.
    replace (c0 + j * sc + sc) with (c0 + (j + 1) * sc) by lia.
    destruct (IH (j + 1)
                (Gomoku.mkLineCount (Gomoku.playerCount cnt + 1)
                   (Gomoku.opponentCount cnt) (Gomoku.openEnds cnt))
                (consecutive + 1)) as (r & c & cnt' & Hw & Hpc); [lia|lia|].
    exists r, c, cnt'. rewrite Hw. split; [do 2 f_equal; lia|].
    rewrite Hpc. simpl. lia.
Qed.

Lemma walk_sign_extent cells player opponent row col dir cnt sign n
    (fuel : nat) :
  extent (Gomoku_own cells player) row col (sign * dir.1) (sign * dir.2) n →
  n < Z.of_nat fuel →
  ∃ cnt', Gomoku.walk_sign fuel cells player opponent row col dir cnt sign
          = Some cnt' ∧
          Gomoku.playerCount cnt' = Gomoku.playerCount cnt + n.
Proof.
  intros Hext Hfuel. pose proof Hext as [Hn _]. unfold Gomoku.walk_sign.
  destruct (walk_extent cells player opponent row col _ _ n Hext fuel 1 cnt 0)
    as (r & c & cnt' & Hw & Hpc); [lia..|].
  rewrite !Z.mul_1_l in Hw. rewrite Hw. cbn [mbind option_bind].
  eexists. split; [done|].
  destruct (negb _); [destruct (_ =? 0)|]; simpl; lia.
Qed.

Lemma eval_lines_spec (fuel : nat) cells row col player dirs :
  grid_ok cells → Gomoku.isValidMove cells row col = true → (15 ≤ fuel)%nat →
  dirs ⊆ AXES →
  let own' := Gomoku_own (array_set cells row col player) player in
  let five := ∃ d n, d ∈ dirs ∧ run_through own' row col d.1 d.2 n ∧ 5 <= n in
  ∀ score,
    0 <= score →
    score + 50000 * Z.of_nat (length dirs) + 75 < Gomoku.WIN_SCORE →
    ∃ v, Gomoku.eval_lines fuel cells row col player dirs score = Some v ∧
         (v = Gomoku.WIN_SCORE ↔ five) ∧
         (¬ five → score + 5 <= v <= score + 50000 * Z.of_nat (length dirs) + 75).
Proof.
  intros Hok [Hin Hzero]%Gomoku_isValidMove_spec Hfuel.
  induction dirs as [|d dirs IH]; intros Hsub own' five score Hs Hbound.
  - cbn [Gomoku.eval_lines]. eexists. split; [done|].
    apply in_range_spec in Hin. unfold BOARD_SIZE, Gomoku.WIN_SCORE in *.
    change (15 ÷ 2) with 7. simpl length in *.
    assert (¬ five) as Hno by (by intros (d & n & ?%elem_of_nil & _)).
    split; [split; [lia|done]|]. intros _. lia.
  - assert (d ∈ AXES) as Hd by (apply Hsub, elem_of_cons; by left).
    destruct (axis_step_AXES d Hd) as [Hfwd Hbwd].
    set (own := Gomoku_own cells player).
    destruct (extent_exists own (Gomoku_own_in_range cells player)
                row col _ _ Hfwd Hin) as (b & Hb & Hb15).
    destruct (extent_exists own (Gomoku_own_in_range cells player)
                row col _ _ Hbwd Hin) as (a & Ha & Ha15).
    pose proof Ha as [Ha0 _]. pose proof Hb as [Hb0 _].
    assert (run_through own' row col d.1 d.2 (a + 1 + b)) as Hrun.
    { split.
      - split; [done|]. by apply Gomoku_cell_set_eq.
      - exists a, b. split; [|split; [|done]].
        + eapply extent_ext; [|exact Ha]. intros k Hk. unfold own, own', Gomoku_own.
          by rewrite Gomoku_cell_set_ne by (by apply axis_step_moves).
        + eapply extent_ext; [|exact Hb]. intros k Hk. unfold own, own', Gomoku_own.
          by rewrite Gomoku_cell_set_ne by (by apply axis_step_moves). }
    cbn [Gomoku.eval_lines]. cbv zeta.
    destruct (walk_sign_extent cells player (3 - player) row col d
                (Gomoku.mkLineCount 0 0 0) (-1) a fuel) as (cnt1 & -> & Hpc1).
    { by replace (-1 * d.1) with (- d.1) by lia;
        replace (-1 * d.2) with (- d.2) by lia. }
    { unfold BOARD_SIZE in *. lia. }
    cbn [mbind option_bind].
    destruct (walk_sign_extent cells player (3 - player) row col d cnt1 1 b fuel)
      as (cnt2 & -> & Hpc2).
    { by rewrite !Z.mul_1_l. }
    { unfold BOARD_SIZE in *. lia. }
    cbn [mbind option_bind]. simpl in Hpc1.
    rewrite length_cons, Nat2Z.inj_succ in Hbound |- *.
    destruct (_ >=? Gomoku.WIN_COUNT) eqn:Hwin.
    + eexists. split; [done|].
      assert (five) as Hfive.
      { exists d, (a + 1 + b). split; [apply elem_of_cons; by left|].
        split; [done|]. unfold Gomoku.WIN_COUNT in Hwin. lia. }
      split; [done|]. intros Hno. by destruct Hno.
    + set (score' :=
        if Gomoku.opponentCount cnt2 =? 0
        then if Gomoku.playerCount cnt2 + 1 =? 4
             then score + (if Gomoku.openEnds cnt2 =? 2 then 50000 else 10000)
             else if Gomoku.playerCount cnt2 + 1 =? 3
             then score + (if Gomoku.openEnds cnt2 =? 2 then 5000 else 1000)
             else if Gomoku.playerCount cnt2 + 1 =? 2
             then score + (if Gomoku.openEnds cnt2 =? 2 then 500 else 100)
             else score
        else score).
      assert (score <= score' <= score + 50000) as Hscore'.
      { unfold score'.
        repeat match goal with
               | |- context [if ?c then _ else _] => destruct c
               end; lia. }
      destruct (IH ltac:(intros x Hx; apply Hsub, elem_of_cons; by right)
                  score' ltac:(lia) ltac:(lia)) as (v & Hv & Hiff & Hrange).
      exists v. split; [exact Hv|].
      assert (five ↔ ∃ d' n, d' ∈ dirs ∧ run_through own' row col d'.1 d'.2 n
                              ∧ 5 <= n) as Hfive.
      { split.
        - intros (d' & n & [->|Hd']%elem_of_cons & Hrun' & Hn); [|eauto].
          rewrite (run_through_unique _ _ _ _ _ _ _ Hrun' Hrun) in Hn.
          unfold Gomoku.WIN_COUNT in Hwin. lia.
        - intros (d' & n & Hd' & ?). exists d', n.
          split; [apply elem_of_cons; by right|done]. }
      split; [by rewrite Hfive|].
      intros Hno. rewrite Hfive in Hno. specialize (Hrange Hno). lia.
Qed.

(** X16.  [evaluatePositionFast] answers -1 for a cell that is not a valid
    move.  For a valid move it returns, and returns WIN_SCORE exactly when
    the player's stone on that cell would lie in a run of five or more, that
    is when [checkWinFast] would be true after the move; every other result
    lies between 5 and 200075, so the test [attackScore >= WIN_SCORE] singles
    out the immediately winning cells. *)
Theorem evaluatePositionFast_win (fuel : nat) (cells : Grid Z)
    (row col player : Z) :
  grid_ok cells → (15 ≤ fuel)%nat →
  (Gomoku.isValidMove cells row col = false →
   Gomoku.evaluatePositionFast fuel cells row col player = Some (-1)) ∧
  (Gomoku.isValidMove cells row col = true →
   let placed := array_set cells row col player in
   ∃ v, Gomoku.evaluatePositionFast fuel cells row col player = Some v ∧
        (v = Gomoku.WIN_SCORE ↔ five_through (Gomoku_own placed player) row col) ∧
        (v ≠ Gomoku.WIN_SCORE → 5 <= v <= 200075) ∧
        Gomoku.checkWinFast fuel placed row col
        = Some (bool_decide (v = Gomoku.WIN_SCORE))).
Proof.
  intros Hok Hfuel. unfold Gomoku.evaluatePositionFast. split.
  - by intros ->.
  - intros Hv. set (placed := array_set cells row col player). rewrite Hv. cbn [negb].
    destruct (eval_lines_spec fuel cells row col player AXES Hok Hv Hfuel
                ltac:(done) 0 ltac:(lia) ltac:(by vm_compute))
      as (v & Hres & Hiff & Hrange).
    exists v. split; [exact Hres|]. fold placed in Hiff, Hrange.
    split; [exact Hiff|]. split.
    + intros Hne. rewrite Hiff in Hne. specialize (Hrange Hne).
      change (Z.of_nat (length AXES)) with 4 in Hrange. lia.
    + apply Gomoku_isValidMove_spec in Hv as [Hin _].
      pose proof (Gomoku_cell_set_eq cells row col player Hok Hin) as Hcell.
      fold placed in Hcell.
      destruct (any_line_run placed row col fuel AXES Hin Hfuel)
        as (res & Hcw & Hres'); [done|].
      rewrite Hcell in Hcw, Hres'. unfold Gomoku.checkWinFast.
      rewrite Hcell. change Gomoku.DIRECTIONS with AXES. rewrite Hcw.
      f_equal. destruct res.
      * symmetry. apply bool_decide_eq_true. apply Hiff, Hres'. done.
      * symmetry. apply bool_decide_eq_false. intros Hwin%Hiff.
        by apply Hres' in Hwin.
Qed.

Lemma evaluatePositionFast_win_witness :
  Gomoku.evaluatePositionFast 15 four_with_gap 7 3 1 = Some (-1) ∧
  ∃ v, Gomoku.evaluatePositionFast 15 four_with_gap 7 5 1 = Some v ∧
       (v = Gomoku.WIN_SCORE ↔
        five_through (Gomoku_own (array_set four_with_gap 7 5 1) 1) 7 5).
Proof.
  assert (grid_ok four_with_gap) as Hok.
  { unfold four_with_gap. simpl foldl. repeat apply array_set_ok.
    apply array_fill_ok. }
  split.
  - apply (proj1 (evaluatePositionFast_win 15 four_with_gap 7 3 1 Hok
                    ltac:(lia))). reflexivity.
  - destruct (proj2 (evaluatePositionFast_win 15 four_with_gap 7 5 1 Hok
                       ltac:(lia)) eq_refl) as (v & Hv & Hiff & _).
    by exists v.
Defined.

(** ** class AIPlayer: scoreWindow, evaluateLine, evaluateBoard *)

Lemma forallb_elem {A} (f : A → bool) (l : list A) :
  forallb f l = true → ∀ x, x ∈ l → f x = true.
Proof.
  induction l as [|y l IH]; intros Hall x Hx.
  - by apply elem_of_nil in Hx.
  - cbn [forallb] in Hall. apply andb_true_iff in Hall as [Hy Hl].
    apply elem_of_cons in Hx as [->|Hx]; [done|by apply IH].
Qed.

Lemma not_forallb_elem {A} (f : A → bool) (l : list A) :
  (∀ x, x ∈ l → f x = true) → forallb f l = true.
Proof.
  induction l as [|y l IH]; intros Hall; [done|].
  cbn [forallb]. rewrite Hall by (apply elem_of_cons; by left).
  apply IH. intros x Hx. apply Hall, elem_of_cons. by right.
Qed.

Lemma no_five_b_sound board : no_five_b board = true → no_five board.
Proof.
  intros Hb player r c d Hplayer Hd Hfull.
  assert (player ∈ [GomokuGame.BLACK; GomokuGame.WHITE]) as Hp.
  { destruct player; [done|apply elem_of_cons; by left|].
    apply elem_of_cons; right. apply elem_of_cons; by left. }
  pose proof (Hfull 0 ltac:(unfold WIN_LENGTH; lia)) as [Hin _].
  rewrite !Z.mul_0_l, !Z.add_0_r in Hin. apply in_range_spec in Hin.
  unfold no_five_b in Hb.
  pose proof (forallb_elem _ _ Hb player Hp) as H1.
  pose proof (forallb_elem _ _ H1 r ltac:(apply elem_of_ints; lia)) as H2.
  pose proof (forallb_elem _ _ H2 c ltac:(apply elem_of_ints; lia)) as H3.
  pose proof (forallb_elem _ _ H3 d Hd) as H4. cbv beta in H4.
  apply negb_true_iff in H4. rewrite not_forallb_elem in H4; [done|].
  intros k Hk%elem_of_ints. destruct (Hfull k Hk) as [-> ->].
  by rewrite bool_decide_eq_true_2.
Qed.

Lemma out_of_board_test r c :
  (r <? 0) || (r >=? BOARD_SIZE) || (c <? 0) || (c >=? BOARD_SIZE)
  = negb (in_range r c).
Proof.
  destruct (in_range r c) eqn:Hin.
  - apply in_range_spec in Hin. cbn [negb]. rewrite !orb_false_iff. lia.
  - apply in_range_false in Hin. cbn [negb]. rewrite !orb_true_iff. lia.
Qed.

(** The counting loop of [scoreWindow]: it gives up at a cell off the board
    or holding another stone; otherwise the two counters account for every
    cell visited. *)
Lemma window_loop_spec board r c dr dc player ks :
  ∀ pc ec,
    match AIPlayer.window_loop board r c dr dc player ks pc ec with
    | None =>
        ∃ k, k ∈ ks ∧
             (in_range (r + k * dr) (c + k * dc) = false ∨
              (GomokuGame.cell board (r + k * dr) (c + k * dc) ≠ player ∧
               GomokuGame.cell board (r + k * dr) (c + k * dc)
                 ≠ GomokuGame.EMPTY))
    | Some (pc', ec') =>
        (∀ k, k ∈ ks →
              in_range (r + k * dr) (c + k * dc) = true ∧
              (GomokuGame.cell board (r + k * dr) (c + k * dc) = player ∨
               GomokuGame.cell board (r + k * dr) (c + k * dc)
                 = GomokuGame.EMPTY)) ∧
        pc <= pc' ∧ ec <= ec' ∧
        pc' + ec' = pc + ec + Z.of_nat (length ks) ∧
        (pc' = pc + Z.of_nat (length ks) ↔
         ∀ k, k ∈ ks → GomokuGame_own board player (r + k * dr) (c + k * dc))
    end.
Proof.
  induction ks as [|k ks IH]; intros pc ec.
  - cbn [AIPlayer.window_loop]. split; [by intros k ?%elem_of_nil|].
    simpl. split; [lia|]. split; [lia|]. split; [lia|].
    split; [by intros _ k ?%elem_of_nil|lia].
  - cbn [AIPlayer.window_loop]. cbv zeta. rewrite out_of_board_test.
    destruct (in_range (r + k * dr) (c + k * dc)) eqn:Hin; cbn [negb].
    2:{ exists k. split; [apply elem_of_cons; by left|by left]. }
    rewrite length_cons, Nat2Z.inj_succ.
    destruct (decide (GomokuGame.cell board (r + k * dr) (c + k * dc) = player))
      as [Hp|Hp].
    { rewrite bool_decide_eq_true_2 by done. specialize (IH (pc + 1) ec).
      destruct (AIPlayer.window_loop _ _ _ _ _ _ ks _ _) as [[pc' ec']|].
      - destruct IH as (Hall & Hpc & Hec & Hsum & Hiff).
        split; [|split; [lia|split; [lia|split; [lia|]]]].
        + intros k' [->|Hk']%elem_of_cons; [by auto|by apply Hall].
        + split.
          * intros Heq k' [->|Hk']%elem_of_cons; [by split|].
            apply Hiff; [lia|done].
          * intros Hown. assert (pc' = pc + 1 + Z.of_nat (length ks)); [|lia].
            apply Hiff. intros k' Hk'. apply Hown, elem_of_cons. by right.
      - destruct IH as (k' & Hk' & Hbad). exists k'.
        split; [apply elem_of_cons; by right|done]. }
    rewrite bool_decide_eq_false_2 by done.
    destruct (decide (GomokuGame.cell board (r + k * dr) (c + k * dc)
                      = GomokuGame.EMPTY)) as [He|He].
    { rewrite bool_decide_eq_true_2 by done. specialize (IH pc (ec + 1)).
      destruct (AIPlayer.window_loop _ _ _ _ _ _ ks _ _) as [[pc' ec']|].
      - destruct IH as (Hall & Hpc & Hec & Hsum & Hiff).
        split; [|split; [lia|split; [lia|split; [lia|]]]].
        + intros k' [->|Hk']%elem_of_cons; [by auto|by apply Hall].
        + split; [lia|]. intros Hown.
          destruct (Hown k ltac:(apply elem_of_cons; by left)) as [_ Hk].
          done.
      - destruct IH as (k' & Hk' & Hbad). exists k'.
        split; [apply elem_of_cons; by right|done]. }
    rewrite bool_decide_eq_false_2 by done.
    exists k. split; [apply elem_of_cons; by left|by right].
Qed.

Lemma scoreWindow_cases board r c dr dc player :
  (AIPlayer.scoreWindow board r c dr dc player = AIPlayer.SCORE_FIVE ↔
   window_full board player r c dr dc) ∧
  (window_blocked board player r c dr dc →
   AIPlayer.scoreWindow board r c dr dc player = 0) ∧
  (AIPlayer.scoreWindow board r c dr dc player = AIPlayer.SCORE_FIVE ∨
   0 <= AIPlayer.scoreWindow board r c dr dc player
     <= AIPlayer.SCORE_HALF_OPEN_FOUR).
Proof.
  unfold AIPlayer.scoreWindow, window_full, window_blocked.
  pose proof (window_loop_spec board r c dr dc player (ints 0 WIN_LENGTH) 0 0)
    as Hloop.
  destruct (AIPlayer.window_loop _ _ _ _ _ _ _ _ _) as [[pc ec]|].
  - destruct Hloop as (Hall & Hpc & Hec & Hsum & Hiff).
    change (Z.of_nat (length (ints 0 WIN_LENGTH))) with 5 in Hsum, Hiff.
    setoid_rewrite elem_of_ints in Hiff. setoid_rewrite elem_of_ints in Hall.
    unfold AIPlayer.SCORE_FIVE, AIPlayer.SCORE_HALF_OPEN_FOUR,
      AIPlayer.SCORE_HALF_OPEN_THREE, AIPlayer.SCORE_HALF_OPEN_TWO,
      AIPlayer.SCORE_ONE.
    split; [|split].
    + rewrite <- Hiff.
      repeat match goal with
             | |- context [if ?b then _ else _] => destruct b eqn:?
             end; split; lia.
    + intros (k & Hk & Hbad). destruct (Hall k Hk) as [Hin Hcell].
      destruct Hbad as [Hout|[Hnp Hne]]; [congruence|].
      by destruct Hcell.
    + repeat match goal with
             | |- context [if ?b then _ else _] => destruct b eqn:?
             end; lia.
  - destruct Hloop as (k & Hk%elem_of_ints & Hbad).
    unfold AIPlayer.SCORE_FIVE, AIPlayer.SCORE_HALF_OPEN_FOUR.
    split; [|split; [done|lia]]. split; [lia|]. intros Hfull.
    destruct (Hfull k Hk) as [Hin Hcell].
    destruct Hbad as [Hout|[Hnp Hne]]; [congruence|done].
Qed.

(** X17.  [scoreWindow] returns SCORE_FIVE exactly when the five cells of the
    window are on the board and all hold [player]; it returns 0 whenever one
    of the five cells is off the board or holds a stone of the other side;
    and every result other than SCORE_FIVE lies between 0 and
    SCORE_HALF_OPEN_FOUR, so SCORE_OPEN_FOUR, SCORE_OPEN_THREE and
    SCORE_OPEN_TWO are never returned. *)
Theorem scoreWindow_five (board : Grid GomokuGame.Cell) (r c dr dc : Z)
    (player : GomokuGame.Cell) :
  (AIPlayer.scoreWindow board r c dr dc player = AIPlayer.SCORE_FIVE ↔
   window_full board player r c dr dc) ∧
  (window_blocked board player r c dr dc →
   AIPlayer.scoreWindow board r c dr dc player = 0) ∧
  (AIPlayer.scoreWindow board r c dr dc player ≠ AIPlayer.SCORE_FIVE →
   0 <= AIPlayer.scoreWindow board r c dr dc player <= 10000) ∧
  AIPlayer.scoreWindow board r c dr dc player
    ∉ [AIPlayer.SCORE_OPEN_FOUR; AIPlayer.SCORE_OPEN_THREE;
       AIPlayer.SCORE_OPEN_TWO].
Proof.
  destruct (scoreWindow_cases board r c dr dc player) as (Hfive & Hzero & Hrange).
  split; [exact Hfive|]. split; [exact Hzero|]. split.
  - intros Hne. destruct Hrange as [?|Hrange]; [done|].
    unfold AIPlayer.SCORE_HALF_OPEN_FOUR in Hrange. lia.
  - clear Hfive Hzero Hrange. unfold AIPlayer.scoreWindow.
    destruct (AIPlayer.window_loop _ _ _ _ _ _ _ _ _) as [[pc ec]|].
    + repeat match goal with
             | |- context [if ?b then _ else _] => destruct b
             end;
        intros Hel; repeat (apply elem_of_cons in Hel as [Hel|Hel]; [done|]);
        by apply elem_of_nil in Hel.
    + intros Hel; repeat (apply elem_of_cons in Hel as [Hel|Hel]; [done|]);
        by apply elem_of_nil in Hel.
Qed.

Lemma scoreWindow_five_witness :
  AIPlayer.scoreWindow (GomokuGame.board diagonal_five) 2 2 1 1 GomokuGame.BLACK
    = AIPlayer.SCORE_FIVE ∧
  AIPlayer.scoreWindow (GomokuGame.board diagonal_four) 2 2 1 1 GomokuGame.BLACK
    = 0.
Proof.
  split.
  - apply (proj1 (scoreWindow_five (GomokuGame.board diagonal_five) 2 2 1 1
                    GomokuGame.BLACK)).
    intros k Hk. unfold WIN_LENGTH in Hk.
    assert (k = 0 ∨ k = 1 ∨ k = 2 ∨ k = 3 ∨ k = 4) as Hcases by lia.
    destruct Hcases as [-> | [-> | [-> | [-> | ->]]]]; by vm_compute.
  - apply (proj1 (proj2 (scoreWindow_five (GomokuGame.board diagonal_four)
                           2 2 1 1 GomokuGame.BLACK))).
    exists 4. split; [by vm_compute|]. right. by vm_compute.
Defined.

Lemma scoreWindow_left_edge board r player :
  AIPlayer.scoreWindow board r 0 1 (-1) player = 0.
Proof.
  apply (scoreWindow_cases board r 0 1 (-1) player).
  exists 1. split; [unfold WIN_LENGTH; lia|]. left.
  apply in_range_false. lia.
Qed.

Lemma line_sums_left_edge self board r_start (l : list Z) :
  (∀ i, i ∈ l → 0 <= i) →
  ∀ sums : Z * Z,
    foldl (λ (sums : Z * Z) i,
      let r := r_start + i * 1 in
      let c := 0 + i * -1 in
      if (r <? 0) || (r >=? BOARD_SIZE) || (c <? 0) || (c >=? BOARD_SIZE)
      then sums
      else (sums.1 + AIPlayer.scoreWindow board r c 1 (-1)
                       (AIPlayer.ai_player self),
            sums.2 + AIPlayer.scoreWindow board r c 1 (-1)
                       (AIPlayer.opponent_player self)))
      sums l = sums.
Proof.
  induction l as [|i l IH]; intros Hpos sums; [done|].
  cbn [foldl]. cbv zeta.
  pose proof (Hpos i ltac:(apply elem_of_cons; by left)) as Hi.
  rewrite IH by (intros j Hj; apply Hpos, elem_of_cons; by right).
  destruct (_ || _) eqn:Hout; [done|].
  apply orb_false_iff in Hout as [[_ Hc]%orb_false_iff _].
  replace (0 + i * -1) with 0 by lia.
  rewrite !scoreWindow_left_edge, !Z.add_0_r. by destruct sums.
Qed.

(** X18.  The calls [evaluateLine(board, i, 0, 1, -1)] of [evaluateBoard]
    contribute nothing, whatever the board and the row [i]: every window
    that starts in column 0 and runs down-left leaves the board at its
    second cell.  The anti-diagonals are therefore evaluated only by the
    calls that start in row 0. *)
Theorem evaluateLine_left_edge_is_zero (self : AIPlayer.t)
    (board : Grid GomokuGame.Cell) (i : Z) :
  AIPlayer.evaluateLine self board i 0 1 (-1) = 0.
Proof.
  unfold AIPlayer.evaluateLine, AIPlayer.line_sums.
  rewrite line_sums_left_edge; [done|].
  intros j Hj%elem_of_ints. lia.
Qed.

Lemma line_sums_swap a b d d' board r c dr dc :
  AIPlayer.line_sums (AIPlayer.mk a b d) board r c dr dc
  = ((AIPlayer.line_sums (AIPlayer.mk b a d') board r c dr dc).2,
     (AIPlayer.line_sums (AIPlayer.mk b a d') board r c dr dc).1).
Proof.
  unfold AIPlayer.line_sums.
  generalize (ints 0 (BOARD_SIZE - WIN_LENGTH + 1)).
  intros l. change (0, 0) with ((0, 0).2, (0, 0).1) at 1.
  generalize (0, 0). induction l as [|i l IH]; intros sums; [done|].
  cbn [foldl]. rewrite <- IH. f_equal. cbv zeta. simpl.
  by destruct (_ || _).
Qed.

Lemma evaluateLine_swap a b d d' board r c dr dc :
  AIPlayer.evaluateLine (AIPlayer.mk a b d) board r c dr dc
  = - AIPlayer.evaluateLine (AIPlayer.mk b a d') board r c dr dc.
Proof.
  unfold AIPlayer.evaluateLine. rewrite (line_sums_swap a b d d'). simpl. lia.
Qed.

Lemma foldl_negate {A} (f f' : Z → A → Z) (l : list A) :
  (∀ s x, f (- s) x = - f' s x) →
  ∀ s, foldl f (- s) l = - foldl f' s l.
Proof.
  intros Hstep. induction l as [|x l IH]; intros s; [done|].
  cbn [foldl]. by rewrite Hstep, IH.
Qed.

Lemma evaluateBoard_swap a b d d' board :
  AIPlayer.evaluateBoard (AIPlayer.mk a b d) board
  = - AIPlayer.evaluateBoard (AIPlayer.mk b a d') board.
Proof.
  unfold AIPlayer.evaluateBoard. cbv zeta.
  match goal with
  | |- foldl ?g (foldl ?h 0 ?l) ?l = - foldl ?g' (foldl ?h' 0 ?l) ?l =>
      assert (foldl h 0 l = - foldl h' 0 l) as ->;
        [refine (foldl_negate h h' l _ 0)|apply (foldl_negate g g')]
  end.
  - intros s i. rewrite !(evaluateLine_swap a b d d'). lia.
  - intros s i. rewrite !(evaluateLine_swap a b d d').
    destruct (i >? 0); lia.
Qed.

Lemma scoreWindow_small board r c d player :
  no_five board → player ≠ GomokuGame.EMPTY → d ∈ AXES →
  0 <= AIPlayer.scoreWindow board r c d.1 d.2 player <= 10000.
Proof.
  intros Hno Hp Hd.
  destruct (scoreWindow_cases board r c d.1 d.2 player) as (Hfive & _ & Hrange).
  destruct Hrange as [Heq|Hrange].
  - apply Hfive in Heq. by destruct (Hno player r c d Hp Hd).
  - unfold AIPlayer.SCORE_HALF_OPEN_FOUR in Hrange. lia.
Qed.

Lemma evaluateLine_small self board r c d :
  no_five board →
  AIPlayer.ai_player self ≠ GomokuGame.EMPTY →
  AIPlayer.opponent_player self ≠ GomokuGame.EMPTY →
  d ∈ AXES →
  Z.abs (AIPlayer.evaluateLine self board r c d.1 d.2) <= 110000.
Proof.
  intros Hno Hai Hopp Hd. unfold AIPlayer.evaluateLine, AIPlayer.line_sums.
  change 110000 with (0 + 10000 * Z.of_nat (length (ints 0 (BOARD_SIZE - WIN_LENGTH + 1)))).
  generalize (ints 0 (BOARD_SIZE - WIN_LENGTH + 1)). intros l.
  match goal with
  | |- context [foldl ?f _ l] =>
      assert (∀ sums : Z * Z,
                sums.1 <= (foldl f sums l).1
                  <= sums.1 + 10000 * Z.of_nat (length l) ∧
                sums.2 <= (foldl f sums l).2
                  <= sums.2 + 10000 * Z.of_nat (length l)) as Hsums
  end.
  { induction l as [|i l IH]; intros sums.
    - simpl. lia.
    - cbn [foldl]. cbv zeta. rewrite length_cons, Nat2Z.inj_succ.
      destruct (_ || _).
      + specialize (IH sums). lia.
      + match goal with |- context [foldl _ ?s l] => specialize (IH s) end.
        cbn [fst snd] in IH.
        pose proof (scoreWindow_small board (r + i * d.1) (c + i * d.2) d
                      _ Hno Hai Hd).
        pose proof (scoreWindow_small board (r + i * d.1) (c + i * d.2) d
                      _ Hno Hopp Hd).
        lia. }
  specialize (Hsums (0, 0)). cbn [fst snd] in Hsums. lia.
Qed.

Lemma evaluateBoard_small self board :
  AIPlayer.ai_player self ≠ GomokuGame.EMPTY →
  AIPlayer.opponent_player self ≠ GomokuGame.EMPTY →
  no_five board →
  Z.abs (AIPlayer.evaluateBoard self board) <= 9900000.
Proof.
  intros Hai Hopp Hno.
  assert (∀ r c d, d ∈ AXES →
                   Z.abs (AIPlayer.evaluateLine self board r c d.1 d.2)
                   <= 110000) as Hline
    by (intros; by apply evaluateLine_small).
  pose proof (λ r c, Hline r c (0, 1) ltac:(unfold AXES; repeat constructor)) as H01.
  pose proof (λ r c, Hline r c (1, 0) ltac:(unfold AXES; repeat constructor)) as H10.
  pose proof (λ r c, Hline r c (1, 1) ltac:(unfold AXES; repeat constructor)) as H11.
  pose proof (λ r c, Hline r c (1, -1) ltac:(unfold AXES; repeat constructor)) as H1m.
  cbn [fst snd] in H01, H10, H11, H1m.
  unfold AIPlayer.evaluateBoard. cbv zeta.
  match goal with
  | |- Z.abs (foldl ?g (foldl ?h 0 ?l) ?l) <= _ =>
      pose proof (foldl_drift h 220000 l) as Hfirst;
      pose proof (foldl_drift g 440000 l) as Hsecond
  end.
  change (Z.of_nat (length (ints 0 BOARD_SIZE))) with 15 in Hfirst, Hsecond.
  match type of Hfirst with
  | ?P → _ => assert P as Hstep1
  end.
  { intros s i _. pose proof (H01 i 0). pose proof (H10 0 i). lia. }
  match type of Hsecond with
  | ?P → _ => assert P as Hstep2
  end.
  { intros s i _. pose proof (H11 i 0). pose proof (H11 0 i).
    pose proof (H1m i 0). pose proof (H1m 0 i). destruct (i >? 0); lia. }
  specialize (Hfirst Hstep1 0).
  match type of Hfirst with
  | Z.abs (?v - 0) <= _ => specialize (Hsecond Hstep2 v)
  end.
  lia.
Qed.

Lemma getOpponent_side player : AIPlayer.getOpponent player ≠ GomokuGame.EMPTY.
Proof. unfold AIPlayer.getOpponent. by destruct (bool_decide _). Qed.

(** X20.  On a board where no window along the four axes holds five stones
    of one side, the score of [evaluateBoard] stays within 9,900,000 of zero:
    the sums never leave the range of [int], and every heuristic score lies
    strictly between the two values [INT_MIN + 1] and [INT_MAX - 1] that
    [minimax] returns for a won or lost game. *)
Theorem evaluateBoard_bounded (player_color : GomokuGame.Cell) (depth : Z)
    (board : Grid GomokuGame.Cell) :
  player_color ≠ GomokuGame.EMPTY →
  no_five board →
  Z.abs (AIPlayer.evaluateBoard (AIPlayer.new player_color depth) board)
    <= 9900000 ∧
  AIPlayer.INT_MIN + 1
    < AIPlayer.evaluateBoard (AIPlayer.new player_color depth) board
    < AIPlayer.INT_MAX - 1.
Proof.
  intros Hcolor Hno.
  pose proof (evaluateBoard_small (AIPlayer.new player_color depth) board
                Hcolor (getOpponent_side player_color) Hno) as Habs.
  split; [exact Habs|]. unfold AIPlayer.INT_MIN, AIPlayer.INT_MAX. lia.
Qed.

Lemma evaluateBoard_bounded_witness :
  Z.abs (AIPlayer.evaluateBoard (AIPlayer.new GomokuGame.BLACK 4)
           (GomokuGame.board diagonal_four)) <= 9900000 ∧
  AIPlayer.INT_MIN + 1
    < AIPlayer.evaluateBoard (AIPlayer.new GomokuGame.BLACK 4)
        (GomokuGame.board diagonal_four)
    < AIPlayer.INT_MAX - 1.
Proof.
  apply (evaluateBoard_bounded GomokuGame.BLACK 4
           (GomokuGame.board diagonal_four)); [done|].
  apply no_five_b_sound. vm_compute. reflexivity.
Defined.

(** X19.  On a board where no window along the four axes holds five stones
    of one side, so that the sums of [evaluateBoard] stay in the range of
    [int], the score is antisymmetric in the two sides: the score computed
    by the AI that plays Black is the negation of the score computed by the
    AI that plays White, whatever their depths, and both lie within
    9,900,000 of zero. *)
Theorem evaluateBoard_antisymmetric (board : Grid GomokuGame.Cell)
    (depth depth' : Z) :
  no_five board →
  AIPlayer.evaluateBoard (AIPlayer.new GomokuGame.BLACK depth) board
  = - AIPlayer.evaluateBoard (AIPlayer.new GomokuGame.WHITE depth') board ∧
  Z.abs (AIPlayer.evaluateBoard (AIPlayer.new GomokuGame.BLACK depth) board)
    <= 9900000 ∧
  Z.abs (AIPlayer.evaluateBoard (AIPlayer.new GomokuGame.WHITE depth') board)
    <= 9900000.
Proof.
  intros Hno. split; [apply evaluateBoard_swap|].
  split; by apply evaluateBoard_small.
Qed.

Lemma evaluateBoard_antisymmetric_witness :
  AIPlayer.evaluateBoard (AIPlayer.new GomokuGame.BLACK 4)
    (GomokuGame.board diagonal_four)
  = - AIPlayer.evaluateBoard (AIPlayer.new GomokuGame.WHITE 2)
        (GomokuGame.board diagonal_four).
Proof.
  apply (evaluateBoard_antisymmetric (GomokuGame.board diagonal_four) 4 2).
  apply no_five_b_sound. vm_compute. reflexivity.
Defined.

(** ** class AIPlayer: minimax and findBestMove *)

Lemma candidate_move_valid (g : GomokuGame.t) (m : GomokuGame.Move) :
  candidate_move (GomokuGame.board g) m →
  GomokuGame.isValidMove g (GomokuGame.row m) (GomokuGame.col m) = true.
Proof.
  intros (Hin & Hcell & _). apply in_range_spec in Hin.
  unfold GomokuGame.isValidMove.
  rewrite !andb_true_iff, bool_decide_eq_true. intuition lia.
Qed.

Lemma generateMoves_valid (g : GomokuGame.t) :
  Forall (λ m, GomokuGame.isValidMove g (GomokuGame.row m) (GomokuGame.col m)
               = true)
    (GomokuGame.generateMoves (GomokuGame.board g)).
Proof.
  apply Forall_forall. intros m Hm. apply candidate_move_valid.
  by apply generateMoves_candidates.
Qed.

Section AIPlayerFrame.
Variable rec :
  GomokuGame.t → Z → Z → GomokuGame.Move → option (Z * GomokuGame.t).
Hypothesis rec_frame : ∀ g alpha beta m, ∃ v, rec g alpha beta m = Some (v, g).

Lemma AIPlayer_max_loop_frame self game moves :
  Forall (λ m, GomokuGame.isValidMove game (GomokuGame.row m) (GomokuGame.col m)
               = true) moves →
  ∀ alpha beta max_eval,
    ∃ v, AIPlayer.max_loop rec self moves game alpha beta max_eval
         = Some (v, game).
Proof.
  induction 1 as [|m moves Hm _ IH]; intros alpha beta max_eval.
  - by eexists.
  - cbn [AIPlayer.max_loop]. cbv zeta.
    destruct (rec_frame (GomokuGame.makeMove game m (AIPlayer.ai_player self))
                alpha beta m) as (v & ->).
    cbn [mbind option_bind]. rewrite GomokuGame_make_undo by done.
    destruct (_ <=? _); [by eexists|apply IH].
Qed.

Lemma AIPlayer_min_loop_frame self game moves :
  Forall (λ m, GomokuGame.isValidMove game (GomokuGame.row m) (GomokuGame.col m)
               = true) moves →
  ∀ alpha beta min_eval,
    ∃ v, AIPlayer.min_loop rec self moves game alpha beta min_eval
         = Some (v, game).
Proof.
  induction 1 as [|m moves Hm _ IH]; intros alpha beta min_eval.
  - by eexists.
  - cbn [AIPlayer.min_loop]. cbv zeta.
    destruct (rec_frame
                (GomokuGame.makeMove game m (AIPlayer.opponent_player self))
                alpha beta m) as (v & ->).
    cbn [mbind option_bind]. rewrite GomokuGame_make_undo by done.
    destruct (_ <=? _); [by eexists|apply IH].
Qed.
End AIPlayerFrame.

Lemma AIPlayer_minimax_frame self (fuel : nat) :
  ∀ depth game is_maximizing alpha beta last_move,
    0 <= depth < Z.of_nat fuel →
    ∃ v, AIPlayer.minimax fuel self game depth is_maximizing alpha beta last_move
         = Some (v, game).
Proof.
  induction fuel as [|fuel IH];
    intros depth game is_maximizing alpha beta last_move Hd; [lia|].
  cbn [AIPlayer.minimax].
  destruct (GomokuGame.checkWin _ _ _); [by eexists|].
  destruct (GomokuGame.isBoardFull _); [by eexists|].
  destruct (depth =? 0) eqn:Hzero; [by eexists|].
  destruct is_maximizing.
  - apply AIPlayer_max_loop_frame; [|apply generateMoves_valid].
    intros g a b m. apply IH. lia.
  - apply AIPlayer_min_loop_frame; [|apply generateMoves_valid].
    intros g a b m. apply IH. lia.
Qed.

Lemma AIPlayer_best_loop_frame self (fuel : nat) game moves :
  1 <= AIPlayer.search_depth self <= Z.of_nat fuel →
  Forall (λ m, GomokuGame.isValidMove game (GomokuGame.row m) (GomokuGame.col m)
               = true) moves →
  ∀ best_move best_score,
    ∃ mv, AIPlayer.best_loop fuel self moves game best_move best_score
          = Some (mv, game) ∧
          (mv = best_move ∨ mv ∈ moves).
Proof.
  intros Hd. induction 1 as [|m moves Hm _ IH]; intros best_move best_score.
  - eexists. split; [done|by left].
  - cbn [AIPlayer.best_loop]. cbv zeta.
    destruct (AIPlayer_minimax_frame self fuel (AIPlayer.search_depth self - 1)
                (GomokuGame.makeMove game m (AIPlayer.ai_player self)) false
                AIPlayer.INT_MIN AIPlayer.INT_MAX m ltac:(lia)) as (v & ->).
    cbn [mbind option_bind]. rewrite GomokuGame_make_undo by done.
    destruct (_ >? _).
    + destruct (IH m v) as (mv & -> & Hmv). exists mv. split; [done|].
      right. apply elem_of_cons. destruct Hmv; auto.
    + destruct (IH best_move best_score) as (mv & -> & Hmv). exists mv.
      split; [done|]. destruct Hmv; [by left|]. right.
      apply elem_of_cons. by right.
Qed.

(** X21.  For a search depth of at least 1 and enough fuel, [findBestMove]
    returns and leaves the game as it found it (cell grid and move counter):
    every [makeMove] of the search is undone.  With no move made it answers
    the centre (7, 7); otherwise it answers either a candidate cell (empty,
    next to a stone) or the initial move (-1, -1), the latter in particular
    when there is no candidate. *)
Theorem findBestMove_restores_game (fuel : nat) (self : AIPlayer.t)
    (game : GomokuGame.t) :
  1 <= AIPlayer.search_depth self <= Z.of_nat fuel →
  ∃ mv, AIPlayer.findBestMove fuel self game = Some (mv, game) ∧
        (GomokuGame.move_count game = 0 → mv = GomokuGame.mkMove 7 7) ∧
        (GomokuGame.move_count game ≠ 0 →
         mv = GomokuGame.mkMove (-1) (-1) ∨
         candidate_move (GomokuGame.board game) mv) ∧
        (GomokuGame.move_count game ≠ 0 →
         GomokuGame.generateMoves (GomokuGame.board game) = [] →
         mv = GomokuGame.mkMove (-1) (-1)).
Proof.
  intros Hd. unfold AIPlayer.findBestMove. cbv zeta.
  destruct (GomokuGame.move_count game =? 0) eqn:Hcount.
  - eexists. split; [done|]. split; [done|]. split; intros; lia.
  - destruct (AIPlayer_best_loop_frame self fuel game
                (GomokuGame.generateMoves (GomokuGame.board game)) Hd
                (generateMoves_valid game) (GomokuGame.mkMove (-1) (-1))
                AIPlayer.INT_MIN) as (mv & -> & Hmv).
    exists mv. split; [done|]. split; [lia|]. split.
    + intros _. destruct Hmv as [->|Hmv]; [by left|right].
      by apply generateMoves_candidates.
    + intros _ Hnil. rewrite Hnil in Hmv.
      destruct Hmv as [->|Hmv]; [done|by apply elem_of_nil in Hmv].
Qed.

Lemma findBestMove_restores_game_witness :
  ∃ mv, AIPlayer.findBestMove 2 (AIPlayer.new GomokuGame.WHITE 2) diagonal_four
        = Some (mv, diagonal_four) ∧
        (mv = GomokuGame.mkMove (-1) (-1) ∨
         candidate_move (GomokuGame.board diagonal_four) mv).
Proof.
  destruct (findBestMove_restores_game 2 (AIPlayer.new GomokuGame.WHITE 2)
              diagonal_four ltac:(simpl; lia)) as (mv & Heq & _ & Hmv & _).
  exists mv. split; [exact Heq|]. apply Hmv. by vm_compute.
Defined.

(** ** PatternEvaluator::isThreat *)

(** As long as the cells it visits hold [stone], the inner loop of
    [analyzeLine] counts them. *)
Lemma analyze_dir_lower b start dr dc stone dir m :
  (∀ i, 1 <= i <= m →
        getStone b (row start + dr * i * dir) (col start + dc * i * dir)
        = stone) →
  ∀ (len : nat) j count blocked gapCount pattern,
    1 <= j →
    count + Z.min (Z.of_nat len) (Z.max 0 (m + 1 - j))
    <= (analyze_dir b start dr dc stone dir (seqZ j (Z.of_nat len)) count
          blocked gapCount pattern).1.
Proof.
  intros Hcells. induction len as [|len IH];
    intros j count blocked gapCount pattern Hj.
  - simpl. lia.
  - destruct (decide (j <= m)) as [Hle|Hgt].
    + rewrite seqZ_cons by lia.
      replace (Z.pred (Z.of_nat (S len))) with (Z.of_nat len) by lia.
      replace (Z.succ j) with (j + 1) by lia.
      cbn [analyze_dir]. cbv zeta.
      rewrite Hcells by lia. rewrite bool_decide_eq_true_2 by done.
      match goal with
      | |- _ <= (analyze_dir _ _ _ _ _ _ _ _ _ ?g ?p).1 =>
          specialize (IH (j + 1) (count + 1) blocked g p ltac:(lia))
      end.
      lia.
    + pose proof (analyze_dir_bounds b start dr dc stone dir
                    (seqZ j (Z.of_nat (S len))) count blocked gapCount pattern)
        as Hb.
      cbv zeta in Hb. lia.
Qed.

Lemma analyzeLine_five b start dr dc stone j :
  0 <= j < WIN_LENGTH →
  (∀ i, 0 <= i < WIN_LENGTH →
        getStone b (row start + dr * (i - j)) (col start + dc * (i - j))
        = stone) →
  5 <= consecutive (analyzeLine b start dr dc stone).
Proof.
  unfold WIN_LENGTH. intros Hj Hcells. unfold analyzeLine. cbn [foldl].
  pose proof (analyze_dir_lower b start dr dc stone (-1) j) as Hback.
  pose proof (analyze_dir_lower b start dr dc stone 1 (4 - j)) as Hfwd.
  pose proof (analyze_dir_bounds b start dr dc stone (-1) (ints 1 WIN_LENGTH)
                0 false 0 (mkLinePattern 1 0 0)) as H1.
  cbv zeta in H1.
  specialize (Hback ltac:(intros i Hi;
    replace (dr * i * -1) with (dr * ((j - i) - j)) by lia;
    replace (dc * i * -1) with (dc * ((j - i) - j)) by lia;
    apply Hcells; lia) 4%nat 1 0 false 0 (mkLinePattern 1 0 0) ltac:(lia)).
  change (seqZ 1 (Z.of_nat 4)) with (ints 1 WIN_LENGTH) in Hback.
  destruct (analyze_dir b start dr dc stone (-1) (ints 1 WIN_LENGTH) 0 false 0
              (mkLinePattern 1 0 0)) as [count1 pattern1].
  cbn [fst snd] in H1, Hback.
  match goal with
  | |- context [analyze_dir b start dr dc stone 1 _ 0 false 0 ?p] =>
      pose proof (analyze_dir_bounds b start dr dc stone 1 (ints 1 WIN_LENGTH)
                    0 false 0 p) as H2;
      specialize (Hfwd ltac:(intros i Hi;
        replace (dr * i * 1) with (dr * ((j + i) - j)) by lia;
        replace (dc * i * 1) with (dc * ((j + i) - j)) by lia;
        apply Hcells; lia) 4%nat 1 0 false 0 p ltac:(lia))
  end.
  cbv zeta in H2.
  change (seqZ 1 (Z.of_nat 4)) with (ints 1 WIN_LENGTH) in Hfwd.
  destruct (analyze_dir b start dr dc stone 1 (ints 1 WIN_LENGTH) 0 false 0 _)
    as [count2 pattern2].
  cbn [fst snd consecutive] in *. lia.
Qed.

(** X22.  [isThreat] flags every placement that completes five in a line
    along a row, a column or the diagonal direction (1, 1), the three
    directions the table holds: if, on the copy of the board on which the
    stone has been placed, the cell lies in a window of five cells along one
    of them that all hold the stone, the answer is true.  A placement that
    completes five on an anti-diagonal is not flagged for that: there is a
    board reached in play and a valid move on it that completes White's five
    along (1, -1) and for which the answer is false. *)
Theorem isThreat_flags_five :
  (∀ (b : Board) (pos : Position) (stone : Stone) (d : Z * Z) (j : Z),
     d ∈ [(0, 1); (1, 0); (1, 1)] → 0 <= j < WIN_LENGTH →
     (∀ i, 0 <= i < WIN_LENGTH →
           getStone (placeStone b (row pos) (col pos) stone).2
             (row pos + d.1 * (i - j)) (col pos + d.2 * (i - j)) = stone) →
     isThreat b pos stone = true) ∧
  (∃ (b : Board) (pos : Position),
     reachable b ∧ isValidMove b (row pos) (col pos) = true ∧
     (∀ i, 0 <= i < WIN_LENGTH →
           getStone (placeStone b (row pos) (col pos) WHITE).2
             (row pos + 1 * (i - 4)) (col pos + -1 * (i - 4)) = WHITE) ∧
     isThreat b pos WHITE = false).
Proof.
  split.
  - intros b pos stone d j Hd Hj Hcells. unfold isThreat. cbv zeta.
    change [(0, 1); (1, 0); (1, 1)] with DIRECTIONS in Hd.
    apply (for_first_flag
             (λ d, (consecutive
                      (analyzeLine (placeStone b (row pos) (col pos) stone).2
                         pos d.1 d.2 stone) >=? 4)
                   || ((consecutive
                          (analyzeLine (placeStone b (row pos) (col pos) stone).2
                             pos d.1 d.2 stone) =? 3)
                       && (openEnds
                             (analyzeLine
                                (placeStone b (row pos) (col pos) stone).2
                                pos d.1 d.2 stone) =? 2)))).
    exists d. split; [exact Hd|]. apply orb_true_iff. left.
    pose proof (analyzeLine_five _ pos d.1 d.2 stone j Hj Hcells). lia.
  - exists (play newBoard BLACK
              [(0, 0); (3, 11); (0, 2); (4, 10); (0, 4); (5, 9); (0, 6);
               (6, 8)]),
           (mkPosition 7 7).
    split; [|split; [|split]].
    + apply reachable_play; [constructor|done|by vm_compute].
    + by vm_compute.
    + intros i Hi. unfold WIN_LENGTH in Hi.
      assert (i = 0 ∨ i = 1 ∨ i = 2 ∨ i = 3 ∨ i = 4) as Hcases by lia.
      destruct Hcases as [-> | [-> | [-> | [-> | ->]]]]; by vm_compute.
    + by vm_compute.
Qed.

Lemma isThreat_flags_five_witness :
  isThreat
    (play newBoard BLACK
       [(9, 3); (7, 3); (9, 4); (7, 4); (9, 5); (7, 5); (9, 6); (7, 6)])
    (mkPosition 9 7) BLACK = true.
Proof.
  apply (proj1 isThreat_flags_five _ (mkPosition 9 7) BLACK (0, 1) 4).
  - repeat constructor.
  - unfold WIN_LENGTH. lia.
  - intros i Hi. unfold WIN_LENGTH in Hi.
    assert (i = 0 ∨ i = 1 ∨ i = 2 ∨ i = 3 ∨ i = 4) as Hcases by lia.
    destruct Hcases as [-> | [-> | [-> | [-> | ->]]]]; by vm_compute.
Defined.

(** ** class Gomoku of part_000: checkWin and evaluatePosition *)

Lemma checkDirection_run board row col d (fuel : nat) :
  in_range row col = true → d ∈ AXES → (15 ≤ fuel)%nat →
  ∃ res, VectorGomoku.checkDirection fuel board row col d.1 d.2 = Some res ∧
         (res = true ↔
          Gomoku.cell board row col ≠ 0 ∧
          ∃ n, run_through (Gomoku_own board (Gomoku.cell board row col))
                 row col d.1 d.2 n ∧ 5 <= n).
Proof.
  intros Hin Hd Hfuel. unfold VectorGomoku.checkDirection. cbv zeta.
  destruct (Gomoku.cell board row col =? 0) eqn:Hzero.
  { exists false. split; [done|]. split; [done|]. intros [Hne _]. lia. }
  destruct (axis_step_AXES d Hd) as [Hfwd Hbwd].
  set (player := Gomoku.cell board row col) in *.
  destruct (extent_exists (Gomoku_own board player)
              (Gomoku_own_in_range board player) row col _ _ Hfwd Hin)
    as (b & Hb & Hb15).
  destruct (extent_exists (Gomoku_own board player)
              (Gomoku_own_in_range board player) row col _ _ Hbwd Hin)
    as (a & Ha & Ha15).
  pose proof Ha as [Ha0 _]. pose proof Hb as [Hb0 _].
  unfold VectorGomoku.countConsecutive.
  pose proof (count_while_extent board player row col d.1 d.2 b Hb fuel 1 0
                ltac:(lia) ltac:(unfold BOARD_SIZE in *; lia)) as Hcf.
  rewrite !Z.mul_1_l in Hcf. rewrite Hcf. cbn [mbind option_bind].
  pose proof (count_while_extent board player row col (- d.1) (- d.2) a Ha fuel
                1 0 ltac:(lia) ltac:(unfold BOARD_SIZE in *; lia)) as Hcb.
  rewrite !Z.mul_1_l in Hcb. rewrite Hcb. cbn [mbind option_bind].
  eexists. split; [done|].
  assert (run_through (Gomoku_own board player) row col d.1 d.2 (a + 1 + b))
    as Hrun by (split; [by split|by exists a, b]).
  unfold WIN_LENGTH. split.
  - intros Hge. split; [lia|]. exists (a + 1 + b). split; [done|lia].
  - intros (_ & n & Hrun' & Hn).
    rewrite (run_through_unique _ _ _ _ _ _ _ Hrun' Hrun) in Hn. lia.
Qed.

(** X23.  [checkWin] of the third program returns for every in-range cell,
    answers false for an empty cell, and for an occupied cell answers true
    exactly when, along one of the four axes, the run of that side's stones
    through the cell has length five or more. *)
Theorem VectorGomoku_checkWin_iff_run (fuel : nat) (board : Grid Z)
    (row col : Z) :
  in_range row col = true → (15 ≤ fuel)%nat →
  ∃ res, VectorGomoku.checkWin fuel board row col = Some res ∧
         (Gomoku.cell board row col = 0 → res = false) ∧
         (res = true ↔
          Gomoku.cell board row col ≠ 0 ∧
          five_through (Gomoku_own board (Gomoku.cell board row col)) row col).
Proof.
  intros Hin Hfuel.
  assert (∀ d, d ∈ AXES → d ∈ AXES) as Hmem by done.
  destruct (checkDirection_run board row col (0, 1) fuel Hin
              ltac:(unfold AXES; repeat constructor) Hfuel)
    as (w1 & H1 & Hw1).
  destruct (checkDirection_run board row col (1, 0) fuel Hin
              ltac:(unfold AXES; repeat constructor) Hfuel)
    as (w2 & H2 & Hw2).
  destruct (checkDirection_run board row col (1, 1) fuel Hin
              ltac:(unfold AXES; repeat constructor) Hfuel)
    as (w3 & H3 & Hw3).
  destruct (checkDirection_run board row col (1, -1) fuel Hin
              ltac:(unfold AXES; repeat constructor) Hfuel)
    as (w4 & H4 & Hw4).
  cbn [fst snd] in *.
  exists (w1 || w2 || w3 || w4). split.
  { unfold VectorGomoku.checkWin. rewrite H1. cbn [mbind option_bind].
    destruct w1; [done|]. rewrite H2. cbn [mbind option_bind].
    destruct w2; [done|]. rewrite H3. cbn [mbind option_bind].
    destruct w3; [done|]. by rewrite H4. }
  assert (w1 || w2 || w3 || w4 = true ↔
          Gomoku.cell board row col ≠ 0 ∧
          five_through (Gomoku_own board (Gomoku.cell board row col)) row col)
    as Hiff.
  { rewrite !orb_true_iff, Hw1, Hw2, Hw3, Hw4. unfold five_through. split.
    - intros [[[[Hne (n & Hrun & Hn)]|[Hne (n & Hrun & Hn)]]
               |[Hne (n & Hrun & Hn)]]|[Hne (n & Hrun & Hn)]];
        (split; [exact Hne|]).
      + exists (0, 1), n. split; [unfold AXES; repeat constructor|done].
      + exists (1, 0), n. split; [unfold AXES; repeat constructor|done].
      + exists (1, 1), n. split; [unfold AXES; repeat constructor|done].
      + exists (1, -1), n. split; [unfold AXES; repeat constructor|done].
    - intros (Hne & d & n & Hd & Hrun & Hn). unfold AXES in Hd.
      rewrite !elem_of_cons, elem_of_nil in Hd.
      destruct Hd as [-> | [-> | [-> | [-> | []]]]]; eauto 10. }
  split; [|exact Hiff].
  intros Hzero. destruct (w1 || w2 || w3 || w4); [|done].
  by destruct (proj1 Hiff eq_refl) as [Hne _].
Qed.

Lemma VectorGomoku_checkWin_iff_run_witness :
  ∃ res, VectorGomoku.checkWin 15 five_in_row 7 5 = Some res ∧
         (res = true ↔
          Gomoku.cell five_in_row 7 5 ≠ 0 ∧
          five_through (Gomoku_own five_in_row (Gomoku.cell five_in_row 7 5))
            7 5).
Proof.
  destruct (VectorGomoku_checkWin_iff_run 15 five_in_row 7 5 eq_refl
              ltac:(lia)) as (res & Hres & _ & Hiff).
  by exists res.
Defined.

Lemma count_to_end_extent board player r0 c0 sr sc n :
  extent (Gomoku_own board player) r0 c0 sr sc n →
  ∀ (fuel : nat) j count,
    1 <= j <= n + 1 → n + 1 - j < Z.of_nat fuel →
    VectorGomoku.count_to_end fuel board (r0 + j * sr) (c0 + j * sc) sr sc
      player count
    = Some (count + (n + 1 - j), r0 + (n + 1) * sr, c0 + (n + 1) * sc).
Proof.
  intros (Hn & Hown & Hstop).
  induction fuel as [|fuel IH]; intros j count Hj Hf; [lia|].
  cbn [VectorGomoku.count_to_end].
  destruct (decide (j = n + 1)) as [->|Hne].
  - destruct (_ && _) eqn:Htest.
    + by apply Gomoku_own_test in Htest.
    + do 3 f_equal. lia.
  - pose proof (Hown j ltac:(lia)) as Hj'.
    apply Gomoku_own_test in Hj'. rewrite Hj'.
    replace (r0 + j * sr + sr) with (r0 + (j + 1) * sr) by lia.
    replace (c0 + j * sc + sc) with (c0 + (j + 1) * sc) by lia.
    rewrite IH by lia. do 3 f_equal. lia.
Qed.

Lemma eval_dirs_spec (fuel : nat) board row col player dirs :
  Gomoku_own board player row col → (15 ≤ fuel)%nat → dirs ⊆ AXES →
  let five := ∃ d n, d ∈ dirs ∧
                     run_through (Gomoku_own board player) row col d.1 d.2 n ∧
                     5 <= n in
  ∀ score,
    ∃ v, VectorGomoku.eval_dirs fuel board row col player dirs score = Some v ∧
         score <= v ∧
         ((five ∧ score + 100000 <= v) ∨
          (¬ five ∧ v <= score + 10000 * Z.of_nat (length dirs))).
Proof.
  intros Hown Hfuel. pose proof Hown as [Hin _].
  induction dirs as [|d dirs IH]; intros Hsub five score.
  - cbn [VectorGomoku.eval_dirs]. eexists. split; [done|]. split; [lia|].
    right. split; [|simpl; lia]. by intros (d & n & ?%elem_of_nil & _).
  - assert (d ∈ AXES) as Hd by (apply Hsub, elem_of_cons; by left).
    destruct (axis_step_AXES d Hd) as [Hfwd Hbwd].
    destruct (extent_exists (Gomoku_own board player)
                (Gomoku_own_in_range board player) row col _ _ Hfwd Hin)
      as (b & Hb & Hb15).
    destruct (extent_exists (Gomoku_own board player)
                (Gomoku_own_in_range board player) row col _ _ Hbwd Hin)
      as (a & Ha & Ha15).
    pose proof Ha as [Ha0 _]. pose proof Hb as [Hb0 _].
    assert (run_through (Gomoku_own board player) row col d.1 d.2 (a + 1 + b))
      as Hrun by (split; [done|by exists a, b]).
    cbn [VectorGomoku.eval_dirs]. cbv zeta.
    pose proof (count_to_end_extent board player row col d.1 d.2 b Hb fuel 1 1
                  ltac:(lia) ltac:(unfold BOARD_SIZE in *; lia)) as Hcf.
    rewrite !Z.mul_1_l in Hcf. rewrite Hcf. cbn [mbind option_bind].
    pose proof (count_to_end_extent board player row col (- d.1) (- d.2) a Ha
                  fuel 1 (1 + (b + 1 - 1))
                  ltac:(lia) ltac:(unfold BOARD_SIZE in *; lia)) as Hcb.
    rewrite !Z.mul_1_l in Hcb.
    replace (row - d.1) with (row + - d.1) by lia.
    replace (col - d.2) with (col + - d.2) by lia.
    rewrite Hcb. cbn [mbind option_bind].
    match goal with
    | |- ∃ v, VectorGomoku.eval_dirs _ _ _ _ _ _ ?s = _ ∧ _ =>
        set (score' := s)
    end.
    rewrite length_cons, Nat2Z.inj_succ.
    destruct (IH ltac:(intros x Hx; apply Hsub, elem_of_cons; by right) score')
      as (v & Hv & Hle & Hcases).
    exists v. split; [exact Hv|].
    assert (score <= score' <= score + 100000 ∧
            (5 <= a + 1 + b → score' = score + 100000) ∧
            (a + 1 + b < 5 → score' <= score + 10000)) as Hscore'.
    { unfold score'.
      repeat match goal with
             | |- context [if ?t then _ else _] => destruct t eqn:?
             end; lia. }
    split; [lia|].
    destruct (decide (5 <= a + 1 + b)) as [Hlong|Hshort].
    { left. split; [|lia]. exists d, (a + 1 + b).
      split; [apply elem_of_cons; by left|done]. }
    destruct Hcases as [[(d' & n & Hd' & Hrest) Hge]|[Hno Hsmall]].
    + left. split; [|lia]. exists d', n.
      split; [apply elem_of_cons; by right|done].
    + right. split; [|lia].
      intros (d' & n & [->|Hd']%elem_of_cons & Hrun' & Hn).
      * rewrite (run_through_unique _ _ _ _ _ _ _ Hrun' Hrun) in Hn. lia.
      * apply Hno. by exists d', n.
Qed.

(** X24.  [evaluatePosition] of the third program, called for a cell of the
    board, leaves that cell at 0 and every other cell as it was: the board is
    restored when the cell was empty, and a stone that stood there is erased.
    Its score is at least 100000 exactly when the player's piece on that cell
    would lie in a run of five or more, the test by which [getAIMove]
    recognises winning and must-block cells; every other score lies between
    1 and 40015. *)
Theorem VectorGomoku_evaluatePosition_win (fuel : nat) (board : Grid Z)
    (row col player : Z) :
  grid_ok board → in_range row col = true → (15 ≤ fuel)%nat →
  ∃ v board',
    VectorGomoku.evaluatePosition fuel board row col player = Some (v, board') ∧
    Gomoku.cell board' row col = 0 ∧
    (∀ r c, (row, col) ≠ (r, c) →
            Gomoku.cell board' r c = Gomoku.cell board r c) ∧
    (Gomoku.cell board row col = 0 → board' = board) ∧
    (100000 <= v ↔
     five_through (Gomoku_own (array_set board row col player) player)
       row col) ∧
    (v < 100000 → 1 <= v <= 40015).
Proof.
  intros Hok Hin Hfuel. unfold VectorGomoku.evaluatePosition. cbv zeta.
  set (placed := array_set board row col player).
  assert (grid_ok placed) as Hok' by (by apply array_set_ok).
  assert (Gomoku_own placed player row col) as Hown.
  { split; [done|]. by apply Gomoku_cell_set_eq. }
  destruct (eval_dirs_spec fuel placed row col player AXES Hown Hfuel
              ltac:(done) 0) as (s & Hs & Hle & Hcases).
  change [(0, 1); (1, 0); (1, 1); (1, -1)] with AXES.
  rewrite Hs. cbn [mbind option_bind]. eexists _, _. split; [done|].
  change (Z.of_nat (length AXES)) with 4 in Hcases.
  fold (five_through (Gomoku_own placed player) row col) in Hcases.
  apply in_range_spec in Hin as Hrc. unfold BOARD_SIZE in *.
  change (15 ÷ 2) with 7.
  split; [|split; [|split; [|split]]].
  - by apply Gomoku_cell_set_eq.
  - intros r c Hne. unfold placed. by rewrite !Gomoku_cell_set_ne.
  - intros Hzero. apply array_set_set_id. unfold Gomoku.cell in Hzero.
    destruct (array_at_ok board row col Hok Hin) as [x Hx].
    rewrite Hx in Hzero |- *. simpl in Hzero. by subst.
  - destruct Hcases as [[Hfive Hge]|[Hno Hsmall]].
    + split; [done|]. intros _. lia.
    + split; [lia|]. intros Hfive. by destruct Hno.
  - intros Hlt. destruct Hcases as [[Hfive Hge]|[Hno Hsmall]]; lia.
Qed.

Lemma VectorGomoku_evaluatePosition_win_witness :
  ∃ v, VectorGomoku.evaluatePosition 15 four_with_gap 7 5 1
       = Some (v, four_with_gap) ∧ 100000 <= v.
Proof.
  assert (grid_ok four_with_gap) as Hok.
  { unfold four_with_gap. simpl foldl. repeat apply array_set_ok.
    apply array_fill_ok. }
  destruct (VectorGomoku_evaluatePosition_win 15 four_with_gap 7 5 1 Hok
              eq_refl ltac:(lia))
    as (v & board' & Heq & _ & _ & Hsame & Hwin & _).
  exists v. rewrite Heq, (Hsame eq_refl). split; [done|].
  assert (Some (v, board') = Some (100013, four_with_gap)) as [= -> _]
    by (rewrite <- Heq; vm_compute; reflexivity).
  lia.
Defined.
